(** * Contact project: the stealth-signature codec, the outreach ledger
      with its ISO weeks, and the entity map and importance scores of the
      knowledge graph, embedded from the JavaScript sources.

    Conventions of the embedding.
    - A JavaScript string is the list of its UTF-16 code units ([list N]);
      [length], [charAt], [===] and [<] on strings are those of that list.
    - A number that holds an integer (ids, counters, positions, time values
      in milliseconds) is a [Z]; this is exact below 2^53.
    - A quotient of two such numbers is kept exact.
    - The score is embedded twice.  [Scoring] computes it on binary64
      Numbers, operation by operation as the engine does, and gives the
      value that is written.  [Graph] is its idealisation in real numbers,
      without the rounding of doubles; the order, range and frame
      properties of the score are stated over it.
    - [new Date()] and the time zone of the host are inputs of the
      operation that uses them.
    - An object used as a dictionary whose enumeration order is observed is
      an association list in [Object.entries] order; one that is only read
      and written by key is a [gmap].
    - An operation that mutates its argument returns the new value. *)

From Stdlib Require Import ZArith List Lia String Ascii Bool DecimalString.
From Stdlib Require Import DecimalPos.
From Stdlib Require Import QArith Qround Qreduction.
From Stdlib Require Import Reals Lra.
From Stdlib Require Floats Uint63.
From Stdlib Require Import Sorting.Sorted Sorting.Permutation.
From stdpp Require Import base decidable option countable gmap.
Import ListNotations.

Local Open Scope Z_scope.

(** ** Strings *)

Module JS.

Definition jsstring : Type := list N.

(** An ASCII literal of the source as code units. *)
Definition lit (s : string) : jsstring :=
  List.map N_of_ascii (list_ascii_of_string s).

Definition str_length (s : jsstring) : Z := Z.of_nat (List.length s).

(** [arr[i]] on an array: [None] stands for [undefined]. *)
Definition array_get {A : Type} (arr : list A) (i : Z) : option A :=
  if i <? 0 then None else nth_error arr (Z.to_nat i).

(** [s.charAt(idx)]: the one-unit string at [idx], or the empty string. *)
Definition charAt (s : jsstring) (idx : Z) : jsstring :=
  match array_get s idx with
  | Some c => [c]
  | None => []
  end.

Fixpoint indexOf_from (i : Z) (arr : list jsstring) (x : jsstring) : Z :=
  match arr with
  | [] => -1
  | y :: ys => if decide (y = x) then i else indexOf_from (i + 1) ys x
  end.

(** [arr.indexOf(x)] on an array of strings: first index, or -1. *)
Definition indexOf (arr : list jsstring) (x : jsstring) : Z :=
  indexOf_from 0 arr x.

(** [s.replace(pattern, replacement)] with string arguments: the first
    occurrence only. *)
Fixpoint strip_prefix (pattern s : jsstring) : option jsstring :=
  match pattern, s with
  | [], _ => Some s
  | p :: pattern', c :: s' =>
      if N.eqb p c then strip_prefix pattern' s' else None
  | _ :: _, [] => None
  end.

Fixpoint replace (pattern replacement s : jsstring) : jsstring :=
  match strip_prefix pattern s with
  | Some rest => replacement ++ rest
  | None =>
      match s with
      | [] => []
      | c :: s' => c :: replace pattern replacement s'
      end
  end.

(** White space and line terminators skipped by [parseInt]. *)
Definition is_whitespace (c : N) : bool :=
  existsb (N.eqb c)
    [9; 10; 11; 12; 13; 32; 160; 5760; 8192; 8193; 8194; 8195; 8196; 8197;
     8198; 8199; 8200; 8201; 8202; 8232; 8233; 8239; 8287; 12288; 65279]%N.

Fixpoint trim_start (s : jsstring) : jsstring :=
  match s with
  | c :: s' => if is_whitespace c then trim_start s' else s
  | [] => []
  end.

Definition is_decimal_digit (c : N) : bool := ((48 <=? c) && (c <=? 57))%N.

Fixpoint parse_digits (s : jsstring) (acc : Z) (seen : bool) : option Z :=
  match s with
  | c :: s' =>
      if is_decimal_digit c
      then parse_digits s' (acc * 10 + (Z.of_N c - 48)) true
      else if seen then Some acc else None
  | [] => if seen then Some acc else None
  end.

(** [parseInt(s, 10)]; [None] stands for [NaN]. *)
Definition parseInt (s : jsstring) : option Z :=
  match trim_start s with
  | 45%N :: s' => option_map Z.opp (parse_digits s' 0 false)
  | 43%N :: s' => parse_digits s' 0 false
  | s' => parse_digits s' 0 false
  end.

(** [a < b] on strings compares code units, the first difference
    deciding. *)
Fixpoint string_lt (a b : jsstring) : bool :=
  match a, b with
  | _, [] => false
  | [], _ :: _ => true
  | x :: a', y :: b' =>
      if N.ltb x y then true
      else if N.eqb x y then string_lt a' b' else false
  end.

(** An integer as a template literal prints it. *)
Definition number_to_string (z : Z) : jsstring :=
  lit (NilZero.string_of_int (Z.to_int z)).

(** *** Objects whose enumeration order is observed

    Own string keys are enumerated with array indices first, in ascending
    numeric order, then the other keys in the order of their creation.
    Keys are taken not to name a property of [Object.prototype]. *)

Definition array_index (key : jsstring) : option Z :=
  match key with
  | [48%N] => Some 0
  | c :: _ =>
      if N.eqb c 48 then None
      else
        match parse_digits key 0 false with
        | Some n =>
            if forallb is_decimal_digit key && (n <=? 4294967294)
            then Some n else None
        | None => None
        end
  | [] => None
  end.

Definition object (A : Type) : Type := list (jsstring * A).

Fixpoint obj_get {A : Type} (o : object A) (key : jsstring) : option A :=
  match o with
  | [] => None
  | (k, v) :: o' => if decide (k = key) then Some v else obj_get o' key
  end.

Fixpoint obj_replace {A : Type} (o : object A) (key : jsstring) (v : A) : object A :=
  match o with
  | [] => []
  | (k, w) :: o' =>
      if decide (k = key) then (k, v) :: o' else (k, w) :: obj_replace o' key v
  end.

(** A new array-index key goes before the first key that is not an array
    index or is a larger one. *)
Fixpoint obj_insert_index {A : Type} (o : object A) (n : Z) (key : jsstring) (v : A)
  : object A :=
  match o with
  | [] => [(key, v)]
  | (k, w) :: o' =>
      match array_index k with
      | Some m =>
          if m <? n then (k, w) :: obj_insert_index o' n key v
          else (key, v) :: o
      | None => (key, v) :: o
      end
  end.

(** [o[key] = v]. *)
Definition obj_set {A : Type} (o : object A) (key : jsstring) (v : A) : object A :=
  match obj_get o key with
  | Some _ => obj_replace o key v
  | None =>
      match array_index key with
      | Some n => obj_insert_index o n key v
      | None => o ++ [(key, v)]
      end
  end.

(** Whether a string is truthy: it is not empty. *)
Definition truthy (s : option jsstring) : bool :=
  match s with
  | Some (_ :: _) => true
  | _ => false
  end.

End JS.

(** ** signature-encoder.js *)

Module Codec.
Import JS.

(** '|' U+007C, broken bar U+00A6, dental click U+01C0, fullwidth line
    U+FF5C, heavy vertical U+2503, double vertical U+2551. *)
Definition SEPARATORS : list jsstring :=
  [[124%N]; [166%N]; [448%N]; [65372%N]; [9475%N]; [9553%N]].

(** First loop of [intToBaseNArray]: [while (tempNumber > 0)], with [%] the
    remainder that takes the sign of the dividend.  The loop of the source
    does not terminate for a base below 2, so the model counts iterations;
    [None] means the count ran out. *)
Fixpoint digits_loop (fuel : nat) (base tempNumber : Z) (digits : list Z)
  : option (list Z) :=
  if tempNumber >? 0 then
    match fuel with
    | O => None
    | S fuel' =>
        let remainder := Z.rem tempNumber base in
        digits_loop fuel' base (tempNumber / base) (remainder :: digits)
    end
  else Some digits.

(** Second loop: [while (digits.length < length) digits.unshift(0)]. *)
Fixpoint pad_loop (missing : nat) (digits : list Z) : list Z :=
  match missing with
  | O => digits
  | S m => pad_loop m (0 :: digits)
  end.

(** The one call of the source passes base 6, for which [Z.to_nat number]
    iterations are enough ([digits_loop_spec]). *)
Definition intToBaseNArray (number base length : Z) : option (list Z) :=
  match digits_loop (Z.to_nat number) base number [] with
  | Some digits =>
      Some (pad_loop (Z.to_nat (length - Z.of_nat (List.length digits))) digits)
  | None => None
  end.

(** [SEPARATORS[encodingDigits[i]]] as the text that [+=] appends. *)
Definition separator_text (digit : option Z) : jsstring :=
  match digit with
  | Some d =>
      match array_get SEPARATORS d with
      | Some sep => sep
      | None => lit "undefined"
      end
  | None => lit "undefined"
  end.

Fixpoint signature_loop (i : Z) (chunks : list jsstring)
    (numSeparators : Z) (encodingDigits : list Z) (acc : jsstring) : jsstring :=
  match chunks with
  | [] => acc
  | chunk :: rest =>
      let acc1 := acc ++ chunk in
      let acc2 :=
        if i <? numSeparators
        then acc1 ++ separator_text (array_get encodingDigits i)
        else acc1 in
      signature_loop (i + 1) rest numSeparators encodingDigits acc2
  end.

Definition generateStealthSignature (idNumber : Z) (signatureChunks : list jsstring)
  : option jsstring :=
  let base := Z.of_nat (List.length SEPARATORS) in
  let numSeparators := Z.of_nat (List.length signatureChunks) - 1 in
  match intToBaseNArray idNumber base numSeparators with
  | Some encodingDigits =>
      Some (signature_loop 0 signatureChunks numSeparators encodingDigits [])
  | None => None
  end.

(** The positions pushed by the loop over all chunks but the last. *)
Fixpoint separatorIndices (expectedChunks : list jsstring) (position : Z) : list Z :=
  match expectedChunks with
  | chunk :: (_ :: _) as rest =>
      let position1 := position + str_length chunk in
      position1 :: separatorIndices rest (position1 + 1)
  | _ => []
  end.

Definition decodeStealthSignature (signature : jsstring)
    (expectedChunks : list jsstring) : Z :=
  let extractedSeparators :=
    List.map (charAt signature) (separatorIndices expectedChunks 0) in
  let digits := List.map (indexOf SEPARATORS) extractedSeparators in
  let base := Z.of_nat (List.length SEPARATORS) in
  fold_left (fun idNumber digit => idNumber * base + digit) digits 0.

Definition defaultChunks : list jsstring :=
  [lit " Larry Velez "; lit " kogi.ai "; lit " 212-380-1014 "; lit " "].

End Codec.

(** ** signature-encoder.js: [robustSignatureDecode] *)

Module RobustDecode.
Import JS Codec.

Definition signatureVariations : list (list jsstring) :=
  [[lit " Larry Velez "; lit " kogi.ai "; lit " 212-380-1014 "; lit " "];
   [lit "Larry Velez "; lit " kogi.ai "; lit " 212-380-1014 "; lit " "];
   [lit " Larry Velez "; lit "kogi.ai "; lit " 212-380-1014 "; lit " "];
   [lit "Larry Velez "; lit "kogi.ai "; lit " 212-380-1014 "; lit " "];
   [lit "Larry Velez "; lit " kogi.ai "; lit "212-380-1014 "; lit " "];
   [lit "Larry Velez"; lit " kogi.ai"; lit " 212-380-1014"; lit ""]].

(** The inner loop over [Object.entries(contactData)]: the first contact
    whose id, without 'contact_', parses to [decodedId]. *)
Fixpoint matching_contact {A : Type} (decodedId : Z) (contactData : object A)
  : option (jsstring * A) :=
  match contactData with
  | [] => None
  | (contactId, contact) :: rest =>
      let idNum := parseInt (replace (lit "contact_") [] contactId) in
      if decide (idNum = Some decodedId) then Some (contactId, contact)
      else matching_contact decodedId rest
  end.

(** The outer loop over the variations; [decodeStealthSignature] raises
    nothing, so the [catch] is never entered. *)
Fixpoint try_variations {A : Type} (signatureText : jsstring)
    (contactData : object A) (variations : list (list jsstring))
  : option (jsstring * A) :=
  match variations with
  | [] => None
  | chunks :: rest =>
      let decodedId := decodeStealthSignature signatureText chunks in
      match matching_contact decodedId contactData with
      | Some found => Some found
      | None => try_variations signatureText contactData rest
      end
  end.

(** [None] is the [null] of the source. *)
Definition robustSignatureDecode {A : Type} (signatureText : jsstring)
    (contactData : object A) : option (jsstring * A) :=
  try_variations signatureText contactData signatureVariations.

End RobustDecode.

(** ** Date arithmetic of the host language

    [Date] values are time values: milliseconds since 1970-01-01T00:00Z.
    The functions below are the abstract operations by which ECMAScript
    defines [Date.UTC], [getUTCFullYear], [getUTCDay], [setUTCDate] and the
    local-time getters; the range limit of time values (about 275,000
    years either side of 1970) is left out. *)

Module Dates.

Definition msPerDay : Z := 86400000.

Definition Day (t : Z) : Z := t / msPerDay.
Definition TimeWithinDay (t : Z) : Z := t mod msPerDay.

Definition DaysInYear (y : Z) : Z :=
  if negb (y mod 4 =? 0) then 365
  else if negb (y mod 100 =? 0) then 366
  else if negb (y mod 400 =? 0) then 365
  else 366.

Definition DayFromYear (y : Z) : Z :=
  365 * (y - 1970) + (y - 1969) / 4 - (y - 1901) / 100 + (y - 1601) / 400.

(** The largest [y] with [DayFromYear y <= d], computed from an estimate
    that is off by at most one ([YearFromDay_bounds]). *)
Definition YearFromDay (d : Z) : Z :=
  let y := 1970 + (400 * d) / 146097 in
  if d <? DayFromYear y then y - 1
  else if DayFromYear (y + 1) <=? d then y + 1
  else y.

Definition YearFromTime (t : Z) : Z := YearFromDay (Day t).

Definition InLeapYear (t : Z) : Z :=
  if DaysInYear (YearFromTime t) =? 366 then 1 else 0.

Definition DayWithinYear (t : Z) : Z :=
  Day t - DayFromYear (YearFromTime t).

Definition MonthFromTime (t : Z) : Z :=
  let dwy := DayWithinYear t in
  let leap := InLeapYear t in
  if dwy <? 31 then 0
  else if dwy <? 59 + leap then 1
  else if dwy <? 90 + leap then 2
  else if dwy <? 120 + leap then 3
  else if dwy <? 151 + leap then 4
  else if dwy <? 181 + leap then 5
  else if dwy <? 212 + leap then 6
  else if dwy <? 243 + leap then 7
  else if dwy <? 273 + leap then 8
  else if dwy <? 304 + leap then 9
  else if dwy <? 334 + leap then 10
  else 11.

Definition DateFromTime (t : Z) : Z :=
  let dwy := DayWithinYear t in
  let leap := InLeapYear t in
  match MonthFromTime t with
  | 0 => dwy + 1
  | 1 => dwy - 30
  | 2 => dwy - 58 - leap
  | 3 => dwy - 89 - leap
  | 4 => dwy - 119 - leap
  | 5 => dwy - 150 - leap
  | 6 => dwy - 180 - leap
  | 7 => dwy - 211 - leap
  | 8 => dwy - 242 - leap
  | 9 => dwy - 272 - leap
  | 10 => dwy - 303 - leap
  | _ => dwy - 333 - leap
  end.

(** 0 is Sunday; 1970-01-01 was a Thursday. *)
Definition WeekDay (t : Z) : Z := (Day t + 4) mod 7.

(** Days from 1 January to the first of month [mn] (0..11). *)
Definition DayOfMonthStart (mn leap : Z) : Z :=
  match mn with
  | 0 => 0
  | 1 => 31
  | 2 => 59 + leap
  | 3 => 90 + leap
  | 4 => 120 + leap
  | 5 => 151 + leap
  | 6 => 181 + leap
  | 7 => 212 + leap
  | 8 => 243 + leap
  | 9 => 273 + leap
  | 10 => 304 + leap
  | _ => 334 + leap
  end.

(** [MakeDay]: the day number of the first of the month, plus [date - 1];
    a month outside 0..11 carries into the year. *)
Definition MakeDay (year month date : Z) : Z :=
  let ym := year + month / 12 in
  let mn := month mod 12 in
  let leap := if DaysInYear ym =? 366 then 1 else 0 in
  DayFromYear ym + DayOfMonthStart mn leap + date - 1.

Definition MakeDate (day time : Z) : Z := day * msPerDay + time.

(** [Date.UTC(year, month, date)]; a year from 0 to 99 means 1900 + year. *)
Definition DateUTC (year month date : Z) : Z :=
  let yr := if (0 <=? year) && (year <=? 99) then 1900 + year else year in
  MakeDate (MakeDay yr month date) 0.

Definition getUTCFullYear (t : Z) : Z := YearFromTime t.
Definition getUTCDate (t : Z) : Z := DateFromTime t.
Definition getUTCDay (t : Z) : Z := WeekDay t.

Definition setUTCDate (t dt : Z) : Z :=
  MakeDate (MakeDay (YearFromTime t) (MonthFromTime t) dt) (TimeWithinDay t).

(** Local time: [tz t] is the offset of the host's time zone, in
    milliseconds, in force at [t]. *)
Definition LocalTime (tz : Z -> Z) (t : Z) : Z := t + tz t.

Definition getFullYear (tz : Z -> Z) (t : Z) : Z := YearFromTime (LocalTime tz t).
Definition getMonth (tz : Z -> Z) (t : Z) : Z := MonthFromTime (LocalTime tz t).
Definition getDate (tz : Z -> Z) (t : Z) : Z := DateFromTime (LocalTime tz t).

End Dates.

(** ** utilities/outreach_tracker.js *)

Module Tracker.
Import JS Dates.

(** The result of dividing one integer by another.  The quotient is kept
    exact; its rounding to a double is left out. *)
Inductive number : Type :=
| Finite (q : Q)
| PlusInfinity
| MinusInfinity
| NaN.

Definition divide (a b : Z) : number :=
  if b =? 0 then
    if 0 <? a then PlusInfinity
    else if a <? 0 then MinusInfinity
    else NaN
  else Finite (Qred (inject_Z a / inject_Z b)).

Record Email : Type := {
  contactId : jsstring;
  subject : jsstring;
  to : jsstring;
  category : option jsstring
}.

(** A value of [trackingData.outreachStatus].  Dates kept as ISO strings
    in the source are the time values those strings denote. *)
Record OutreachRecord : Type := {
  lastOutreachDate : Z;
  outreachCount : Z;
  lastEmailSubject : jsstring;
  lastEmailTo : jsstring;
  responded : bool;
  responseDate : option Z;
  responseTime : option number
}.

Record TrackingCode : Type := {
  tc_contactId : jsstring;
  tc_email : jsstring;
  tc_outreachDate : Z;
  signatureChunks : list jsstring;
  tc_category : option jsstring
}.

Record CategoryMetrics : Type := {
  cm_sent : Z;
  cm_responses : Z;
  cm_responseRate : number
}.

Record WeeklyEntry : Type := {
  year : Z;
  week : Z;
  sent : Z;
  responses : Z;
  wk_responseRate : number
}.

Record ResponseMetrics : Type := {
  totalSent : Z;
  totalResponses : Z;
  responseRate : number;
  responseTimes : gmap jsstring number;
  categoryMetrics : gmap jsstring CategoryMetrics;
  weeklyStats : list WeeklyEntry
}.

Record TrackingData : Type := {
  outreachStatus : gmap jsstring OutreachRecord;
  responseMetrics : ResponseMetrics;
  trackingCodes : object TrackingCode
}.

(** The data [initializeTrackingSystem] starts from when no file exists. *)
Definition emptyTrackingData : TrackingData :=
  {| outreachStatus := ∅;
     responseMetrics :=
       {| totalSent := 0; totalResponses := 0; responseRate := Finite 0;
          responseTimes := ∅; categoryMetrics := ∅; weeklyStats := [] |};
     trackingCodes := [] |}.

Record WeekNumber : Type := { wn_year : Z; wn_week : Z }.

Definition getWeekNumber (tz : Z -> Z) (date : Z) : WeekNumber :=
  let d := DateUTC (getFullYear tz date) (getMonth tz date) (getDate tz date) in
  let dayNum := if getUTCDay d =? 0 then 7 else getUTCDay d in
  let d := setUTCDate d (getUTCDate d + 4 - dayNum) in
  let yearStart := DateUTC (getUTCFullYear d) 0 1 in
  {| wn_year := getUTCFullYear d;
     wn_week :=
       Qceiling ((inject_Z (d - yearStart) / inject_Z 86400000 + 1) / 7)%Q |}.

Definition same_week (w : WeekNumber) (entry : WeeklyEntry) : bool :=
  (year entry =? wn_year w) && (week entry =? wn_week w).

(** [weeklyStats.find(...)] followed by an update of the entry found, in
    place; [None] when [find] returns [undefined]. *)
Fixpoint update_week (w : WeekNumber) (f : WeeklyEntry -> WeeklyEntry)
    (stats : list WeeklyEntry) : option (list WeeklyEntry) :=
  match stats with
  | [] => None
  | entry :: rest =>
      if same_week w entry then Some (f entry :: rest)
      else option_map (cons entry) (update_week w f rest)
  end.

Definition recordOutreach (tz : Z -> Z) (now weekNow : Z)
    (email : Email) (trackingData : TrackingData) : TrackingData :=
  let contactId := contactId email in
  let existing := outreachStatus trackingData !! contactId in
  let record :=
    {| lastOutreachDate := now;
       outreachCount :=
         match existing with Some r => outreachCount r | None => 0 end + 1;
       lastEmailSubject := subject email;
       lastEmailTo := to email;
       responded := false;
       responseDate := None;
       responseTime :=
         match existing with Some r => responseTime r | None => None end |} in
  let code :=
    {| tc_contactId := contactId;
       tc_email := to email;
       tc_outreachDate := now;
       signatureChunks :=
         [lit " Larry Velez "; lit " kogi.ai "; lit " 212-380-1014 "; lit " "];
       tc_category := None |} in
  let metrics := responseMetrics trackingData in
  let categories :=
    if truthy (category email) then
      match category email with
      | Some category =>
          let entry :=
            match categoryMetrics metrics !! category with
            | Some m => m
            | None => {| cm_sent := 0; cm_responses := 0; cm_responseRate := Finite 0 |}
            end in
          <[category :=
              {| cm_sent := cm_sent entry + 1;
                 cm_responses := cm_responses entry;
                 cm_responseRate := cm_responseRate entry |}]>
            (categoryMetrics metrics)
      | None => categoryMetrics metrics
      end
    else categoryMetrics metrics in
  let currentWeek := getWeekNumber tz weekNow in
  let bump entry :=
    {| year := year entry; week := week entry; sent := sent entry + 1;
       responses := responses entry; wk_responseRate := wk_responseRate entry |} in
  let weekly :=
    match update_week currentWeek bump (weeklyStats metrics) with
    | Some stats => stats
    | None =>
        weeklyStats metrics ++
          [{| year := wn_year currentWeek; week := wn_week currentWeek;
              sent := 1; responses := 0; wk_responseRate := Finite 0 |}]
    end in
  {| outreachStatus := <[contactId := record]> (outreachStatus trackingData);
     responseMetrics :=
       {| totalSent := totalSent metrics + 1;
          totalResponses := totalResponses metrics;
          responseRate := responseRate metrics;
          responseTimes := responseTimes metrics;
          categoryMetrics := categories;
          weeklyStats := weekly |};
     trackingCodes := obj_set (trackingCodes trackingData) contactId code |}.

Inductive error : Type :=
| CouldNotDecode               (* 'Could not decode contact ID from signature' *)
| NoOutreachRecord (contactId : jsstring).
                               (* 'No outreach record found for contact ID ...' *)

Inductive result (A : Type) : Type :=
| Return (a : A)
| Throw (e : error).
Arguments Return {A} a.
Arguments Throw {A} e.

(** The loop over [Object.entries(trackingData.trackingCodes)]: the first
    code whose chunks decode the signature to the number in its own key
    gives the contact id. *)
Fixpoint find_contact (signature : jsstring) (codes : object TrackingCode)
  : option jsstring :=
  match codes with
  | [] => None
  | (id, codeData) :: rest =>
      let decodedId :=
        Codec.decodeStealthSignature signature (signatureChunks codeData) in
      let expectedId := parseInt (replace (lit "contact_") [] id) in
      if decide (Some decodedId = expectedId)
      then Some (lit "contact_" ++ number_to_string decodedId)
      else find_contact signature rest
  end.

Definition recordResponse (tz : Z -> Z) (signature : jsstring) (responseDate : Z)
    (trackingData : TrackingData) : result (TrackingData * jsstring) :=
  match find_contact signature (trackingCodes trackingData) with
  | None => Throw CouldNotDecode
  | Some contactId =>
      match outreachStatus trackingData !! contactId with
      | None => Throw (NoOutreachRecord contactId)
      | Some outreachData =>
          let outreachDate := lastOutreachDate outreachData in
          let responseTime :=
            divide (responseDate - outreachDate) (1000 * 60 * 60 * 24) in
          let outreachData' :=
            {| lastOutreachDate := lastOutreachDate outreachData;
               outreachCount := outreachCount outreachData;
               lastEmailSubject := lastEmailSubject outreachData;
               lastEmailTo := lastEmailTo outreachData;
               responded := true;
               responseDate := Some responseDate;
               responseTime := Some responseTime |} in
          let metrics := responseMetrics trackingData in
          let totalResponses' := totalResponses metrics + 1 in
          let categories :=
            match obj_get (trackingCodes trackingData) contactId with
            | Some email =>
                if truthy (tc_category email) then
                  match tc_category email with
                  | Some category =>
                      match categoryMetrics metrics !! category with
                      | Some m =>
                          <[category :=
                              {| cm_sent := cm_sent m;
                                 cm_responses := cm_responses m + 1;
                                 cm_responseRate :=
                                   divide (cm_responses m + 1) (cm_sent m) |}]>
                            (categoryMetrics metrics)
                      | None => categoryMetrics metrics
                      end
                  | None => categoryMetrics metrics
                  end
                else categoryMetrics metrics
            | None => categoryMetrics metrics
            end in
          let responseWeek := getWeekNumber tz responseDate in
          let bump entry :=
            {| year := year entry; week := week entry; sent := sent entry;
               responses := responses entry + 1;
               wk_responseRate := divide (responses entry + 1) (sent entry) |} in
          let weekly :=
            match update_week responseWeek bump (weeklyStats metrics) with
            | Some stats => stats
            | None => weeklyStats metrics
            end in
          Return
            ({| outreachStatus :=
                  <[contactId := outreachData']> (outreachStatus trackingData);
                responseMetrics :=
                  {| totalSent := totalSent metrics;
                     totalResponses := totalResponses';
                     responseRate := divide totalResponses' (totalSent metrics);
                     responseTimes :=
                       <[contactId := responseTime]> (responseTimes metrics);
                     categoryMetrics := categories;
                     weeklyStats := weekly |};
                trackingCodes := trackingCodes trackingData |},
             contactId)
      end
  end.

End Tracker.

(** ** ISO-8601 weeks, as the specification words them

    Weeks start on Monday; a week belongs to the year in which its
    Thursday falls; week 1 of a year is the week that contains the first
    Thursday of that year.  Days are day numbers (1970-01-01 is day 0). *)

Module IsoWeek.
Import Dates.

(** Monday is 1, Sunday is 7; day 0 was a Thursday. *)
Definition iso_weekday (day : Z) : Z := (day + 3) mod 7 + 1.

Definition monday_of (day : Z) : Z := day - (iso_weekday day - 1).
Definition thursday_of (day : Z) : Z := monday_of day + 3.

(** The first Thursday on or after 1 January of [y]. *)
Definition first_thursday (y : Z) : Z :=
  DayFromYear y + (4 - iso_weekday (DayFromYear y)) mod 7.

Definition iso_year (day : Z) : Z := YearFromDay (thursday_of day).

Definition iso_week (day : Z) : Z :=
  (monday_of day - monday_of (first_thursday (iso_year day))) / 7 + 1.

End IsoWeek.

(** ** utilities/knowledge_graph.js

    Numbers that take part in the score are real numbers here: the
    rounding of doubles in [+], [*], [/] and [Math.log] is left out (for
    the value as it is computed see [Scoring]).  Counts are integers.
    The store is the tree that [loadFromFiles] builds: every observation
    object belongs to one entity, once. *)

Module Graph.
Import JS.

(** A value of [calculatedScore]: what [Math.round] returns. *)
Inductive score : Type :=
| Rounded (z : Z)
| NotANumber.

(** An observation object.  The fields the scoring code reads or writes
    are named, each absent ([None]) or present; [others] holds the
    remaining fields. *)
Record Observation : Type := {
  type : jsstring;
  emailCount : option Z;
  lastContacted : option Z;
  responseRate : option R;
  meetingCount : option Z;
  manualPriority : option R;
  calculatedScore : option score;
  others : list (jsstring * jsstring)
}.

Record Entity : Type := {
  id : jsstring;
  name : jsstring;
  entityType : jsstring;
  observations : list Observation
}.

Record Relationship : Type := {
  from : jsstring;
  relationType : jsstring;
  to : jsstring
}.

(** [entities] lists [Object.values(this.entities)] in its order. *)
Record KnowledgeGraph : Type := {
  entities : list Entity;
  relationships : list Relationship
}.

Definition is_type (t : jsstring) (obs : Observation) : bool :=
  bool_decide (type obs = t).

Definition findEntitiesByType (entityType' : jsstring) (g : KnowledgeGraph)
  : list Entity :=
  List.filter (fun entity => bool_decide (entityType entity = entityType'))
    (entities g).

Definition _normalizeFrequency (emailCount : Z) : R :=
  let maxEmails := 100 in
  if emailCount <=? 0 then 0%R
  else if emailCount >=? maxEmails then 1%R
  else (ln (IZR emailCount) / ln (IZR maxEmails))%R.

Definition _normalizeRecency (now : Z) (lastContactedDate : option Z) : R :=
  match lastContactedDate with
  | None => 0%R
  | Some lastDate =>
      let daysDiff :=
        Rmax 0 (IZR (now - lastDate) / IZR (1000 * 60 * 60 * 24)) in
      let maxDays := 365%R in
      Rmax 0 (1 - daysDiff / maxDays)
  end.

Definition _normalizeMeetingFrequency (meetingCount : Z) : R :=
  let maxMeetings := 20 in
  if meetingCount <=? 0 then 0%R
  else if meetingCount >=? maxMeetings then 1%R
  else (IZR meetingCount / IZR maxMeetings)%R.

(** [x || 0]. *)
Definition or_zero (x : option Z) : Z :=
  match x with Some z => z | None => 0 end.
Definition or_zeroR (x : option R) : R :=
  match x with Some r => r | None => 0%R end.

(** [scores[factor]]; [None] when the object has no such number. *)
Definition scores (now : Z) (metricsObs importanceObs : Observation)
    (factor : jsstring) : option R :=
  if decide (factor = lit "frequency")
  then Some (_normalizeFrequency (or_zero (emailCount metricsObs)))
  else if decide (factor = lit "recency")
  then Some (_normalizeRecency now (lastContacted metricsObs))
  else if decide (factor = lit "responseRate")
  then Some (or_zeroR (responseRate metricsObs))
  else if decide (factor = lit "meetingFrequency")
  then Some (_normalizeMeetingFrequency (or_zero (meetingCount metricsObs)))
  else if decide (factor = lit "manualPriority")
  then Some (or_zeroR (manualPriority importanceObs) / 10)%R
  else None.

(** The loop [totalScore += scores[factor] * weight]; [None] is NaN. *)
Definition totalScore (now : Z) (weights : list (jsstring * R))
    (metricsObs importanceObs : Observation) : option R :=
  fold_left
    (fun total entry =>
       match total, scores now metricsObs importanceObs (fst entry) with
       | Some t, Some s => Some (t + s * snd entry)%R
       | _, _ => None
       end)
    weights (Some 0%R).

(** [Math.round]: the nearest integer, halves upwards. *)
Definition round (x : R) : Z := Int_part (x + / 2).

Definition contactScore (now : Z) (weights : list (jsstring * R))
    (metricsObs importanceObs : Observation) : score :=
  match totalScore now weights metricsObs importanceObs with
  | Some total => Rounded (round (total * 100))
  | None => NotANumber
  end.

Definition set_calculatedScore (s : score) (obs : Observation) : Observation :=
  {| type := type obs;
     emailCount := emailCount obs;
     lastContacted := lastContacted obs;
     responseRate := responseRate obs;
     meetingCount := meetingCount obs;
     manualPriority := manualPriority obs;
     calculatedScore := Some s;
     others := others obs |}.

(** Assignment to a field of the object that [find] returned: the first
    element that satisfies the test is replaced. *)
Fixpoint update_first {A : Type} (test : A -> bool) (f : A -> A) (l : list A)
  : list A :=
  match l with
  | [] => []
  | x :: rest => if test x then f x :: rest else x :: update_first test f rest
  end.

(** The body of the [forEach] for one contact. *)
Definition scoreContact (now : Z) (weights : list (jsstring * R))
    (contact : Entity) : Entity :=
  let metricsObs :=
    List.find (is_type (lit "communication_metrics")) (observations contact) in
  let importanceObs :=
    List.find (is_type (lit "importance_metrics")) (observations contact) in
  match metricsObs, importanceObs with
  | Some metricsObs, Some importanceObs =>
      {| id := id contact;
         name := name contact;
         entityType := entityType contact;
         observations :=
           update_first (is_type (lit "importance_metrics"))
             (set_calculatedScore
                (contactScore now weights metricsObs importanceObs))
             (observations contact) |}
  | _, _ => contact
  end.

Definition defaultWeights : list (jsstring * R) :=
  [(lit "frequency", 0.25%R); (lit "recency", 0.30%R);
   (lit "responseRate", 0.20%R); (lit "meetingFrequency", 0.15%R);
   (lit "manualPriority", 0.10%R)].

(** [clock i] is what [new Date()] returns while the entity at position
    [i] of the store is scored. *)
Definition calculateImportanceScores (clock : nat -> Z)
    (weights : list (jsstring * R)) (g : KnowledgeGraph) : KnowledgeGraph :=
  {| entities :=
       imap (fun i entity =>
               if bool_decide (entityType entity = lit "Contact")
               then scoreContact (clock i) weights entity
               else entity)
         (entities g);
     relationships := relationships g |}.

(** [...?.calculatedScore || 0] in the comparator of [getTopContacts]. *)
Definition scoreOf (entity : Entity) : Z :=
  match List.find (is_type (lit "importance_metrics")) (observations entity) with
  | Some obs =>
      match calculatedScore obs with
      | Some (Rounded z) => z
      | _ => 0
      end
  | None => 0
  end.

(** [Array.prototype.sort] with a comparator is a stable sort: [a] stays
    before [b] unless [compare a b > 0]. *)
Fixpoint insert_sorted {A : Type} (compare : A -> A -> Z) (a : A) (l : list A)
  : list A :=
  match l with
  | [] => [a]
  | b :: rest =>
      if compare a b >? 0 then b :: insert_sorted compare a rest
      else a :: l
  end.

Definition sort {A : Type} (compare : A -> A -> Z) (l : list A) : list A :=
  fold_right (insert_sorted compare) [] l.

(** [arr.slice(0, n)]: a negative [n] counts from the end. *)
Definition slice0 {A : Type} (arr : list A) (n : Z) : list A :=
  let len := Z.of_nat (List.length arr) in
  let final := if n <? 0 then Z.max (len + n) 0 else Z.min n len in
  firstn (Z.to_nat final) arr.

Definition getTopContacts (n : Z) (g : KnowledgeGraph) : list Entity :=
  let contacts := findEntitiesByType (lit "Contact") g in
  let sortedContacts :=
    sort (fun a b => scoreOf b - scoreOf a) contacts in
  slice0 sortedContacts n.

End Graph.

(** ** utilities/knowledge_graph.js: the entity map and its operations

    [this.entities] is an object used as a map from ids to entities; its
    own keys are kept in enumeration order.  Reading a key that the map
    does not own falls through to [Object.prototype]. *)

Module Store.
Import JS Graph.

Record store : Type := {
  entities : object Entity;
  relationships : list Relationship
}.

(** The state the constructor leaves. *)
Definition empty : store := {| entities := []; relationships := [] |}.

(** [Object.values(this.entities)] with the relationships: the view that
    the queries of [Graph] work on. *)
Definition values (s : store) : KnowledgeGraph :=
  {| Graph.entities := List.map snd (entities s);
     Graph.relationships := relationships s |}.

(** The property names of [Object.prototype].  Reading one of them from
    an object that does not own it gives a function, or the prototype
    itself for [__proto__]: a truthy value without [observations]. *)
Definition prototype_keys : list jsstring :=
  List.map lit
    ["constructor"; "__defineGetter__"; "__defineSetter__"; "hasOwnProperty";
     "__lookupGetter__"; "__lookupSetter__"; "isPrototypeOf";
     "propertyIsEnumerable"; "toString"; "valueOf"; "__proto__";
     "toLocaleString"]%string.

(** What [this.entities[key]] evaluates to. *)
Inductive reading : Type :=
| Own (entity : Entity)
| Inherited
| Undefined.

Definition read (s : store) (key : jsstring) : reading :=
  match obj_get (entities s) key with
  | Some entity => Own entity
  | None =>
      if bool_decide (key ∈ prototype_keys) then Inherited else Undefined
  end.

Inductive error : Type :=
| EntityMustHaveId                       (* 'Entity must have an id property.' *)
| SourceDoesNotExist (id : jsstring)     (* 'Source entity ... does not exist.' *)
| TargetDoesNotExist (id : jsstring)     (* 'Target entity ... does not exist.' *)
| EntityDoesNotExist (id : jsstring)     (* 'Entity ... does not exist.' *)
| TypeError.                 (* [.find] read from a value without [observations] *)

(** How a method ends: it returns, leaving the store [s]; it throws,
    leaving the store [s]; or it assigns to the key [__proto__], which
    replaces the prototype of the map and is not followed further. *)
Inductive outcome : Type :=
| Done (s : store)
| Throw (e : error) (s : store)
| PrototypeReplaced.

(** [this.entities[key] = entity]. *)
Definition assign_entity (s : store) (key : jsstring) (entity : Entity) : store :=
  {| entities := obj_set (entities s) key entity;
     relationships := relationships s |}.

Definition addEntity (entity : Entity) (s : store) : outcome :=
  if negb (truthy (Some (id entity))) then Throw EntityMustHaveId s
  else if bool_decide (id entity = lit "__proto__") then PrototypeReplaced
  else Done (assign_entity s (id entity) entity).

(** [entities.forEach(entity => this.addEntity(entity))]: an exception
    ends the loop where it is. *)
Fixpoint addEntities (entities : list Entity) (s : store) : outcome :=
  match entities with
  | [] => Done s
  | entity :: rest =>
      match addEntity entity s with
      | Done s' => addEntities rest s'
      | other => other
      end
  end.

(** [!this.entities[key]]: entities are objects and inherited values are
    functions or objects, all truthy. *)
Definition missing (s : store) (key : jsstring) : bool :=
  match read s key with
  | Undefined => true
  | _ => false
  end.

Definition addRelationship (fromEntityId relationshipType toEntityId : jsstring)
    (s : store) : outcome :=
  if missing s fromEntityId then Throw (SourceDoesNotExist fromEntityId) s
  else if missing s toEntityId then Throw (TargetDoesNotExist toEntityId) s
  else
    Done {| entities := entities s;
            relationships :=
              relationships s ++
                [{| from := fromEntityId; relationType := relationshipType;
                    to := toEntityId |}] |}.

(** [relationshipType] is a string or [null]. *)
Definition findOutgoingRelationships (fromEntityId : jsstring)
    (relationshipType : option jsstring) (s : store) : list Relationship :=
  List.filter
    (fun rel =>
       if negb (bool_decide (from rel = fromEntityId)) then false
       else if truthy relationshipType
               && negb (bool_decide (Some (relationType rel) = relationshipType))
       then false
       else true)
    (relationships s).

Definition findIncomingRelationships (toEntityId : jsstring)
    (relationshipType : option jsstring) (s : store) : list Relationship :=
  List.filter
    (fun rel =>
       if negb (bool_decide (to rel = toEntityId)) then false
       else if truthy relationshipType
               && negb (bool_decide (Some (relationType rel) = relationshipType))
       then false
       else true)
    (relationships s).

(** The [newData] of [updateEntityObservation]: for each field either
    absent or present with a value. *)
Record Patch : Type := {
  p_type : option jsstring;
  p_emailCount : option Z;
  p_lastContacted : option Z;
  p_responseRate : option R;
  p_meetingCount : option Z;
  p_manualPriority : option R;
  p_calculatedScore : option score;
  p_others : list (jsstring * jsstring)
}.

Definition override {A : Type} (new old : option A) : option A :=
  match new with
  | Some v => Some v
  | None => old
  end.

Definition assign_others (target source : list (jsstring * jsstring))
  : list (jsstring * jsstring) :=
  fold_left (fun o entry => obj_set o (fst entry) (snd entry)) source target.

(** [Object.assign(observation, newData)]. *)
Definition assign (newData : Patch) (observation : Observation) : Observation :=
  {| type := match p_type newData with Some t => t | None => type observation end;
     emailCount := override (p_emailCount newData) (emailCount observation);
     lastContacted := override (p_lastContacted newData) (lastContacted observation);
     responseRate := override (p_responseRate newData) (responseRate observation);
     meetingCount := override (p_meetingCount newData) (meetingCount observation);
     manualPriority := override (p_manualPriority newData) (manualPriority observation);
     calculatedScore :=
       override (p_calculatedScore newData) (calculatedScore observation);
     others := assign_others (others observation) (p_others newData) |}.

(** [{ type: observationType, ...newData }]. *)
Definition spread (observationType : jsstring) (newData : Patch) : Observation :=
  {| type := match p_type newData with Some t => t | None => observationType end;
     emailCount := p_emailCount newData;
     lastContacted := p_lastContacted newData;
     responseRate := p_responseRate newData;
     meetingCount := p_meetingCount newData;
     manualPriority := p_manualPriority newData;
     calculatedScore := p_calculatedScore newData;
     others := assign_others [] (p_others newData) |}.

Definition with_observations (entity : Entity) (obs : list Observation) : Entity :=
  {| id := id entity; name := name entity; entityType := entityType entity;
     observations := obs |}.

Definition updateEntityObservation (entityId observationType : jsstring)
    (newData : Patch) (s : store) : outcome :=
  match read s entityId with
  | Undefined => Throw (EntityDoesNotExist entityId) s
  | Inherited => Throw TypeError s
  | Own entity =>
      match List.find (is_type observationType) (observations entity) with
      | Some _ =>
          Done (assign_entity s entityId
                  (with_observations entity
                     (update_first (is_type observationType) (assign newData)
                        (observations entity))))
      | None =>
          Done (assign_entity s entityId
                  (with_observations entity
                     (observations entity ++ [spread observationType newData])))
      end
  end.

(** [loadFromFiles] after the two files are read and parsed: the array of
    entities becomes the map.  No id is checked here. *)
Fixpoint load_entities (entitiesArray : list Entity) (map : object Entity)
  : option (object Entity) :=
  match entitiesArray with
  | [] => Some map
  | entity :: rest =>
      if bool_decide (id entity = lit "__proto__") then None
      else load_entities rest (obj_set map (id entity) entity)
  end.

Definition loadFromFiles (entitiesArray : list Entity)
    (relationshipsArray : list Relationship) : option store :=
  match load_entities entitiesArray [] with
  | Some map => Some {| entities := map; relationships := relationshipsArray |}
  | None => None
  end.

(** [saveToFiles] up to the two arrays it serializes. *)
Definition saveToFiles (s : store) : list Entity * list Relationship :=
  (List.map snd (entities s), relationships s).

End Store.

(** ** Numbers as the engine has them

    A Number is a binary64 value; [+], [-], [*] and [/] round to nearest,
    ties to even, as the primitive operations on [float] do.  A decimal
    literal denotes the nearest binary64 value, as it does in the
    source. *)

Set Warnings "-inexact-float".

Module Number.
Import PrimFloat SpecFloat FloatOps.
Local Open Scope float_scope.

(** [x || 0] on a number or [undefined]: zero, minus zero and NaN are
    falsy. *)
Definition or_zero (x : option float) : float :=
  match x with
  | Some v => if is_nan v || is_zero v then 0 else v
  | None => 0
  end.

(** [Math.max(a, b)]: NaN if either is NaN; +0 is larger than -0. *)
Definition Math_max (a b : float) : float :=
  if is_nan a || is_nan b then nan
  else if ltb a b then b
  else if ltb b a then a
  else if get_sign a then b else a.

(** An integer below 2^63 in absolute value as a Number. *)
Definition of_Z (z : Z) : float :=
  if (z <? 0)%Z then opp (of_uint63 (Uint63.of_Z (- z)))
  else of_uint63 (Uint63.of_Z z).

(** [floor (x + 1/2)] for [x = m * 2^e], negated when [s], computed on
    integers. *)
Definition round_half_up (s : bool) (m : positive) (e : Z) : Z :=
  let n := if s then Z.neg m else Z.pos m in
  if (0 <=? e)%Z then (n * 2 ^ e)%Z
  else ((2 * n + 2 ^ (- e)) / 2 ^ (1 - e))%Z.

(** [Math.round(x)]: the integer nearest to [x], halves upwards; NaN, the
    infinities and the zeros are returned as they are, and a negative [x]
    not below -0.5 gives -0. *)
Definition Math_round (x : float) : float :=
  match Prim2SF x with
  | S754_finite s m e =>
      if (0 <=? e)%Z then x
      else
        let z := round_half_up s m e in
        if (z =? 0)%Z && s then neg_zero else of_Z z
  | _ => x
  end.

End Number.

(** ** utilities/knowledge_graph.js: the score as it is computed

    [calculateImportanceScores] on Numbers.  Every numeric field of an
    observation is a Number or absent; [lastContacted] is the time value
    that [new Date(...)] gives the stored string (NaN for a string that is
    no date), absent when the field is missing or the empty string.
    [Math.log] is an implementation-approximated function of the engine
    and is a parameter. *)

Module Scoring.
Import JS PrimFloat Number.
Local Open Scope float_scope.

Record Observation : Type := {
  type : jsstring;
  emailCount : option float;
  lastContacted : option float;
  responseRate : option float;
  meetingCount : option float;
  manualPriority : option float;
  calculatedScore : option float;
  others : list (jsstring * jsstring)
}.

Record Entity : Type := {
  id : jsstring;
  name : jsstring;
  entityType : jsstring;
  observations : list Observation
}.

(** [entities] lists [Object.values(this.entities)] in its order. *)
Record KnowledgeGraph : Type := {
  entities : list Entity;
  relationships : list Graph.Relationship
}.

Definition is_type (t : jsstring) (obs : Observation) : bool :=
  bool_decide (type obs = t).

Section Engine.

(** [Math.log] of the engine. *)
Variable Math_log : float -> float.

Definition _normalizeFrequency (emailCount : float) : float :=
  let maxEmails := 100 in
  if leb emailCount 0 then 0
  else if leb maxEmails emailCount then 1
  else Math_log emailCount / Math_log maxEmails.

(** [now] is the time value of [new Date()]. *)
Definition _normalizeRecency (now : float) (lastContactedDate : option float)
  : float :=
  match lastContactedDate with
  | None => 0
  | Some lastDate =>
      let daysDiff := Math_max 0 ((now - lastDate) / (1000 * 60 * 60 * 24)) in
      let maxDays := 365 in
      Math_max 0 (1 - daysDiff / maxDays)
  end.

Definition _normalizeMeetingFrequency (meetingCount : float) : float :=
  let maxMeetings := 20 in
  if leb meetingCount 0 then 0
  else if leb maxMeetings meetingCount then 1
  else meetingCount / maxMeetings.

(** [scores[factor]]; [None] when the object literal has no such
    property: the value read is then [undefined] or an inherited function
    or object. *)
Definition scores (now : float) (metricsObs importanceObs : Observation)
    (factor : jsstring) : option float :=
  if decide (factor = lit "frequency")
  then Some (_normalizeFrequency (or_zero (emailCount metricsObs)))
  else if decide (factor = lit "recency")
  then Some (_normalizeRecency now (lastContacted metricsObs))
  else if decide (factor = lit "responseRate")
  then Some (or_zero (responseRate metricsObs))
  else if decide (factor = lit "meetingFrequency")
  then Some (_normalizeMeetingFrequency (or_zero (meetingCount metricsObs)))
  else if decide (factor = lit "manualPriority")
  then Some (or_zero (manualPriority importanceObs) / 10)
  else None.

(** [scores[factor] * weight]; what is no number multiplies to NaN. *)
Definition times (score : option float) (weight : float) : float :=
  match score with
  | Some s => s * weight
  | None => nan
  end.

(** The loop [totalScore += scores[factor] * weight] over
    [Object.entries(weights)], from 0. *)
Definition totalScore (now : float) (weights : list (jsstring * float))
    (metricsObs importanceObs : Observation) : float :=
  fold_left
    (fun total entry =>
       total + times (scores now metricsObs importanceObs (fst entry)) (snd entry))
    weights 0.

(** [Math.round(totalScore * 100)]. *)
Definition contactScore (now : float) (weights : list (jsstring * float))
    (metricsObs importanceObs : Observation) : float :=
  Math_round (totalScore now weights metricsObs importanceObs * 100).

Definition set_calculatedScore (s : float) (obs : Observation) : Observation :=
  {| type := type obs;
     emailCount := emailCount obs;
     lastContacted := lastContacted obs;
     responseRate := responseRate obs;
     meetingCount := meetingCount obs;
     manualPriority := manualPriority obs;
     calculatedScore := Some s;
     others := others obs |}.

(** The body of the [forEach] for one contact. *)
Definition scoreContact (now : float) (weights : list (jsstring * float))
    (contact : Entity) : Entity :=
  let metricsObs :=
    List.find (is_type (lit "communication_metrics")) (observations contact) in
  let importanceObs :=
    List.find (is_type (lit "importance_metrics")) (observations contact) in
  match metricsObs, importanceObs with
  | Some metricsObs, Some importanceObs =>
      {| id := id contact;
         name := name contact;
         entityType := entityType contact;
         observations :=
           Graph.update_first (is_type (lit "importance_metrics"))
             (set_calculatedScore
                (contactScore now weights metricsObs importanceObs))
             (observations contact) |}
  | _, _ => contact
  end.

(** [clock i] is the time value of [new Date()] while the entity at
    position [i] of the store is scored. *)
Definition calculateImportanceScores (clock : nat -> float)
    (weights : list (jsstring * float)) (g : KnowledgeGraph) : KnowledgeGraph :=
  {| entities :=
       imap (fun i entity =>
               if bool_decide (entityType entity = lit "Contact")
               then scoreContact (clock i) weights entity
               else entity)
         (entities g);
     relationships := relationships g |}.

End Engine.

(** The default of the [weights] parameter, in the order of its keys. *)
Definition defaultWeights : list (jsstring * float) :=
  [(lit "frequency", 0.25); (lit "recency", 0.30);
   (lit "responseRate", 0.20); (lit "meetingFrequency", 0.15);
   (lit "manualPriority", 0.10)].

End Scoring.

(** ** The score, as the specification words it: in exact arithmetic *)

Module ScoreSpec.
Import JS.

(** A weight mapping: one coefficient for each of the five factors. *)
Record Weights : Type := {
  w_frequency : R;
  w_recency : R;
  w_responseRate : R;
  w_meetingFrequency : R;
  w_manualPriority : R
}.

Definition entries (w : Weights) : list (jsstring * R) :=
  [(lit "frequency", w_frequency w); (lit "recency", w_recency w);
   (lit "responseRate", w_responseRate w);
   (lit "meetingFrequency", w_meetingFrequency w);
   (lit "manualPriority", w_manualPriority w)].

(** 0 if emailCount <= 0, 1 if emailCount >= 100, else
    ln(emailCount)/ln(100). *)
Definition frequency (emailCount : Z) : R :=
  if Z_le_dec emailCount 0 then 0%R
  else if Z_le_dec 100 emailCount then 1%R
  else (ln (IZR emailCount) / ln 100)%R.

Definition clamp01 (x : R) : R := Rmax 0 (Rmin 1 x).

(** meetingCount/20 clamped to [0,1]. *)
Definition meetingFrequency (meetingCount : Z) : R :=
  clamp01 (IZR meetingCount / 20).

Definition manualPriority (priority : R) : R := (priority / 10)%R.

(** round(100 * sum of weight_i * factor_i), not clamped. *)
Definition score (w : Weights)
    (frequency' recency' responseRate' meetingFrequency' manualPriority' : R) : Z :=
  Graph.round
    (100 * (w_frequency w * frequency' + w_recency w * recency'
            + w_responseRate w * responseRate'
            + w_meetingFrequency w * meetingFrequency'
            + w_manualPriority w * manualPriority'))%R.

End ScoreSpec.

(** ** The score on Numbers, written out

    The sum is taken from 0 in the order of the keys of the weights, each
    product and each sum rounded as a Number. *)

Module ScoreSpec64.
Import JS PrimFloat Number.
Local Open Scope float_scope.

(** A weight mapping with the five factors as its keys, in the order of
    the default literal. *)
Record Weights : Type := {
  w_frequency : float;
  w_recency : float;
  w_responseRate : float;
  w_meetingFrequency : float;
  w_manualPriority : float
}.

Definition entries (w : Weights) : list (jsstring * float) :=
  [(lit "frequency", w_frequency w); (lit "recency", w_recency w);
   (lit "responseRate", w_responseRate w);
   (lit "meetingFrequency", w_meetingFrequency w);
   (lit "manualPriority", w_manualPriority w)].

(** 0 if emailCount <= 0, 1 if emailCount >= 100, else
    ln(emailCount)/ln(100) with the logarithm of the engine. *)
Definition frequency (ln : float -> float) (emailCount : float) : float :=
  if leb emailCount 0 then 0
  else if leb 100 emailCount then 1
  else ln emailCount / ln 100.

(** 0 if there is no last contact, else max(0, 1 - days/365) with
    days = max(0, (now - last)/86400000). *)
Definition recency (now : float) (last : option float) : float :=
  match last with
  | None => 0
  | Some t => Math_max 0 (1 - Math_max 0 ((now - t) / 86400000) / 365)
  end.

(** 0 if meetingCount <= 0, 1 if meetingCount >= 20, else
    meetingCount/20. *)
Definition meetingFrequency (meetingCount : float) : float :=
  if leb meetingCount 0 then 0
  else if leb 20 meetingCount then 1
  else meetingCount / 20.

Definition manualPriority (priority : float) : float := priority / 10.

(** round(100 * sum), the sum from the left in the order of the keys;
    not clamped. *)
Definition score (w : Weights)
    (frequency' recency' responseRate' meetingFrequency' manualPriority' : float)
  : float :=
  Math_round
    ((0 + frequency' * w_frequency w + recency' * w_recency w
      + responseRate' * w_responseRate w
      + meetingFrequency' * w_meetingFrequency w
      + manualPriority' * w_manualPriority w) * 100).

End ScoreSpec64.

(** ** Sample contacts for the score on Numbers *)

Section ScoringSamples.
Import JS PrimFloat Number Scoring.
Local Open Scope float_scope.

(** Stands for [Math.log] where the email counts are 0 or at least 100
    and it is not called. *)
Definition log_not_called : float -> float := fun _ => nan.

Definition metrics64 (emails rate meetings : float) : Observation :=
  {| type := lit "communication_metrics"; emailCount := Some emails;
     lastContacted := None; responseRate := Some rate;
     meetingCount := Some meetings; manualPriority := None;
     calculatedScore := None; others := [] |}.

Definition importance64 (priority : float) : Observation :=
  {| type := lit "importance_metrics"; emailCount := None;
     lastContacted := None; responseRate := None; meetingCount := None;
     manualPriority := Some priority; calculatedScore := Some 0;
     others := [] |}.

Definition contact64 (metricsObs importanceObs : Observation) : Entity :=
  {| id := lit "contact_1"; name := lit "Sarah Johnson";
     entityType := lit "Contact";
     observations := [metricsObs; importanceObs] |}.

Definition store64 (contact : Entity) : KnowledgeGraph :=
  {| entities := [contact]; relationships := [] |}.

(** Every factor but recency at its maximum. *)
Definition full_contact : Entity :=
  contact64 (metrics64 100 1 20) (importance64 10).

(** No emails, ten meetings, priority 7: the exact sum is 0.145. *)
Definition half_contact : Entity :=
  contact64 (metrics64 0 0 10) (importance64 7).

Definition unit_weights64 : ScoreSpec64.Weights :=
  {| ScoreSpec64.w_frequency := 1; ScoreSpec64.w_recency := 1;
     ScoreSpec64.w_responseRate := 1; ScoreSpec64.w_meetingFrequency := 1;
     ScoreSpec64.w_manualPriority := 1 |}.

(** The default weights with the last two keys in the other order. *)
Definition reordered_weights : list (jsstring * float) :=
  [(lit "frequency", 0.25); (lit "recency", 0.30);
   (lit "responseRate", 0.20); (lit "manualPriority", 0.10);
   (lit "meetingFrequency", 0.15)].

End ScoringSamples.

(** ** Definitions used to state the properties, and sample data *)

Section CodecAux.
Import JS Codec.

(** Value of a most-significant-first digit list, as [decodeStealthSignature]
    folds it. *)
Definition digits_value (ds : list Z) : Z :=
  fold_left (fun idNumber digit => idNumber * 6 + digit) ds 0.

Definition is_digit (d : Z) : Prop := 0 <= d < 6.

(** The signature without the accumulator. *)
Fixpoint signature_body (i : Z) (chunks : list jsstring) (numSeparators : Z)
    (digits : list Z) : jsstring :=
  match chunks with
  | [] => []
  | chunk :: rest =>
      chunk ++ (if i <? numSeparators
                then separator_text (array_get digits i) else [])
            ++ signature_body (i + 1) rest numSeparators digits
  end.

End CodecAux.

Section LedgerSamples.
Import JS Codec Dates Tracker.

Definition utc : Z -> Z := fun _ => 0.

Definition email_1 : Email :=
  {| contactId := lit "contact_1"; subject := lit "Hello";
     to := lit "a@b.com"; category := None |}.

(** 2025-03-03T09:00:00Z and three days later. *)
Definition t_sent : Z := 1740992400000.
Definition t_reply : Z := t_sent + 3 * msPerDay.

Definition signature_1 : jsstring :=
  lit " Larry Velez " ++ [124%N] ++ lit " kogi.ai " ++ [124%N]
    ++ lit " 212-380-1014 " ++ [166%N] ++ lit " ".

Definition after_send : TrackingData :=
  recordOutreach utc t_sent t_sent email_1 emptyTrackingData.

Definition after_reply : TrackingData :=
  match recordResponse utc signature_1 t_reply after_send with
  | Return (trackingData, _) => trackingData
  | Throw _ => after_send
  end.

End LedgerSamples.

Definition record_after_reply : Tracker.OutreachRecord :=
  {| Tracker.lastOutreachDate := t_sent; Tracker.outreachCount := 1;
     Tracker.lastEmailSubject := JS.lit "Hello";
     Tracker.lastEmailTo := JS.lit "a@b.com";
     Tracker.responded := true; Tracker.responseDate := Some t_reply;
     Tracker.responseTime := Some (Tracker.Finite 3) |}.

(** Descending order of a key, and the elements that have one value of the
    key (a stable sort keeps their order). *)
Definition descending {A : Type} (key : A -> Z) : list A -> Prop :=
  StronglySorted (fun a b => key b <= key a).

Definition with_key {A : Type} (key : A -> Z) (k : Z) (l : list A) : list A :=
  List.filter (fun a => key a =? k) l.

Section GraphAux.
Import JS Graph.

Definition importance (s : Z) : Observation :=
  {| type := lit "importance_metrics"; emailCount := None;
     lastContacted := None; responseRate := None; meetingCount := None;
     manualPriority := Some 5%R; calculatedScore := Some (Rounded s);
     others := [] |}.

Definition contact (n : string) (s : Z) : Entity :=
  {| id := lit "contact_" ++ lit n; name := lit "N. N.";
     entityType := lit "Contact"; observations := [importance s] |}.

Definition acme : Entity :=
  {| id := lit "org_1"; name := lit "Acme Corp";
     entityType := lit "Organization"; observations := [importance 99] |}.

(** Contacts 2 and 1 were added in this order and have the same score. *)
Definition tie_store : KnowledgeGraph :=
  {| entities := [contact "2" 50; acme; contact "1" 50; contact "3" 70];
     relationships := [] |}.

(** The order the specification asks for: score descending, and the smaller id
    first among equal scores. *)
Definition ranked_by_score_then_id (l : list Entity) : Prop :=
  StronglySorted
    (fun a b => scoreOf b < scoreOf a
                \/ (scoreOf b = scoreOf a /\ string_lt (id b) (id a) = false))
    l.

(** All fields of an observation but [calculatedScore]. *)
Definition same_but_score (o o' : Observation) : Prop :=
  type o' = type o
  /\ emailCount o' = emailCount o
  /\ lastContacted o' = lastContacted o
  /\ responseRate o' = responseRate o
  /\ meetingCount o' = meetingCount o
  /\ manualPriority o' = manualPriority o
  /\ others o' = others o.



Definition default_weights : ScoreSpec.Weights :=
  {| ScoreSpec.w_frequency := 0.25; ScoreSpec.w_recency := 0.30;
     ScoreSpec.w_responseRate := 0.20; ScoreSpec.w_meetingFrequency := 0.15;
     ScoreSpec.w_manualPriority := 0.10 |}.







End GraphAux.

(** ** Further definitions used to state properties *)

Section CodecShape.
Import JS Codec.

(** The separator that stands for a digit. *)
Definition separator (d : Z) : jsstring := nth (Z.to_nat d) SEPARATORS [].

(** Chunks with one separator after each chunk but the last. *)
Fixpoint interleave (chunks seps : list jsstring) : jsstring :=
  match chunks with
  | [] => []
  | chunk :: rest =>
      match seps with
      | sep :: seps' => chunk ++ sep ++ interleave rest seps'
      | [] => chunk ++ interleave rest []
      end
  end.

(** The number in a contact id, as [recordResponse], [robustSignatureDecode]
    and [generateTrackingCodes] read it:
    [parseInt(contactId.replace('contact_', ''), 10)]. *)
Definition contact_number (contactId : jsstring) : option Z :=
  parseInt (replace (lit "contact_") [] contactId).

(** The contact id that [recordResponse] builds for a decoded number:
    [`contact_${decodedId}`]. *)
Definition contact_id (n : Z) : jsstring := lit "contact_" ++ number_to_string n.

End CodecShape.

Section RobustAux.
Import JS Codec RobustDecode.

(** The ids that three slots can hold. *)
Definition ids216 : list Z := List.map Z.of_nat (seq 0 216).

(** What each of the six variations decodes from the signature that
    [variation] gives to [id]. *)
Definition readings (variation : list jsstring) (id : Z) : list Z :=
  match generateStealthSignature id variation with
  | Some sig => List.map (decodeStealthSignature sig) signatureVariations
  | None => []
  end.

(** The [n]-th of the six listed variations, counted from 0. *)
Definition variation (n : nat) : list jsstring := nth n signatureVariations [].

(** Sample contact data. *)
Definition one_contact : JS.object nat := [(JS.lit "contact_1", 7%nat)].

Definition two_contacts : JS.object nat :=
  [(JS.lit "contact_29", 29%nat); (JS.lit "contact_36", 36%nat)].

End RobustAux.

Section LedgerAux.
Import JS Codec Dates Tracker.

(** The tracking data that [recordOutreach] and [recordResponse] produce
    from the empty data of [initializeTrackingSystem]. *)
Inductive reachable (tz : Z -> Z) : TrackingData -> Prop :=
| reach_empty : reachable tz emptyTrackingData
| reach_outreach (td : TrackingData) (now weekNow : Z) (email : Email) :
    reachable tz td -> reachable tz (recordOutreach tz now weekNow email td)
| reach_response (td td' : TrackingData) (signature : jsstring) (date : Z)
    (cid : jsstring) :
    reachable tz td ->
    recordResponse tz signature date td = Return (td', cid) ->
    reachable tz td'.

(** The signature of contact 2 under the default chunks. *)
Definition signature_2 : jsstring :=
  lit " Larry Velez " ++ [124%N] ++ lit " kogi.ai " ++ [124%N]
    ++ lit " 212-380-1014 " ++ [448%N] ++ lit " ".

Definition weekly_sent (stats : list WeeklyEntry) : Z :=
  fold_right (fun entry acc => sent entry + acc) 0 stats.

Definition weekly_responses (stats : list WeeklyEntry) : Z :=
  fold_right (fun entry acc => responses entry + acc) 0 stats.

Definition week_keys (stats : list WeeklyEntry) : list (Z * Z) :=
  List.map (fun entry => (year entry, week entry)) stats.

(** The sum of [outreachCount] over all outreach records. *)
Definition count_sum (records : gmap jsstring OutreachRecord) : Z :=
  map_fold (fun _ record acc => outreachCount record + acc) 0 records.

End LedgerAux.

Section StoreAux.
Import JS Graph Store.

(** The stores that the methods of the class produce from the empty store
    of the constructor. *)
Inductive built : store -> Prop :=
| built_empty : built empty
| built_addEntity (s s' : store) (entity : Entity) :
    built s -> addEntity entity s = Done s' -> built s'
| built_addRelationship (s s' : store) (a t b : jsstring) :
    built s -> addRelationship a t b s = Done s' -> built s'
| built_updateEntityObservation (s s' : store) (entityId t : jsstring)
    (newData : Patch) :
    built s -> updateEntityObservation entityId t newData s = Done s' ->
    built s'.

Definition keys {A : Type} (o : object A) : list jsstring := List.map fst o.

(** Whether a key is an array index, which the enumeration moves to the
    front. *)
Definition is_array_index (key : jsstring) : bool :=
  match array_index key with
  | Some _ => true
  | None => false
  end.

(** The observations after [updateEntityObservation]. *)
Definition updated (t : jsstring) (newData : Patch) (l : list Observation)
  : list Observation :=
  match List.find (is_type t) l with
  | Some _ => update_first (is_type t) (assign newData) l
  | None => l ++ [spread t newData]
  end.

Definition entry (entity : Entity) : jsstring * Entity := (id entity, entity).

(** Sample entities and stores. *)
Definition ada : Entity :=
  {| id := lit "contact_1"; name := lit "Ada"; entityType := lit "Contact";
     observations := [] |}.

Definition bob : Entity :=
  {| id := lit "contact_2"; name := lit "Bob"; entityType := lit "Contact";
     observations := [] |}.

Definition ada_renamed : Entity :=
  {| id := lit "contact_1"; name := lit "Ada L."; entityType := lit "Contact";
     observations := [] |}.

(** Two entities whose ids are array indices. *)
Definition entity_2 : Entity :=
  {| id := lit "2"; name := lit "Two"; entityType := lit "Contact";
     observations := [] |}.

Definition entity_1 : Entity :=
  {| id := lit "1"; name := lit "One"; entityType := lit "Contact";
     observations := [] |}.

Definition nameless : Entity :=
  {| id := []; name := lit "?"; entityType := lit "Contact";
     observations := [] |}.

(** A patch that sets two fields and no type. *)
Definition replied_patch : Patch :=
  {| p_type := None; p_emailCount := Some 12; p_lastContacted := None;
     p_responseRate := None; p_meetingCount := None; p_manualPriority := None;
     p_calculatedScore := None;
     p_others := [(lit "responseReceived", lit "true")] |}.

Definition knows_self : Relationship :=
  {| from := lit "contact_1"; relationType := lit "knows";
     to := lit "contact_1" |}.

Definition ada_store : store :=
  {| entities := [(lit "contact_1", ada)]; relationships := [knows_self] |}.

End StoreAux.

Section ScoreAux.
Import JS Graph.

(** The five names that [scores] has. *)
Definition factor_names : list jsstring := List.map fst defaultWeights.

(** Weights with a name that [scores] does not have. *)
Definition misspelt_weights : list (jsstring * R) :=
  [(lit "frequency", 0.5%R); (lit "recencey", 0.5%R)].

End ScoreAux.

(** ** Codec: the digits, the signature text and its decoding *)

Section CodecFacts.
Import JS Codec.

Example digits_42 : intToBaseNArray 42 6 3 = Some [1; 1; 0].
Proof. reflexivity. Qed.

Lemma fold_digits_app (xs ys : list Z) (a : Z) :
  fold_left (fun idNumber digit => idNumber * 6 + digit) (xs ++ ys) a =
  fold_left (fun idNumber digit => idNumber * 6 + digit) ys
    (fold_left (fun idNumber digit => idNumber * 6 + digit) xs a).
Proof. apply fold_left_app. Qed.

Lemma digits_value_snoc (ds : list Z) (d : Z) :
  digits_value (ds ++ [d]) = digits_value ds * 6 + d.
Proof. unfold digits_value. rewrite fold_digits_app. reflexivity. Qed.

(** The first loop terminates within [Z.to_nat t] iterations and leaves the
    base-6 digits of [t] in front of what was there. *)
Lemma digits_loop_spec (fuel : nat) :
  forall (t : Z) (ds : list Z),
    0 <= t -> (Z.to_nat t <= fuel)%nat ->
    exists hi,
      digits_loop fuel 6 t ds = Some (hi ++ ds)
      /\ Forall is_digit hi
      /\ digits_value hi = t
      /\ (forall n : nat, t < 6 ^ Z.of_nat n -> (List.length hi <= n)%nat)
      /\ (forall n : nat, 6 ^ Z.of_nat n <= t -> (n < List.length hi)%nat).
Proof.
  induction fuel as [|fuel IH]; intros t ds Ht Hfuel.
  - assert (t = 0) by lia. subst t. exists []. simpl.
    repeat split; auto; intros n Hn;
      pose proof (Z.pow_pos_nonneg 6 (Z.of_nat n) ltac:(lia) ltac:(lia));
      simpl; lia.
  - destruct (Z.eq_dec t 0) as [->|Hnz].
    + exists []. simpl.
      repeat split; auto; intros n Hn;
        pose proof (Z.pow_pos_nonneg 6 (Z.of_nat n) ltac:(lia) ltac:(lia));
        simpl; lia.
    + assert (Hpos : 0 < t) by lia.
      pose proof (Z.div_mod t 6 ltac:(lia)) as Hdm.
      pose proof (Z.mod_pos_bound t 6 ltac:(lia)) as Hm.
      assert (Hq : 0 <= t / 6) by (apply Z.div_pos; lia).
      assert (Hlt : t / 6 < t) by (apply Z.div_lt; lia).
      destruct (IH (t / 6) (t mod 6 :: ds) Hq ltac:(lia))
        as (hi & Hrun & Hdig & Hval & Hlen & Hmin).
      exists (hi ++ [t mod 6]).
      split; [|split; [|split; [|split]]].
      * simpl. destruct (t >? 0) eqn:E; [|lia].
        rewrite (Z.rem_mod_nonneg t 6) by lia.
        rewrite Hrun, <- app_assoc. reflexivity.
      * apply Forall_app. split; [exact Hdig|].
        constructor; [exact Hm|constructor].
      * rewrite digits_value_snoc, Hval. lia.
      * intros n Hn. rewrite length_app. simpl.
        destruct n as [|n]; [simpl in Hn; lia|].
        assert (t / 6 < 6 ^ Z.of_nat n).
        { apply Z.div_lt_upper_bound; [lia|].
          rewrite Nat2Z.inj_succ, Z.pow_succ_r in Hn by lia. lia. }
        specialize (Hlen n ltac:(assumption)). lia.
      * intros n Hn. rewrite length_app. simpl.
        destruct n as [|n]; [lia|].
        assert (6 ^ Z.of_nat n <= t / 6).
        { apply Z.div_le_lower_bound; [lia|].
          rewrite Nat2Z.inj_succ, Z.pow_succ_r in Hn by lia. lia. }
        specialize (Hmin n ltac:(assumption)). lia.
Qed.

Lemma pad_loop_repeat (m : nat) :
  forall ds, pad_loop m ds = repeat 0 m ++ ds.
Proof.
  induction m as [|m IH]; intros ds; simpl; [reflexivity|].
  rewrite IH. change (0 :: ds) with ([0] ++ ds).
  rewrite app_assoc. f_equal.
  change (0 :: repeat 0 m) with (repeat 0 (S m)).
  rewrite <- repeat_cons. reflexivity.
Qed.

Lemma digits_value_zeros (m : nat) (ds : list Z) :
  digits_value (repeat 0 m ++ ds) = digits_value ds.
Proof.
  unfold digits_value. rewrite fold_digits_app.
  replace (fold_left _ (repeat 0 m) 0) with 0; [reflexivity|].
  induction m as [|m IH]; simpl; auto.
Qed.

(** [intToBaseNArray] always returns for base 6 and a non-negative number;
    the digits carry the number, and there are at least [length] of
    them. *)
Lemma intToBaseNArray_spec (number : Z) (len : nat) :
  0 <= number ->
  exists digits,
    intToBaseNArray number 6 (Z.of_nat len) = Some digits
    /\ Forall is_digit digits
    /\ digits_value digits = number
    /\ (number < 6 ^ Z.of_nat len -> List.length digits = len)
    /\ (6 ^ Z.of_nat len <= number ->
        (len < List.length digits)%nat /\
        forall n : nat, number < 6 ^ Z.of_nat n -> (List.length digits <= n)%nat).
Proof.
  intros Hn.
  destruct (digits_loop_spec (Z.to_nat number) number [] Hn (le_n _))
    as (hi & Hrun & Hdig & Hval & Hlen & Hmin).
  rewrite app_nil_r in Hrun.
  unfold intToBaseNArray. rewrite Hrun.
  eexists. split; [reflexivity|].
  rewrite pad_loop_repeat.
  split; [|split; [|split]].
  - apply Forall_app. split; [|exact Hdig].
    apply List.Forall_forall. intros x Hx. apply repeat_spec in Hx. subst x.
    unfold is_digit; lia.
  - rewrite digits_value_zeros. exact Hval.
  - intros Hlt. specialize (Hlen len Hlt).
    rewrite length_app, repeat_length. lia.
  - intros Hge. specialize (Hmin len Hge).
    replace (Z.to_nat (Z.of_nat len - Z.of_nat (List.length hi))) with O by lia.
    simpl. split; [exact Hmin|exact Hlen].
Qed.

(** The text appended for a digit is one code unit, and [indexOf] finds the
    digit back: the six separators are pairwise distinct. *)
Lemma separator_digit (d : Z) :
  is_digit d ->
  exists u, separator_text (Some d) = [u] /\ indexOf SEPARATORS [u] = d.
Proof.
  unfold is_digit. intros Hd.
  assert (d = 0 \/ d = 1 \/ d = 2 \/ d = 3 \/ d = 4 \/ d = 5) as Hc by lia.
  destruct Hc as [->|[->|[->|[->|[->| ->]]]]];
    eexists; (split; [reflexivity|vm_compute; reflexivity]).
Qed.

Lemma signature_loop_body (chunks : list jsstring) :
  forall i k digits acc,
    signature_loop i chunks k digits acc = acc ++ signature_body i chunks k digits.
Proof.
  induction chunks as [|c rest IH]; intros i k digits acc; simpl.
  - rewrite app_nil_r. reflexivity.
  - rewrite IH. destruct (i <? k); rewrite <- ?app_assoc; reflexivity.
Qed.

Lemma charAt_middle (pre post : jsstring) (u : N) :
  charAt (pre ++ u :: post) (str_length pre) = [u].
Proof.
  unfold charAt, array_get, str_length.
  destruct (Z.ltb_spec (Z.of_nat (List.length pre)) 0) as [E|E]; [lia|].
  rewrite Nat2Z.id, nth_error_app2 by lia.
  rewrite Nat.sub_diag. reflexivity.
Qed.

Lemma array_get_nat {A : Type} (l : list A) (n : nat) :
  array_get l (Z.of_nat n) = nth_error l n.
Proof.
  unfold array_get. destruct (Z.ltb_spec (Z.of_nat n) 0) as [E|E]; [lia|].
  rewrite Nat2Z.id. reflexivity.
Qed.

Lemma skipn_nth_error {A : Type} (l : list A) :
  forall (i : nat) (d : A),
    nth_error l i = Some d -> skipn i l = d :: skipn (S i) l.
Proof.
  induction l as [|x xs IH]; intros [|i] d H; simpl in *; try discriminate.
  - injection H as ->. reflexivity.
  - apply IH. exact H.
Qed.

(** Reading the signature at the computed offsets gives back the digits
    that were written, one per separator slot. *)
Lemma decode_positions (chunks : list jsstring) :
  forall (i : nat) (k : nat) (digits : list Z) (pre : jsstring),
    (i + List.length chunks = S k)%nat ->
    (k <= List.length digits)%nat ->
    Forall is_digit digits ->
    List.map (indexOf SEPARATORS)
      (List.map (charAt (pre ++ signature_body (Z.of_nat i) chunks (Z.of_nat k) digits))
         (separatorIndices chunks (str_length pre)))
    = firstn (k - i) (skipn i digits).
Proof.
  induction chunks as [|c rest IH]; intros i k digits pre Hlen Hk Hdig.
  - simpl in *. replace (k - i)%nat with O by lia. reflexivity.
  - destruct rest as [|c' rest'].
    + simpl in *. replace (k - i)%nat with O by lia. reflexivity.
    + assert (Hi : (i < k)%nat) by (simpl in Hlen; lia).
      destruct (nth_error digits i) as [d|] eqn:Hnth;
        [|apply nth_error_None in Hnth; lia].
      assert (Hd : is_digit d).
      { eapply List.Forall_forall; [exact Hdig|]. eapply nth_error_In; eauto. }
      destruct (separator_digit d Hd) as (u & Htext & Hidx).
      change (separatorIndices (c :: c' :: rest') (str_length pre))
        with ((str_length pre + str_length c)
              :: separatorIndices (c' :: rest') (str_length pre + str_length c + 1)).
      change (signature_body (Z.of_nat i) (c :: c' :: rest') (Z.of_nat k) digits)
        with (c ++ (if Z.of_nat i <? Z.of_nat k
                    then separator_text (array_get digits (Z.of_nat i)) else [])
                ++ signature_body (Z.of_nat i + 1) (c' :: rest') (Z.of_nat k) digits).
      destruct (Z.of_nat i <? Z.of_nat k) eqn:E; [|lia].
      rewrite array_get_nat, Hnth, Htext.
      replace (Z.of_nat i + 1) with (Z.of_nat (S i)) by lia.
      replace (str_length pre + str_length c) with (str_length (pre ++ c))
        by (unfold str_length; rewrite length_app; lia).
      replace (str_length (pre ++ c) + 1) with (str_length ((pre ++ c) ++ [u]))
        by (unfold str_length; rewrite !length_app; simpl; lia).
      set (tail := signature_body (Z.of_nat (S i)) (c' :: rest') (Z.of_nat k) digits).
      set (idxs := separatorIndices (c' :: rest') (str_length ((pre ++ c) ++ [u]))).
      replace (pre ++ c ++ [u] ++ tail) with ((pre ++ c) ++ u :: tail)
        by (rewrite <- !app_assoc; reflexivity).
      rewrite !List.map_cons, charAt_middle, Hidx.
      replace ((pre ++ c) ++ u :: tail) with (((pre ++ c) ++ [u]) ++ tail)
        by (rewrite <- !app_assoc; reflexivity).
      subst tail idxs.
      rewrite (IH (S i) k digits ((pre ++ c) ++ [u])); auto;
        [|simpl in *; lia].
      replace (k - i)%nat with (S (k - S i)) by lia.
      rewrite (skipn_nth_error digits i d Hnth). reflexivity.
Qed.

(** What [decodeStealthSignature] returns on a generated signature: the
    value of the first [k] digits that [generateStealthSignature] used. *)
Lemma decode_generated (k : nat) (chunks : list jsstring) (digits : list Z) :
  List.length chunks = S k ->
  (k <= List.length digits)%nat ->
  Forall is_digit digits ->
  decodeStealthSignature
    (signature_loop 0 chunks (Z.of_nat k) digits []) chunks
  = digits_value (firstn k digits).
Proof.
  intros Hlen Hk Hdig.
  unfold decodeStealthSignature.
  rewrite signature_loop_body.
  pose proof (decode_positions chunks 0 k digits [] ltac:(simpl; lia) Hk Hdig) as H.
  change (str_length []) with 0 in H. change (Z.of_nat 0) with 0 in H.
  rewrite H. rewrite Nat.sub_0_r. reflexivity.
Qed.

Lemma digits_value_app (xs ys : list Z) :
  digits_value (xs ++ ys) =
  digits_value xs * 6 ^ Z.of_nat (List.length ys) + digits_value ys.
Proof.
  induction ys as [|y ys IH] using rev_ind.
  - rewrite app_nil_r. simpl. unfold digits_value at 3. simpl. lia.
  - rewrite app_assoc, !digits_value_snoc, IH, length_app.
    simpl List.length. rewrite Nat2Z.inj_add, Z.pow_add_r by lia.
    change (Z.of_nat 1) with 1. rewrite Z.pow_1_r. lia.
Qed.

Lemma digits_value_nonneg (ds : list Z) :
  Forall is_digit ds -> 0 <= digits_value ds.
Proof.
  induction ds as [|d ds IH] using rev_ind; intros H.
  - unfold digits_value. simpl. lia.
  - apply Forall_app in H. destruct H as [Hds Hd].
    inversion Hd as [|? ? Hd' _]; subst. unfold is_digit in Hd'.
    rewrite digits_value_snoc. specialize (IH Hds). lia.
Qed.

(** Beyond the capacity of the slots the encoder still returns a
    signature: it keeps the [k] leading digits and leaves the others out,
    so the signature decodes to a smaller id. *)
Lemma generate_beyond_capacity (k : nat) (chunks : list jsstring) (id : Z) :
  List.length chunks = S k ->
  6 ^ Z.of_nat k <= id ->
  exists sig,
    generateStealthSignature id chunks = Some sig
    /\ 0 <= decodeStealthSignature sig chunks < id.
Proof.
  intros Hlen Hid.
  assert (Hpos : 0 < id).
  { pose proof (Z.pow_pos_nonneg 6 (Z.of_nat k) ltac:(lia) ltac:(lia)). lia. }
  destruct (intToBaseNArray_spec id k ltac:(lia))
    as (digits & Hrun & Hdig & Hval & _ & Hlong).
  destruct (Hlong Hid) as [Hk _].
  unfold generateStealthSignature. rewrite Hlen.
  replace (Z.of_nat (S k) - 1) with (Z.of_nat k) by lia.
  change (Z.of_nat (List.length SEPARATORS)) with 6.
  rewrite Hrun. eexists. split; [reflexivity|].
  rewrite decode_generated by (auto; lia).
  rewrite <- (firstn_skipn k digits) in Hval, Hdig.
  apply Forall_app in Hdig. destruct Hdig as [Hhi Hlo].
  rewrite digits_value_app in Hval.
  pose proof (digits_value_nonneg _ Hhi) as Hhi0.
  pose proof (digits_value_nonneg _ Hlo) as Hlo0.
  assert (Hrest : (0 < List.length (skipn k digits))%nat)
    by (rewrite length_skipn; lia).
  assert (Hpow : 6 <= 6 ^ Z.of_nat (List.length (skipn k digits))).
  { replace (Z.of_nat (List.length (skipn k digits)))
      with (Z.succ (Z.of_nat (List.length (skipn k digits) - 1))) by lia.
    rewrite Z.pow_succ_r by lia.
    pose proof (Z.pow_pos_nonneg 6
      (Z.of_nat (List.length (skipn k digits) - 1)) ltac:(lia) ltac:(lia)).
    lia. }
  split; [exact Hhi0|]. nia.
Qed.

(** Within the capacity of the slots, whatever their number, decoding
    gives the id back. *)
Lemma roundtrip_any_slots (k : nat) (chunks : list jsstring) (id : Z) :
  List.length chunks = S k ->
  0 <= id < 6 ^ Z.of_nat k ->
  exists sig,
    generateStealthSignature id chunks = Some sig
    /\ decodeStealthSignature sig chunks = id.
Proof.
  intros Hlen [Hid0 Hid].
  destruct (intToBaseNArray_spec id k Hid0)
    as (digits & Hrun & Hdig & Hval & Hexact & _).
  specialize (Hexact Hid).
  unfold generateStealthSignature. rewrite Hlen.
  replace (Z.of_nat (S k) - 1) with (Z.of_nat k) by lia.
  change (Z.of_nat (List.length SEPARATORS)) with 6.
  rewrite Hrun. eexists. split; [reflexivity|].
  rewrite decode_generated by (auto; lia).
  rewrite <- Hexact, firstn_all. exact Hval.
Qed.

End CodecFacts.

(** ** Codec: round trip, overflow and foreign separators *)

(** C1. Round trip: with k in 1..4 separator slots, k+1 literal chunks and
    an id in [0, 6^k), the encoder returns a signature and decoding it with
    the same chunks gives the id back. *)
Theorem codec_roundtrip (k : nat) (chunks : list JS.jsstring) (id : Z) :
  (1 <= k <= 4)%nat ->
  List.length chunks = S k ->
  0 <= id < 6 ^ Z.of_nat k ->
  exists sig,
    Codec.generateStealthSignature id chunks = Some sig
    /\ Codec.decodeStealthSignature sig chunks = id.
Proof.
  intros _ Hlen Hid. apply (roundtrip_any_slots k); assumption.
Qed.

Lemma codec_roundtrip_witness :
  exists sig,
    Codec.generateStealthSignature 42 Codec.defaultChunks = Some sig
    /\ Codec.decodeStealthSignature sig Codec.defaultChunks = 42.
Proof.
  apply (codec_roundtrip 3 Codec.defaultChunks 42).
  - lia.
  - reflexivity.
  - simpl. lia.
Defined.

(** C2. Id 216 does not fit the three slots of the default chunks
    (6^3 = 216), yet the encoder returns a signature instead of failing: it
    is the signature of id 36, and it decodes to 36. *)
Theorem encode_overflow_216 :
  Codec.generateStealthSignature 216 Codec.defaultChunks
    = Codec.generateStealthSignature 36 Codec.defaultChunks
  /\ exists sig,
       Codec.generateStealthSignature 216 Codec.defaultChunks = Some sig
       /\ Codec.decodeStealthSignature sig Codec.defaultChunks = 36.
Proof.
  split; [vm_compute; reflexivity|].
  eexists. split; [vm_compute; reflexivity|vm_compute; reflexivity].
Qed.

(** C6. A signature whose second separator was replaced by the letter X
    (not one of the six separators) is decoded to the integer 30 instead of
    being refused; an empty signature, where every offset is out of bounds,
    is decoded to -43. *)
Theorem decode_foreign_separator :
  Codec.decodeStealthSignature
    (JS.lit " Larry Velez " ++ [166%N] ++ JS.lit " kogi.ai " ++ JS.lit "X"
       ++ JS.lit " 212-380-1014 " ++ [124%N] ++ JS.lit " ")
    Codec.defaultChunks = 30
  /\ Codec.decodeStealthSignature [] Codec.defaultChunks = -43.
Proof. split; vm_compute; reflexivity. Qed.

(** ** Dates: the calendar functions are inverse to each other *)

Section DateFacts.
Import Dates.

Example epoch_is_1970 : (YearFromTime 0, MonthFromTime 0, DateFromTime 0) = (1970, 0, 1).
Proof. reflexivity. Qed.

Example utc_2024_12_30 : DateUTC 2024 11 30 = 1735516800000.
Proof. reflexivity. Qed.

Example back_2024_12_30 :
  (YearFromTime 1735516800000, MonthFromTime 1735516800000,
   DateFromTime 1735516800000, WeekDay 1735516800000) = (2024, 11, 30, 1).
Proof. vm_compute. reflexivity. Qed.

Local Ltac div_lia := Z.to_euclidean_division_equations; lia.

Lemma DayFromYear_succ (y : Z) :
  DayFromYear (y + 1) = DayFromYear y + DaysInYear y.
Proof.
  unfold DayFromYear, DaysInYear.
  destruct (Z.eqb_spec (y mod 4) 0); simpl;
    [destruct (Z.eqb_spec (y mod 100) 0); simpl;
      [destruct (Z.eqb_spec (y mod 400) 0); simpl|]|];
    div_lia.
Qed.

Lemma YearFromDay_bounds (d : Z) :
  DayFromYear (YearFromDay d) <= d < DayFromYear (YearFromDay d + 1).
Proof.
  unfold YearFromDay.
  set (y := 1970 + 400 * d / 146097).
  destruct (Z.ltb_spec d (DayFromYear y)) as [Hlo|Hlo].
  - replace (y - 1 + 1) with y by lia.
    split; [|exact Hlo].
    subst y. unfold DayFromYear in *. div_lia.
  - destruct (Z.leb_spec (DayFromYear (y + 1)) d) as [Hhi|Hhi].
    + split; [exact Hhi|].
      subst y. unfold DayFromYear in *. div_lia.
    + split; [exact Hlo|exact Hhi].
Qed.

Lemma DaysInYear_cases (y : Z) : DaysInYear y = 366 \/ DaysInYear y = 365.
Proof.
  unfold DaysInYear.
  destruct (y mod 4 =? 0), (y mod 100 =? 0), (y mod 400 =? 0); simpl; auto.
Qed.

(** [YearFromDay] is the largest year that starts on or before the day. *)
Lemma DayFromYear_le_succ (y : Z) : DayFromYear y < DayFromYear (y + 1).
Proof.
  rewrite DayFromYear_succ. destruct (DaysInYear_cases y); lia.
Qed.

Lemma DayFromYear_mono (y1 y2 : Z) : y1 <= y2 -> DayFromYear y1 <= DayFromYear y2.
Proof. unfold DayFromYear. intros H. div_lia. Qed.

Lemma YearFromDay_unique (d y : Z) :
  DayFromYear y <= d < DayFromYear (y + 1) -> YearFromDay d = y.
Proof.
  intros [Hlo Hhi]. pose proof (YearFromDay_bounds d) as [Hlo' Hhi'].
  destruct (Z.lt_trichotomy (YearFromDay d) y) as [Hlt|[Heq|Hgt]]; [|exact Heq|].
  - pose proof (DayFromYear_mono (YearFromDay d + 1) y ltac:(lia)). lia.
  - pose proof (DayFromYear_mono (y + 1) (YearFromDay d) ltac:(lia)). lia.
Qed.

Lemma YearFromDay_lower (d y : Z) : DayFromYear y <= d -> y <= YearFromDay d.
Proof.
  intros H. pose proof (YearFromDay_bounds d) as [_ Hhi].
  destruct (Z.le_gt_cases y (YearFromDay d)) as [Hle|Hgt]; [exact Hle|].
  pose proof (DayFromYear_mono (YearFromDay d + 1) y ltac:(lia)). lia.
Qed.

Lemma Day_of_midnight (day : Z) : Day (MakeDate day 0) = day.
Proof.
  unfold Day, MakeDate, msPerDay. rewrite Z.add_0_r.
  apply Z.div_mul. lia.
Qed.

Lemma TimeWithinDay_of_midnight (day : Z) : TimeWithinDay (MakeDate day 0) = 0.
Proof.
  unfold TimeWithinDay, MakeDate, msPerDay. rewrite Z.add_0_r.
  apply Z.mod_mul. lia.
Qed.

(** Year, month and date of a time value name its day again, and moving
    the date by [k] moves the day by [k]. *)
Lemma MakeDay_of_fields (t k : Z) :
  MakeDay (YearFromTime t) (MonthFromTime t) (DateFromTime t + k) = Day t + k.
Proof.
  pose proof (YearFromDay_bounds (Day t)) as [Hlo Hhi].
  rewrite DayFromYear_succ in Hhi.
  unfold DateFromTime.
  remember (MonthFromTime t) as m eqn:Hm.
  unfold MonthFromTime in Hm.
  unfold DayWithinYear, InLeapYear, YearFromTime in *.
  set (y := YearFromDay (Day t)) in *.
  pose proof (DaysInYear_cases y) as Hleap.
  unfold MakeDay.
  set (dwy := Day t - DayFromYear y) in *.
  repeat match type of Hm with
         | context [if ?a <? ?b then _ else _] => destruct (Z.ltb_spec a b)
         end;
    subst m;
    match goal with
    | |- context [DayFromYear (y + ?c / 12)] =>
        replace (c / 12) with 0 by reflexivity;
        replace (c mod 12) with c by reflexivity
    end;
    replace (y + 0) with y by lia;
    cbv beta iota delta [DayOfMonthStart];
    destruct Hleap as [Hleap|Hleap]; rewrite Hleap in *;
    match goal with
    | |- context [if ?a =? ?b then _ else _] =>
        replace (a =? b) with true by reflexivity
    | |- context [if ?a =? ?b then _ else _] =>
        replace (a =? b) with false by reflexivity
    | _ => idtac
    end;
    repeat match goal with
    | H : context [if ?a =? ?b then _ else _] |- _ =>
        first [ replace (a =? b) with true in H by reflexivity
              | replace (a =? b) with false in H by reflexivity ]
    end; lia.
Qed.

Lemma DateUTC_full_year (year month date : Z) :
  100 <= year -> DateUTC year month date = MakeDate (MakeDay year month date) 0.
Proof.
  intros H. unfold DateUTC.
  destruct (Z.leb_spec 0 year); destruct (Z.leb_spec year 99); simpl; auto; lia.
Qed.

End DateFacts.

(** ** Outreach ledger: scenarios *)

Section TrackerScenarios.
Import JS Codec Dates Tracker.

Example signature_1_generated :
  generateStealthSignature 1 defaultChunks = Some signature_1.
Proof. vm_compute. reflexivity. Qed.

Example parseInt_examples :
  (parseInt (lit "42"), parseInt (lit "  -7abc"), parseInt (lit "x7"),
   parseInt (replace (lit "contact_") [] (lit "contact_15")))
  = (Some 42, Some (-7), None, Some 15).
Proof. vm_compute. reflexivity. Qed.

(** Keys "b", "2", "a", "1" set in this order are enumerated as "1", "2",
    "b", "a"; setting "b" again keeps its place. *)
Example object_key_order :
  List.map fst
    (obj_set (obj_set (obj_set (obj_set (obj_set [] (lit "b") 0) (lit "2") 0)
                         (lit "a") 0) (lit "1") 0) (lit "b") 1)
  = [lit "1"; lit "2"; lit "b"; lit "a"].
Proof. vm_compute. reflexivity. Qed.

Example find_contact_1 :
  find_contact signature_1 (trackingCodes after_send) = Some (lit "contact_1").
Proof. vm_compute. reflexivity. Qed.

End TrackerScenarios.

(** ** Weekly buckets *)

Section WeekFacts.
Import JS Dates Tracker IsoWeek.

Local Ltac div_lia := Z.to_euclidean_division_equations; lia.

(** 2021-01-03, a Sunday, is in week 53 of 2020; 2026-11-01 is in week 44
    of 2026; 2024-12-30 opens week 1 of 2025. *)
Example iso_week_examples :
  (iso_year (MakeDay 2021 0 3), iso_week (MakeDay 2021 0 3),
   iso_year (MakeDay 2026 10 1), iso_week (MakeDay 2026 10 1),
   iso_year (MakeDay 2024 11 30), iso_week (MakeDay 2024 11 30))
  = (2020, 53, 2026, 44, 2025, 1).
Proof. vm_compute. reflexivity. Qed.

Lemma Qceiling_sevenths (n : Z) :
  Qceiling ((inject_Z (n * 86400000) / inject_Z 86400000 + 1) / 7)%Q
  = n / 7 + 1.
Proof.
  assert (H : ((inject_Z (n * 86400000) / inject_Z 86400000 + 1) / 7
               == inject_Z (n + 1) / inject_Z 7)%Q).
  { rewrite !inject_Z_mult, !inject_Z_plus. field. }
  rewrite (Qceiling_comp _ _ H).
  unfold Qceiling. rewrite <- (Qfloor_comp (inject_Z (- (n + 1)) / inject_Z 7)%Q).
  - rewrite <- Zdiv_Qdiv. div_lia.
  - rewrite inject_Z_opp. field.
Qed.

(** [getWeekNumber] in terms of day numbers: the Thursday of the local
    date's week, its year, and its distance from 1 January of that
    year. *)
Lemma getWeekNumber_thursday (tz : Z -> Z) (date : Z) :
  100 < getFullYear tz date ->
  let day := Day (LocalTime tz date) in
  let thursday := day + 4 - (if (day + 4) mod 7 =? 0 then 7 else (day + 4) mod 7) in
  getWeekNumber tz date =
    {| wn_year := YearFromDay thursday;
       wn_week := (thursday - DayFromYear (YearFromDay thursday)) / 7 + 1 |}.
Proof.
  intros Hyear day thursday.
  unfold getWeekNumber, getFullYear, getMonth, getDate in *.
  set (lt := LocalTime tz date) in *.
  rewrite DateUTC_full_year by lia.
  pose proof (MakeDay_of_fields lt 0) as Hday.
  rewrite Z.add_0_r in Hday. rewrite Hday, Z.add_0_r. fold day.
  unfold getUTCDay, WeekDay, setUTCDate, getUTCDate, getUTCFullYear.
  rewrite TimeWithinDay_of_midnight.
  set (dayNum := if (Day (MakeDate day 0) + 4) mod 7 =? 0
                 then 7 else (Day (MakeDate day 0) + 4) mod 7).
  replace (DateFromTime (MakeDate day 0) + 4 - dayNum)
    with (DateFromTime (MakeDate day 0) + (4 - dayNum)) by lia.
  rewrite MakeDay_of_fields.
  subst dayNum. rewrite Day_of_midnight.
  replace (day + (4 - (if (day + 4) mod 7 =? 0 then 7 else (day + 4) mod 7)))
    with thursday by (subst thursday; lia).
  unfold YearFromTime. rewrite Day_of_midnight.
  assert (Hthu : day - 3 <= thursday).
  { subst thursday. destruct (Z.eqb_spec ((day + 4) mod 7) 0); div_lia. }
  assert (Hy : 100 <= YearFromDay thursday).
  { apply YearFromDay_lower.
    unfold YearFromTime in Hyear. fold day in Hyear.
    pose proof (YearFromDay_bounds day) as [Hlo _].
    pose proof (DayFromYear_mono 101 (YearFromDay day) ltac:(lia)).
    assert (DayFromYear 100 + 3 <= DayFromYear 101) by (vm_compute; discriminate).
    lia. }
  rewrite DateUTC_full_year by exact Hy.
  f_equal.
  unfold MakeDay. replace (0 / 12) with 0 by reflexivity.
  replace (0 mod 12) with 0 by reflexivity.
  cbv beta iota delta [DayOfMonthStart].
  rewrite !Z.add_0_r.
  unfold MakeDate. rewrite !Z.add_0_r.
  replace (DayFromYear (YearFromDay thursday) + 1 - 1)
    with (DayFromYear (YearFromDay thursday)) by lia.
  unfold msPerDay. rewrite <- Z.mul_sub_distr_r.
  apply Qceiling_sevenths.
Qed.

Lemma thursday_of_day (day : Z) :
  day + 4 - (if (day + 4) mod 7 =? 0 then 7 else (day + 4) mod 7)
  = thursday_of day.
Proof.
  unfold thursday_of, monday_of, iso_weekday.
  destruct (Z.eqb_spec ((day + 4) mod 7) 0); div_lia.
Qed.

Lemma week_from_new_year (day : Z) :
  (thursday_of day - DayFromYear (iso_year day)) / 7 + 1 = iso_week day.
Proof.
  unfold iso_week, first_thursday, iso_year.
  pose proof (YearFromDay_bounds (thursday_of day)) as [Hlo _].
  set (jan1 := DayFromYear (YearFromDay (thursday_of day))) in *.
  unfold thursday_of in *. unfold monday_of, iso_weekday in *.
  div_lia.
Qed.

(** A date in the year 50: [Date.UTC] reads the year as 1950, and the key
    is that of 1950-06-15. *)
Example two_digit_year :
  forall tz date,
    getFullYear tz date = 50 -> getMonth tz date = 5 -> getDate tz date = 15 ->
    getWeekNumber tz date = {| wn_year := 1950; wn_week := 24 |}.
Proof.
  intros tz date Hy Hm Hd. unfold getWeekNumber. rewrite Hy, Hm, Hd.
  vm_compute. reflexivity.
Qed.

End WeekFacts.

(** C9. A date whose local calendar date is 2024-12-30, and one whose local
    date is 2025-01-02, both get the key (2025, 1); and for every date after
    year 100 (years 0 to 99 are read as 1900 to 1999 by [Date.UTC]) the key
    is the ISO-8601 year and week of the local date: the year of the
    Thursday of its Monday-started week, and the count of weeks from the
    week of that year's first Thursday. *)
Theorem iso_week_assignment (tz : Z -> Z) (date : Z) :
  (Dates.getFullYear tz date = 2024 -> Dates.getMonth tz date = 11 ->
   Dates.getDate tz date = 30 ->
   Tracker.getWeekNumber tz date = {| Tracker.wn_year := 2025; Tracker.wn_week := 1 |})
  /\ (Dates.getFullYear tz date = 2025 -> Dates.getMonth tz date = 0 ->
      Dates.getDate tz date = 2 ->
      Tracker.getWeekNumber tz date = {| Tracker.wn_year := 2025; Tracker.wn_week := 1 |})
  /\ (100 < Dates.getFullYear tz date ->
      Tracker.getWeekNumber tz date =
        {| Tracker.wn_year := IsoWeek.iso_year (Dates.Day (Dates.LocalTime tz date));
           Tracker.wn_week := IsoWeek.iso_week (Dates.Day (Dates.LocalTime tz date)) |}).
Proof.
  split; [|split].
  - intros Hy Hm Hd. unfold Tracker.getWeekNumber. rewrite Hy, Hm, Hd.
    vm_compute. reflexivity.
  - intros Hy Hm Hd. unfold Tracker.getWeekNumber. rewrite Hy, Hm, Hd.
    vm_compute. reflexivity.
  - intros Hy. rewrite (getWeekNumber_thursday tz date Hy). cbv zeta.
    rewrite thursday_of_day.
    fold (IsoWeek.iso_year (Dates.Day (Dates.LocalTime tz date))).
    rewrite week_from_new_year. reflexivity.
Qed.

(** 2024-12-30T00:00Z is 1735516800000 and 2025-01-02T00:00Z is
    1735776000000; day 20087 is 2024-12-30. *)
Lemma iso_week_assignment_witness :
  Tracker.getWeekNumber utc 1735516800000
    = {| Tracker.wn_year := 2025; Tracker.wn_week := 1 |}
  /\ Tracker.getWeekNumber utc 1735776000000
    = {| Tracker.wn_year := 2025; Tracker.wn_week := 1 |}
  /\ Tracker.getWeekNumber utc 1735516800000
    = {| Tracker.wn_year := IsoWeek.iso_year 20087;
         Tracker.wn_week := IsoWeek.iso_week 20087 |}.
Proof.
  split; [|split].
  - apply (proj1 (iso_week_assignment utc 1735516800000)); vm_compute; reflexivity.
  - apply (proj1 (proj2 (iso_week_assignment utc 1735776000000)));
      vm_compute; reflexivity.
  - apply (proj2 (proj2 (iso_week_assignment utc 1735516800000))).
    vm_compute. reflexivity.
Defined.

(** ** Outreach records *)

Section LedgerFacts.
Import JS Codec Dates Tracker.

(** The outreach scenario: one send, then the reply three days later. *)
Example outreach_scenario :
  recordResponse utc signature_1 t_reply after_send
    = Return (after_reply, lit "contact_1")
  /\ outreachStatus after_reply !! lit "contact_1" =
       Some {| lastOutreachDate := t_sent; outreachCount := 1;
               lastEmailSubject := lit "Hello"; lastEmailTo := lit "a@b.com";
               responded := true; responseDate := Some t_reply;
               responseTime := Some (Finite 3) |}
  /\ totalSent (responseMetrics after_reply) = 1
  /\ totalResponses (responseMetrics after_reply) = 1
  /\ responseRate (responseMetrics after_reply) = Finite 1
  /\ weeklyStats (responseMetrics after_reply) =
       [{| year := 2025; week := 10; sent := 1; responses := 1;
           wk_responseRate := Finite 1 |}].
Proof. vm_compute. repeat split; reflexivity. Qed.

(** The contact that the loop of [recordResponse] resolves: some tracking
    code decodes the signature to the number in its own key, and the
    contact id is 'contact_' followed by that number. *)
Lemma find_contact_resolves (signature : jsstring) (codes : object TrackingCode)
    (cid : jsstring) :
  find_contact signature codes = Some cid ->
  exists id codeData,
    In (id, codeData) codes
    /\ parseInt (replace (lit "contact_") [] id)
       = Some (decodeStealthSignature signature (signatureChunks codeData))
    /\ cid = lit "contact_"
             ++ number_to_string
                  (decodeStealthSignature signature (signatureChunks codeData)).
Proof.
  induction codes as [|[id codeData] rest IH]; simpl; [discriminate|].
  destruct (decide (Some (decodeStealthSignature signature (signatureChunks codeData))
                    = parseInt (replace (lit "contact_") [] id))) as [Heq|_].
  - intros H. injection H as <-. exists id, codeData.
    split; [left; reflexivity|]. split; [symmetry; exact Heq|reflexivity].
  - intros H. destruct (IH H) as (id' & code' & Hin & Hp & Hc).
    exists id', code'. split; [right; exact Hin|]. split; assumption.
Qed.

Lemma divide_finite (a b : Z) :
  b <> 0 -> exists q, divide a b = Finite q /\ (q == inject_Z a / inject_Z b)%Q.
Proof.
  intros Hb. unfold divide.
  destruct (Z.eqb_spec b 0) as [?|_]; [contradiction|].
  eexists. split; [reflexivity|]. apply Qred_correct.
Qed.

Lemma recordOutreach_status (tz : Z -> Z) (now weekNow : Z) (email : Email)
    (td : TrackingData) :
  outreachStatus (recordOutreach tz now weekNow email td) =
    <[contactId email :=
        {| lastOutreachDate := now;
           outreachCount :=
             match outreachStatus td !! contactId email with
             | Some r => outreachCount r
             | None => 0
             end + 1;
           lastEmailSubject := subject email;
           lastEmailTo := to email;
           responded := false;
           responseDate := None;
           responseTime :=
             match outreachStatus td !! contactId email with
             | Some r => responseTime r
             | None => None
             end |}]> (outreachStatus td).
Proof. reflexivity. Qed.

(** What a successful [recordResponse] does to the outreach records. *)
Lemma recordResponse_status (tz : Z -> Z) (signature : jsstring) (date : Z)
    (td td' : TrackingData) (cid : jsstring) :
  recordResponse tz signature date td = Return (td', cid) ->
  exists r,
    outreachStatus td !! cid = Some r
    /\ outreachStatus td' =
         <[cid := {| lastOutreachDate := lastOutreachDate r;
                     outreachCount := outreachCount r;
                     lastEmailSubject := lastEmailSubject r;
                     lastEmailTo := lastEmailTo r;
                     responded := true;
                     responseDate := Some date;
                     responseTime :=
                       Some (divide (date - lastOutreachDate r) 86400000) |}]>
           (outreachStatus td).
Proof.
  unfold recordResponse. intros H.
  destruct (find_contact signature (trackingCodes td)) as [c|]; [|discriminate].
  destruct (outreachStatus td !! c) as [r|] eqn:Hr; [|discriminate].
  injection H as <- <-. exists r. split; [exact Hr|reflexivity].
Qed.

End LedgerFacts.

(** C3, as the code has it.  Take a contact whose record says
    [responded = true].  A [recordResponse] that succeeds keeps the flag, and
    so does a [recordOutreach] for another contact; a [recordOutreach] for
    the same contact increments [outreachCount], sets [lastOutreachDate] to
    the time of the send, and writes [responded = false] and
    [responseDate = null] again. *)
Theorem responded_flag_transitions (tz : Z -> Z) (now weekNow date : Z)
    (email : Tracker.Email) (signature : JS.jsstring)
    (td : Tracker.TrackingData) (c : JS.jsstring) (r : Tracker.OutreachRecord) :
  Tracker.outreachStatus td !! c = Some r ->
  Tracker.responded r = true ->
  (forall td' cid,
      Tracker.recordResponse tz signature date td = Tracker.Return (td', cid) ->
      exists r', Tracker.outreachStatus td' !! c = Some r'
                 /\ Tracker.responded r' = true)
  /\ (Tracker.contactId email <> c ->
      Tracker.outreachStatus (Tracker.recordOutreach tz now weekNow email td) !! c
        = Some r)
  /\ (Tracker.contactId email = c ->
      exists r',
        Tracker.outreachStatus (Tracker.recordOutreach tz now weekNow email td) !! c
          = Some r'
        /\ Tracker.outreachCount r' = Tracker.outreachCount r + 1
        /\ Tracker.lastOutreachDate r' = now
        /\ Tracker.responded r' = false
        /\ Tracker.responseDate r' = None).
Proof.
  intros Hr Hresp. split; [|split].
  - intros td' cid Hrun.
    destruct (recordResponse_status _ _ _ _ _ _ Hrun) as (r0 & Hr0 & ->).
    destruct (decide (cid = c)) as [->|Hne].
    + rewrite lookup_insert_eq. eexists. split; reflexivity.
    + rewrite lookup_insert_ne by exact Hne. exists r. split; assumption.
  - intros Hne. rewrite recordOutreach_status, lookup_insert_ne by exact Hne.
    exact Hr.
  - intros <-. rewrite recordOutreach_status, lookup_insert_eq, Hr.
    eexists. split; [reflexivity|]. simpl. repeat split; reflexivity.
Qed.

Lemma responded_flag_transitions_witness :
  exists r',
    Tracker.outreachStatus
      (Tracker.recordOutreach utc t_reply t_reply email_1 after_reply)
      !! JS.lit "contact_1" = Some r'
    /\ Tracker.outreachCount r' = 1 + 1
    /\ Tracker.lastOutreachDate r' = t_reply
    /\ Tracker.responded r' = false
    /\ Tracker.responseDate r' = None.
Proof.
  apply (proj2 (proj2
    (responded_flag_transitions utc t_reply t_reply t_reply email_1 signature_1
       after_reply (JS.lit "contact_1") record_after_reply
       ltac:(vm_compute; reflexivity) ltac:(reflexivity)))).
  reflexivity.
Defined.

(** C3, as the specification words it, fails: after a send to contact_1 and the
    matching reply the record says [responded = true]; the next send to
    contact_1 makes the count 2 and puts [responded] back to [false]. *)
Lemma recordOutreach_resets_responded :
  (exists r, Tracker.outreachStatus after_reply !! JS.lit "contact_1" = Some r
             /\ Tracker.responded r = true)
  /\ (exists r',
        Tracker.outreachStatus
          (Tracker.recordOutreach utc t_reply t_reply email_1 after_reply)
          !! JS.lit "contact_1" = Some r'
        /\ Tracker.outreachCount r' = 2
        /\ Tracker.responded r' = false).
Proof.
  split.
  - exists record_after_reply. split; [vm_compute; reflexivity|reflexivity].
  - eexists. split; [vm_compute; reflexivity|]. split; reflexivity.
Qed.

(** C7. When the loop of [recordResponse] resolves the signature to a
    contact: without an outreach record for that contact the call fails
    with 'No outreach record found'; otherwise it returns, and the record
    has [responded = true], [responseDate] the date of the response and
    [responseTime] the difference to [lastOutreachDate] divided by the
    milliseconds of a day, [totalResponses] is one more, and [responseRate]
    is the new [totalResponses] divided by [totalSent]. *)
Theorem recordResponse_postcondition (tz : Z -> Z) (signature : JS.jsstring)
    (responseDate : Z) (td : Tracker.TrackingData) (cid : JS.jsstring) :
  Tracker.find_contact signature (Tracker.trackingCodes td) = Some cid ->
  match Tracker.outreachStatus td !! cid with
  | None =>
      Tracker.recordResponse tz signature responseDate td
        = Tracker.Throw (Tracker.NoOutreachRecord cid)
  | Some r =>
      exists td' days,
        Tracker.recordResponse tz signature responseDate td
          = Tracker.Return (td', cid)
        /\ Tracker.outreachStatus td' !! cid =
             Some {| Tracker.lastOutreachDate := Tracker.lastOutreachDate r;
                     Tracker.outreachCount := Tracker.outreachCount r;
                     Tracker.lastEmailSubject := Tracker.lastEmailSubject r;
                     Tracker.lastEmailTo := Tracker.lastEmailTo r;
                     Tracker.responded := true;
                     Tracker.responseDate := Some responseDate;
                     Tracker.responseTime := Some (Tracker.Finite days) |}
        /\ (days == inject_Z (responseDate - Tracker.lastOutreachDate r)
                    / inject_Z 86400000)%Q
        /\ Tracker.totalResponses (Tracker.responseMetrics td')
           = Tracker.totalResponses (Tracker.responseMetrics td) + 1
        /\ Tracker.totalSent (Tracker.responseMetrics td')
           = Tracker.totalSent (Tracker.responseMetrics td)
        /\ Tracker.responseRate (Tracker.responseMetrics td')
           = Tracker.divide
               (Tracker.totalResponses (Tracker.responseMetrics td) + 1)
               (Tracker.totalSent (Tracker.responseMetrics td))
  end.
Proof.
  intros Hfind. unfold Tracker.recordResponse. rewrite Hfind.
  destruct (Tracker.outreachStatus td !! cid) as [r|] eqn:Hr; [|reflexivity].
  destruct (divide_finite (responseDate - Tracker.lastOutreachDate r)
              (1000 * 60 * 60 * 24) ltac:(discriminate)) as (days & Hdiv & Hdays).
  eexists. exists days. split; [reflexivity|].
  cbn [Tracker.outreachStatus Tracker.responseMetrics Tracker.totalResponses
       Tracker.totalSent Tracker.responseRate].
  rewrite lookup_insert_eq, Hdiv.
  repeat split; try reflexivity. exact Hdays.
Qed.

Lemma recordResponse_postcondition_witness :
  exists td' days,
    Tracker.recordResponse utc signature_1 t_reply after_send
      = Tracker.Return (td', JS.lit "contact_1")
    /\ Tracker.outreachStatus td' !! JS.lit "contact_1" =
         Some {| Tracker.lastOutreachDate := t_sent;
                 Tracker.outreachCount := 1;
                 Tracker.lastEmailSubject := JS.lit "Hello";
                 Tracker.lastEmailTo := JS.lit "a@b.com";
                 Tracker.responded := true;
                 Tracker.responseDate := Some t_reply;
                 Tracker.responseTime := Some (Tracker.Finite days) |}
    /\ (days == inject_Z (t_reply - t_sent) / inject_Z 86400000)%Q
    /\ Tracker.totalResponses (Tracker.responseMetrics td') = 0 + 1
    /\ Tracker.totalSent (Tracker.responseMetrics td') = 1
    /\ Tracker.responseRate (Tracker.responseMetrics td') = Tracker.divide (0 + 1) 1.
Proof.
  exact (recordResponse_postcondition utc signature_1 t_reply after_send
           (JS.lit "contact_1") find_contact_1).
Defined.

(** ** Ranking *)

Section SortFacts.
Context {A : Type} (key : A -> Z).

Local Abbreviation compare := (fun a b : A => key b - key a).

Lemma insert_sorted_perm (a : A) (l : list A) :
  Permutation (Graph.insert_sorted compare a l) (a :: l).
Proof using Type.
  induction l as [|b rest IH]; simpl; [reflexivity|].
  destruct (key b - key a >? 0); [|reflexivity].
  rewrite IH. apply perm_swap.
Qed.

Lemma sort_perm (l : list A) : Permutation (Graph.sort compare l) l.
Proof using Type.
  induction l as [|a rest IH]; simpl; [reflexivity|].
  rewrite insert_sorted_perm. apply perm_skip. exact IH.
Qed.

Lemma insert_sorted_descending (a : A) (l : list A) :
  descending key l -> descending key (Graph.insert_sorted compare a l).
Proof using Type.
  unfold descending. induction l as [|b rest IH]; intros Hl; simpl.
  - constructor; constructor.
  - inversion Hl as [|? ? Hrest Hb]; subst.
    destruct (Z.gtb_spec (key b - key a) 0) as [Hgt|Hle].
    + constructor; [apply IH; exact Hrest|].
      eapply Permutation_Forall.
      * symmetry. apply insert_sorted_perm.
      * constructor; [lia|exact Hb].
    + constructor; [exact Hl|].
      constructor; [lia|].
      eapply List.Forall_impl; [|exact Hb]. simpl. intros c Hc. lia.
Qed.

Lemma sort_descending (l : list A) : descending key (Graph.sort compare l).
Proof using Type.
  induction l as [|a rest IH]; simpl.
  - constructor.
  - apply insert_sorted_descending. exact IH.
Qed.

Lemma insert_sorted_with_key (k : Z) (a : A) (l : list A) :
  descending key l ->
  with_key key k (Graph.insert_sorted compare a l) = with_key key k (a :: l).
Proof using Type.
  unfold descending, with_key.
  induction l as [|b rest IH]; intros Hl; [reflexivity|].
  inversion Hl as [|? ? Hrest Hb]; subst. simpl.
  destruct (Z.gtb_spec (key b - key a) 0) as [Hgt|Hle]; [|reflexivity].
  simpl. rewrite (IH Hrest). simpl.
  destruct (Z.eqb_spec (key a) k), (Z.eqb_spec (key b) k); try reflexivity.
  lia.
Qed.

Lemma sort_with_key (k : Z) (l : list A) :
  with_key key k (Graph.sort compare l) = with_key key k l.
Proof using Type.
  induction l as [|a rest IH]; [reflexivity|].
  simpl Graph.sort. rewrite insert_sorted_with_key by apply sort_descending.
  unfold with_key in *. simpl. rewrite IH. reflexivity.
Qed.

(** A permutation in descending order that keeps the elements of each key
    in their order is unique: every stable sort returns what [Graph.sort]
    returns. *)
Lemma with_key_head (a : A) (l : list A) :
  with_key key (key a) (a :: l) = a :: with_key key (key a) l.
Proof using Type.
  unfold with_key. simpl. rewrite Z.eqb_refl. reflexivity.
Qed.

Lemma descending_head_max (a b : A) (l : list A) :
  descending key (a :: l) -> In b (a :: l) -> key b <= key a.
Proof using Type.
  intros Hd [->|Hin]; [lia|].
  inversion Hd as [|? ? _ Hall]; subst.
  apply (proj1 (List.Forall_forall _ _) Hall b Hin).
Qed.

Lemma with_key_In (k : Z) (b : A) (l : list A) :
  In b (with_key key k l) <-> In b l /\ key b = k.
Proof using Type.
  unfold with_key. rewrite List.filter_In, Z.eqb_eq. reflexivity.
Qed.

Lemma stable_descending_unique (l1 : list A) :
  forall l2,
    descending key l1 -> descending key l2 ->
    (forall k, with_key key k l1 = with_key key k l2) ->
    l1 = l2.
Proof using Type.
  induction l1 as [|a l1 IH]; intros l2 H1 H2 Hkeys.
  - destruct l2 as [|b l2]; [reflexivity|].
    specialize (Hkeys (key b)). rewrite with_key_head in Hkeys. discriminate.
  - destruct l2 as [|b l2].
    { specialize (Hkeys (key a)). rewrite with_key_head in Hkeys. discriminate. }
    assert (Hab : key a = key b).
    { assert (In a (b :: l2)).
      { apply (with_key_In (key a)). rewrite <- Hkeys, with_key_head. left; reflexivity. }
      assert (In b (a :: l1)).
      { apply (with_key_In (key b)). rewrite Hkeys, with_key_head. left; reflexivity. }
      pose proof (descending_head_max _ _ _ H2 ltac:(eassumption)).
      pose proof (descending_head_max _ _ _ H1 ltac:(eassumption)).
      lia. }
    pose proof (Hkeys (key a)) as Hhead.
    rewrite with_key_head, Hab, with_key_head in Hhead.
    injection Hhead as -> Htail.
    f_equal. apply IH.
    + inversion H1; assumption.
    + inversion H2; assumption.
    + intros k. specialize (Hkeys k). unfold with_key in *. simpl in Hkeys.
      destruct (key b =? k); [injection Hkeys as Hk; exact Hk|exact Hkeys].
Qed.

Lemma sort_characterised (l l' : list A) :
  descending key l' ->
  (forall k, with_key key k l' = with_key key k l) ->
  l' = Graph.sort compare l.
Proof using Type.
  intros Hd Hkeys. apply stable_descending_unique.
  - exact Hd.
  - apply sort_descending.
  - intros k. rewrite sort_with_key. apply Hkeys.
Qed.

End SortFacts.

Section RankingExamples.
Import JS Graph.

Example top_of_tie_store :
  List.map id (getTopContacts 5 tie_store)
  = [lit "contact_3"; lit "contact_2"; lit "contact_1"].
Proof. vm_compute. reflexivity. Qed.

Example top_negative_count :
  List.map id (getTopContacts (-1) tie_store) = [lit "contact_3"; lit "contact_2"].
Proof. vm_compute. reflexivity. Qed.

End RankingExamples.

(** C4, as the code has it.  [getTopContacts n] returns a prefix of the
    contacts of the store in order of descending [calculatedScore] (a
    missing score counting as 0); contacts of equal score keep the order in
    which the store enumerates them, ids are not compared; every entity
    returned is a Contact, and for [n >= 0] there are [min n (number of
    contacts)] of them.  The result is a function of [n] and the store, so
    repeated calls agree. *)
Theorem getTopContacts_ranking (n : Z) (g : Graph.KnowledgeGraph) :
  exists rest,
    Permutation (Graph.getTopContacts n g ++ rest)
      (Graph.findEntitiesByType (JS.lit "Contact") g)
    /\ descending Graph.scoreOf (Graph.getTopContacts n g ++ rest)
    /\ (forall k,
          with_key Graph.scoreOf k (Graph.getTopContacts n g ++ rest)
          = with_key Graph.scoreOf k (Graph.findEntitiesByType (JS.lit "Contact") g))
    /\ Forall (fun e => Graph.entityType e = JS.lit "Contact")
         (Graph.getTopContacts n g)
    /\ (0 <= n ->
        Z.of_nat (List.length (Graph.getTopContacts n g))
        = Z.min n (Z.of_nat
                     (List.length (Graph.findEntitiesByType (JS.lit "Contact") g)))).
Proof.
  unfold Graph.getTopContacts, Graph.slice0.
  set (contacts := Graph.findEntitiesByType (JS.lit "Contact") g).
  set (sorted := Graph.sort (fun a b => Graph.scoreOf b - Graph.scoreOf a) contacts).
  set (final := if n <? 0
                then Z.max (Z.of_nat (List.length sorted) + n) 0
                else Z.min n (Z.of_nat (List.length sorted))).
  pose proof (sort_perm Graph.scoreOf contacts) as Hperm. fold sorted in Hperm.
  exists (skipn (Z.to_nat final) sorted).
  rewrite firstn_skipn.
  split; [exact Hperm|].
  split; [apply sort_descending|].
  split; [intros k; apply sort_with_key|].
  split.
  - apply List.Forall_forall. intros e He.
    assert (He' : In e sorted).
    { rewrite <- (firstn_skipn (Z.to_nat final) sorted).
      apply in_or_app. left. exact He. }
    clear He. rename He' into He.
    apply (Permutation_in _ Hperm) in He.
    apply List.filter_In in He. destruct He as [_ He].
    apply bool_decide_eq_true in He. exact He.
  - intros Hn. rewrite length_firstn.
    rewrite <- (Permutation_length Hperm).
    subst final. destruct (Z.ltb_spec n 0); lia.
Qed.

Lemma getTopContacts_ranking_witness :
  Z.of_nat (List.length (Graph.getTopContacts 2 tie_store))
  = Z.min 2 (Z.of_nat
               (List.length (Graph.findEntitiesByType (JS.lit "Contact") tie_store))).
Proof.
  destruct (getTopContacts_ranking 2 tie_store) as (rest & _ & _ & _ & _ & H).
  apply H. lia.
Defined.

(** C4, as the specification words it, fails on [tie_store]: contact_2 and
    contact_1 have the same score 50 and contact_2 is returned first, being
    first in the store, although its id is the larger one. *)
Lemma getTopContacts_tie_not_by_id :
  List.map Graph.id (Graph.getTopContacts 3 tie_store)
    = [JS.lit "contact_3"; JS.lit "contact_2"; JS.lit "contact_1"]
  /\ Graph.scoreOf (contact "2" 50) = Graph.scoreOf (contact "1" 50)
  /\ JS.string_lt (JS.lit "contact_1") (JS.lit "contact_2") = true
  /\ ~ ranked_by_score_then_id (Graph.getTopContacts 3 tie_store).
Proof.
  split; [vm_compute; reflexivity|].
  split; [vm_compute; reflexivity|].
  split; [vm_compute; reflexivity|].
  intros H.
  replace (Graph.getTopContacts 3 tie_store)
    with [contact "3" 70; contact "2" 50; contact "1" 50] in H
    by (vm_compute; reflexivity).
  inversion H as [|? ? Htail _]; subst.
  inversion Htail as [|? ? _ Hall]; subst.
  inversion Hall as [|? ? Hbad _]; subst.
  destruct Hbad as [Hlt|[_ Hid]].
  - vm_compute in Hlt. discriminate.
  - vm_compute in Hid. discriminate.
Qed.

(** ** Scoring *)

Section ScoreFacts.
Import JS Graph.









(** The scores of the five factor names, and of no other name. *)
Local Ltac decide_names :=
  repeat match goal with
         | |- context [decide (?a = ?b)] =>
             let e := fresh "e" in
             destruct (decide (a = b)) as [e|e];
             [first [exfalso; vm_compute in e; discriminate | clear e]
             |first [exfalso; apply e; reflexivity | clear e]]
         end.


Lemma find_update_first {A : Type} (test : A -> bool) (f : A -> A) (l : list A)
    (x : A) :
  List.find test l = Some x ->
  test (f x) = true ->
  List.find test (update_first test f l) = Some (f x).
Proof.
  intros Hfind Hf. induction l as [|y rest IH]; simpl in *; [discriminate|].
  destruct (test y) eqn:Hy.
  - injection Hfind as ->. simpl. rewrite Hf. reflexivity.
  - simpl. rewrite Hy. apply IH. exact Hfind.
Qed.

Lemma same_but_score_refl (o : Observation) : same_but_score o o.
Proof. repeat split. Qed.

Lemma update_first_frame (t : jsstring) (s : score) (l : list Observation) :
  Forall2 (fun o o' => same_but_score o o' /\ (type o <> t -> o' = o))
    l (update_first (is_type t) (set_calculatedScore s) l).
Proof.
  induction l as [|o rest IH]; simpl; [constructor|].
  destruct (is_type t o) eqn:Ht.
  - constructor.
    + split; [repeat split|].
      intros Hne. apply bool_decide_eq_true in Ht. contradiction.
    + clear. induction rest; constructor; auto.
      split; [apply same_but_score_refl|reflexivity].
  - constructor; [|exact IH].
    split; [apply same_but_score_refl|reflexivity].
Qed.

Lemma Forall2_imap {A B : Type} (P : A -> B -> Prop) (l : list A) :
  forall f : nat -> A -> B,
    (forall i x, l !! i = Some x -> P x (f i x)) -> Forall2 P l (imap f l).
Proof.
  induction l as [|x rest IH]; intros f H; simpl; constructor.
  - apply (H O). reflexivity.
  - apply IH. intros i y Hy. apply (H (S i)). exact Hy.
Qed.

End ScoreFacts.

(** C10. [calculateImportanceScores] keeps the relationship list and the
    entities with their ids, names and types; in every observation all
    fields but [calculatedScore] stay, and an observation whose type is not
    importance_metrics stays as it is; an entity that is not a Contact, and
    a Contact without a communication_metrics or without an
    importance_metrics observation, stays as it is. *)
Theorem scoring_frame (clock : nat -> Z) (weights : list (JS.jsstring * R))
    (g : Graph.KnowledgeGraph) :
  Graph.relationships (Graph.calculateImportanceScores clock weights g)
    = Graph.relationships g
  /\ Forall2
       (fun e e' =>
          Graph.id e' = Graph.id e
          /\ Graph.name e' = Graph.name e
          /\ Graph.entityType e' = Graph.entityType e
          /\ Forall2
               (fun o o' =>
                  same_but_score o o'
                  /\ (Graph.type o <> JS.lit "importance_metrics" -> o' = o))
               (Graph.observations e) (Graph.observations e')
          /\ (Graph.entityType e <> JS.lit "Contact" -> e' = e)
          /\ (List.find (Graph.is_type (JS.lit "communication_metrics"))
                (Graph.observations e) = None
              \/ List.find (Graph.is_type (JS.lit "importance_metrics"))
                   (Graph.observations e) = None ->
              e' = e))
       (Graph.entities g)
       (Graph.entities (Graph.calculateImportanceScores clock weights g)).
Proof.
  split; [reflexivity|].
  unfold Graph.calculateImportanceScores. cbn [Graph.entities].
  apply Forall2_imap. intros i e _.
  assert (Hsame : Forall2
            (fun o o' => same_but_score o o'
               /\ (Graph.type o <> JS.lit "importance_metrics" -> o' = o))
            (Graph.observations e) (Graph.observations e)).
  { clear. induction (Graph.observations e); constructor; auto.
    split; [apply same_but_score_refl|reflexivity]. }
  destruct (bool_decide (Graph.entityType e = JS.lit "Contact")) eqn:Hc.
  - apply bool_decide_eq_true in Hc.
    unfold Graph.scoreContact.
    destruct (List.find (Graph.is_type (JS.lit "communication_metrics"))
                (Graph.observations e)) as [m|] eqn:Hm;
      [destruct (List.find (Graph.is_type (JS.lit "importance_metrics"))
                   (Graph.observations e)) as [io|] eqn:Hi|].
    + cbn [Graph.id Graph.name Graph.entityType Graph.observations].
      repeat split.
      * apply update_first_frame.
      * intros Hne. contradiction.
      * intros [H|H]; discriminate.
    + repeat split; auto.
    + repeat split; auto.
  - repeat split; auto.
Qed.

Lemma scoring_frame_witness :
  Graph.entities
    (Graph.calculateImportanceScores (fun _ => 0) Graph.defaultWeights tie_store)
    !! 1%nat = Some acme.
Proof.
  destruct (Forall2_lookup_l _ _ _ 1%nat acme
              (proj2 (scoring_frame (fun _ => 0) Graph.defaultWeights tie_store))
              eq_refl)
    as (e' & He' & _ & _ & _ & _ & Hkeep & _).
  rewrite He'. f_equal. apply Hkeep.
  intros E. vm_compute in E. discriminate.
Defined.

(** ** Monotonicity of the score *)

Section Monotone.
Import JS Graph.



End Monotone.



(** ** The score as it is computed *)

Section ScoringFacts.
Import JS PrimFloat Number Scoring.
Local Open Scope float_scope.

Variable Math_log : float -> float.

Local Ltac decide_names :=
  repeat match goal with
         | |- context [decide (?a = ?b)] =>
             let e := fresh "e" in
             destruct (decide (a = b)) as [e|e];
             [first [exfalso; vm_compute in e; discriminate | clear e]
             |first [exfalso; apply e; reflexivity | clear e]]
         end.

(** The loop over the five weights in the order of the default literal. *)
Lemma totalScore64_entries (now : float) (w : ScoreSpec64.Weights)
    (metricsObs importanceObs : Observation) :
  totalScore Math_log now (ScoreSpec64.entries w) metricsObs importanceObs =
  0
  + _normalizeFrequency Math_log (or_zero (emailCount metricsObs))
    * ScoreSpec64.w_frequency w
  + _normalizeRecency now (lastContacted metricsObs) * ScoreSpec64.w_recency w
  + or_zero (responseRate metricsObs) * ScoreSpec64.w_responseRate w
  + _normalizeMeetingFrequency (or_zero (meetingCount metricsObs))
    * ScoreSpec64.w_meetingFrequency w
  + or_zero (manualPriority importanceObs) / 10 * ScoreSpec64.w_manualPriority w.
Proof using Type.
  unfold totalScore, ScoreSpec64.entries.
  cbn [fold_left fst snd]. unfold scores.
  decide_names. reflexivity.
Qed.

Lemma recency_as_written (now : float) (last : option float) :
  _normalizeRecency now last = ScoreSpec64.recency now last.
Proof using Type.
  destruct last as [t|]; [|reflexivity].
  unfold _normalizeRecency, ScoreSpec64.recency.
  replace (1000 * 60 * 60 * 24) with 86400000 by reflexivity.
  reflexivity.
Qed.

(** The score of one contact under the five weights in that order. *)
Lemma contactScore64_formula (now : float) (w : ScoreSpec64.Weights)
    (metricsObs importanceObs : Observation) :
  contactScore Math_log now (ScoreSpec64.entries w) metricsObs importanceObs =
  ScoreSpec64.score w
    (ScoreSpec64.frequency Math_log (or_zero (emailCount metricsObs)))
    (ScoreSpec64.recency now (lastContacted metricsObs))
    (or_zero (responseRate metricsObs))
    (ScoreSpec64.meetingFrequency (or_zero (meetingCount metricsObs)))
    (ScoreSpec64.manualPriority (or_zero (manualPriority importanceObs))).
Proof using Type.
  unfold contactScore. rewrite totalScore64_entries, recency_as_written.
  reflexivity.
Qed.

(** What [scoreContact] leaves in the importance observation. *)
Lemma scoreContact_writes (now : float) (weights : list (jsstring * float))
    (contact : Entity) (metricsObs importanceObs : Observation) :
  List.find (is_type (lit "communication_metrics")) (observations contact)
    = Some metricsObs ->
  List.find (is_type (lit "importance_metrics")) (observations contact)
    = Some importanceObs ->
  exists importanceObs',
    List.find (is_type (lit "importance_metrics"))
      (observations (scoreContact Math_log now weights contact))
      = Some importanceObs'
    /\ calculatedScore importanceObs'
       = Some (contactScore Math_log now weights metricsObs importanceObs).
Proof using Type.
  intros Hm Hi. unfold scoreContact. rewrite Hm, Hi. cbn [observations].
  eexists. split.
  - apply find_update_first; [exact Hi|].
    apply List.find_some in Hi. apply Hi.
  - reflexivity.
Qed.

End ScoringFacts.

Section ScoreClaim.
Import PrimFloat.

(** C5, as the code has it.  For a Contact that has both observations the
    [calculatedScore] that is read from the store after
    [calculateImportanceScores] is [Math.round(100 * total)], where the
    total is accumulated from 0 over the entries of the weights in the
    order of their keys, every product and sum rounded as a Number.  For
    the five factors in the order of the default literal this is
    round(100 * (((((0 + f*w_f) + r*w_r) + rr*w_rr) + m*w_m) + p*w_p)) with
    the factors as specified; nothing clamps it, and the contact with every
    factor but recency at its maximum scores 400 when every weight is 1. *)
Theorem score_formula :
  (forall (Math_log : PrimFloat.float -> PrimFloat.float)
          (clock : nat -> PrimFloat.float)
          (weights : list (JS.jsstring * PrimFloat.float))
          (g : Scoring.KnowledgeGraph) (i : nat) (contact : Scoring.Entity)
          (metricsObs importanceObs : Scoring.Observation),
      Scoring.entities g !! i = Some contact ->
      Scoring.entityType contact = JS.lit "Contact" ->
      List.find (Scoring.is_type (JS.lit "communication_metrics"))
        (Scoring.observations contact) = Some metricsObs ->
      List.find (Scoring.is_type (JS.lit "importance_metrics"))
        (Scoring.observations contact) = Some importanceObs ->
      exists contact' importanceObs',
        Scoring.entities (Scoring.calculateImportanceScores Math_log clock weights g)
          !! i = Some contact'
        /\ List.find (Scoring.is_type (JS.lit "importance_metrics"))
             (Scoring.observations contact') = Some importanceObs'
        /\ Scoring.calculatedScore importanceObs'
           = Some (Number.Math_round
                     (PrimFloat.mul
                        (Scoring.totalScore Math_log (clock i) weights
                           metricsObs importanceObs)
                        100%float))
        /\ forall w,
             weights = ScoreSpec64.entries w ->
             Scoring.calculatedScore importanceObs'
             = Some
                 (ScoreSpec64.score w
                    (ScoreSpec64.frequency Math_log
                       (Number.or_zero (Scoring.emailCount metricsObs)))
                    (ScoreSpec64.recency (clock i)
                       (Scoring.lastContacted metricsObs))
                    (Number.or_zero (Scoring.responseRate metricsObs))
                    (ScoreSpec64.meetingFrequency
                       (Number.or_zero (Scoring.meetingCount metricsObs)))
                    (ScoreSpec64.manualPriority
                       (Number.or_zero (Scoring.manualPriority importanceObs)))))
  /\ (forall (Math_log : PrimFloat.float -> PrimFloat.float)
             (clock : nat -> PrimFloat.float),
        exists contact' importanceObs',
          Scoring.entities
            (Scoring.calculateImportanceScores Math_log clock
               (ScoreSpec64.entries unit_weights64) (store64 full_contact))
            !! 0%nat = Some contact'
          /\ List.find (Scoring.is_type (JS.lit "importance_metrics"))
               (Scoring.observations contact') = Some importanceObs'
          /\ Scoring.calculatedScore importanceObs' = Some 400%float).
Proof.
  split.
  - intros Math_log clock weights g i contact metricsObs importanceObs
      Hi Htype Hm Himp.
    destruct (scoreContact_writes Math_log (clock i) weights contact
                metricsObs importanceObs Hm Himp) as (io' & Hfind & Hscore).
    exists (Scoring.scoreContact Math_log (clock i) weights contact), io'.
    split.
    { unfold Scoring.calculateImportanceScores. cbn [Scoring.entities].
      rewrite list_lookup_imap, Hi. cbn [fmap option_fmap option_map].
      rewrite bool_decide_eq_true_2 by exact Htype. reflexivity. }
    split; [exact Hfind|].
    split; [exact Hscore|].
    intros w ->. rewrite Hscore, contactScore64_formula. reflexivity.
  - intros Math_log clock. eexists. eexists.
    split; [reflexivity|]. split; [reflexivity|].
    vm_compute. reflexivity.
Qed.

Lemma score_formula_witness :
  exists contact' importanceObs',
    Scoring.entities
      (Scoring.calculateImportanceScores log_not_called (fun _ => 0%float)
         Scoring.defaultWeights (store64 half_contact))
      !! 0%nat = Some contact'
    /\ List.find (Scoring.is_type (JS.lit "importance_metrics"))
         (Scoring.observations contact') = Some importanceObs'
    /\ Scoring.calculatedScore importanceObs'
       = Some (Number.Math_round
                 (PrimFloat.mul
                    (Scoring.totalScore log_not_called 0%float
                       Scoring.defaultWeights
                       (metrics64 0 0 10) (importance64 7))
                    100%float))
    /\ forall w,
         Scoring.defaultWeights = ScoreSpec64.entries w ->
         Scoring.calculatedScore importanceObs'
         = Some
             (ScoreSpec64.score w
                (ScoreSpec64.frequency log_not_called
                   (Number.or_zero
                      (Scoring.emailCount (metrics64 0 0 10))))
                (ScoreSpec64.recency 0%float
                   (Scoring.lastContacted (metrics64 0 0 10)))
                (Number.or_zero (Scoring.responseRate (metrics64 0 0 10)))
                (ScoreSpec64.meetingFrequency
                   (Number.or_zero (Scoring.meetingCount (metrics64 0 0 10))))
                (ScoreSpec64.manualPriority
                   (Number.or_zero (Scoring.manualPriority (importance64 7))))).
Proof.
  apply (proj1 score_formula log_not_called (fun _ => 0%float)
           Scoring.defaultWeights (store64 half_contact) 0%nat half_contact
           (metrics64 0 0 10) (importance64 7)).
  - reflexivity.
  - reflexivity.
  - reflexivity.
  - reflexivity.
Defined.

(** C5, as the specification words it, fails.  For the contact with no
    emails, ten meetings and priority 7 the sum of weight * factor under
    the default weights is 0.145 and round(100 * 0.145) is 15, but the
    total that the code accumulates is a Number just below 0.145 and the
    score written is 14.  And the score is no function of the weight
    mapping alone: for the contact with response rate 0.05, ten meetings
    and priority 6 the default weights give 14, and the same weights with
    the keys manualPriority and meetingFrequency in the other order give
    15. *)
Lemma score_formula_not_exact :
  (forall (Math_log : PrimFloat.float -> PrimFloat.float)
          (clock : nat -> PrimFloat.float),
      exists contact' importanceObs',
        Scoring.entities
          (Scoring.calculateImportanceScores Math_log clock
             Scoring.defaultWeights (store64 half_contact))
          !! 0%nat = Some contact'
        /\ List.find (Scoring.is_type (JS.lit "importance_metrics"))
             (Scoring.observations contact') = Some importanceObs'
        /\ Scoring.calculatedScore importanceObs' = Some 14%float)
  /\ ScoreSpec.score default_weights
       (ScoreSpec.frequency 0) 0 0 (ScoreSpec.meetingFrequency 10)
       (ScoreSpec.manualPriority 7)
     = 15%Z
  /\ (forall (Math_log : PrimFloat.float -> PrimFloat.float)
             (now : PrimFloat.float),
        Scoring.contactScore Math_log now Scoring.defaultWeights
          (metrics64 0 0.05 10) (importance64 6) = 14%float
        /\ Scoring.contactScore Math_log now reordered_weights
             (metrics64 0 0.05 10) (importance64 6) = 15%float
        /\ Permutation reordered_weights Scoring.defaultWeights).
Proof.
  split; [|split].
  - intros Math_log clock. eexists. eexists.
    split; [reflexivity|]. split; [reflexivity|].
    vm_compute. reflexivity.
  - unfold ScoreSpec.score, ScoreSpec.frequency, ScoreSpec.meetingFrequency,
      ScoreSpec.manualPriority, ScoreSpec.clamp01, Graph.round.
    cbn [default_weights ScoreSpec.w_frequency ScoreSpec.w_recency
         ScoreSpec.w_responseRate ScoreSpec.w_meetingFrequency
         ScoreSpec.w_manualPriority].
    destruct (Z_le_dec 0 0) as [_|H]; [|exfalso; apply H; reflexivity].
    symmetry. apply Int_part_spec.
    unfold Rmax, Rmin. repeat destruct (Rle_dec _ _); lra.
  - intros Math_log now. split; [|split].
    + vm_compute. reflexivity.
    + vm_compute. reflexivity.
    + unfold reordered_weights, Scoring.defaultWeights.
      do 3 apply perm_skip. apply perm_swap.
Qed.

End ScoreClaim.

(** ** Codec: shape of the signature, ids outside the capacity, text after
       the signature *)

Section CodecMore.
Import JS Codec.

Lemma separator_text_digit (d : Z) :
  is_digit d -> separator_text (Some d) = separator d /\ List.length (separator d) = 1%nat.
Proof.
  unfold is_digit. intros Hd.
  assert (d = 0 \/ d = 1 \/ d = 2 \/ d = 3 \/ d = 4 \/ d = 5) as Hc by lia.
  destruct Hc as [->|[->|[->|[->|[->| ->]]]]]; split; reflexivity.
Qed.

Lemma signature_body_interleave (chunks : list jsstring) :
  forall (i k : nat) (digits : list Z),
    (i + List.length chunks = S k)%nat ->
    (k <= List.length digits)%nat ->
    Forall is_digit digits ->
    signature_body (Z.of_nat i) chunks (Z.of_nat k) digits
    = interleave chunks (List.map separator (firstn (k - i) (skipn i digits))).
Proof.
  induction chunks as [|c rest IH]; intros i k digits Hlen Hk Hdig.
  - reflexivity.
  - destruct rest as [|c' rest'].
    + simpl in Hlen. replace (k - i)%nat with O by lia.
      simpl. destruct (Z.ltb_spec (Z.of_nat i) (Z.of_nat k)); [lia|reflexivity].
    + assert (Hi : (i < k)%nat) by (simpl in Hlen; lia).
      destruct (nth_error digits i) as [d|] eqn:Hnth;
        [|apply nth_error_None in Hnth; lia].
      assert (Hd : is_digit d).
      { eapply List.Forall_forall; [exact Hdig|]. eapply nth_error_In; eauto. }
      destruct (separator_text_digit d Hd) as [Htext _].
      change (signature_body (Z.of_nat i) (c :: c' :: rest') (Z.of_nat k) digits)
        with (c ++ (if Z.of_nat i <? Z.of_nat k
                    then separator_text (array_get digits (Z.of_nat i)) else [])
                ++ signature_body (Z.of_nat i + 1) (c' :: rest') (Z.of_nat k) digits).
      destruct (Z.ltb_spec (Z.of_nat i) (Z.of_nat k)); [|lia].
      rewrite array_get_nat, Hnth, Htext.
      replace (Z.of_nat i + 1) with (Z.of_nat (S i)) by lia.
      rewrite (IH (S i) k digits) by (simpl in *; auto; lia).
      replace (k - i)%nat with (S (k - S i)) by lia.
      rewrite (skipn_nth_error digits i d Hnth). reflexivity.
Qed.

(** [intToBaseNArray] on any number, negative ones included. *)
Lemma intToBaseNArray_any (number : Z) (len : nat) :
  exists digits,
    intToBaseNArray number 6 (Z.of_nat len) = Some digits
    /\ Forall is_digit digits
    /\ (len <= List.length digits)%nat.
Proof.
  destruct (Z_lt_le_dec number 0) as [Hneg|Hpos].
  - unfold intToBaseNArray.
    replace (Z.to_nat number) with O by lia. simpl.
    destruct (Z.gtb_spec number 0); [lia|].
    eexists. split; [reflexivity|]. rewrite pad_loop_repeat, app_nil_r.
    split.
    + apply List.Forall_forall. intros x Hx. apply repeat_spec in Hx.
      subst x. unfold is_digit. lia.
    + rewrite repeat_length. simpl. lia.
  - destruct (intToBaseNArray_spec number len Hpos)
      as (digits & Hrun & Hdig & _ & Hshort & Hlong).
    exists digits. split; [exact Hrun|]. split; [exact Hdig|].
    destruct (Z_lt_le_dec number (6 ^ Z.of_nat len)) as [H|H].
    + rewrite (Hshort H). lia.
    + destruct (Hlong H). lia.
Qed.

Lemma generate_digits (k : nat) (chunks : list jsstring) (id : Z) (digits : list Z) :
  List.length chunks = S k ->
  intToBaseNArray id 6 (Z.of_nat k) = Some digits ->
  Forall is_digit digits ->
  (k <= List.length digits)%nat ->
  generateStealthSignature id chunks
  = Some (interleave chunks (List.map separator (firstn k digits))).
Proof.
  intros Hlen Hrun Hdig Hk.
  unfold generateStealthSignature. rewrite Hlen.
  replace (Z.of_nat (S k) - 1) with (Z.of_nat k) by lia.
  change (Z.of_nat (List.length SEPARATORS)) with 6.
  rewrite Hrun, signature_loop_body. simpl app.
  pose proof (signature_body_interleave chunks 0 k digits
                ltac:(simpl; lia) Hk Hdig) as H.
  change (Z.of_nat 0) with 0 in H. rewrite H, Nat.sub_0_r. reflexivity.
Qed.

End CodecMore.

Section CodecMore2.
Import JS Codec.

Lemma separatorIndices_inside (chunks : list jsstring) :
  forall (pos : Z) (seps : list jsstring),
    S (List.length seps) = List.length chunks ->
    Forall (fun s => List.length s = 1%nat) seps ->
    Forall (fun p => pos <= p < pos + str_length (interleave chunks seps))
      (separatorIndices chunks pos).
Proof.
  induction chunks as [|c rest IH]; intros pos seps Hlen Hone.
  - constructor.
  - destruct rest as [|c' rest']; [constructor|].
    destruct seps as [|s seps']; [simpl in Hlen; lia|].
    inversion Hone as [|? ? Hs Hone']; subst.
    change (separatorIndices (c :: c' :: rest') pos)
      with ((pos + str_length c)
            :: separatorIndices (c' :: rest') (pos + str_length c + 1)).
    change (interleave (c :: c' :: rest') (s :: seps'))
      with (c ++ s ++ interleave (c' :: rest') seps').
    assert (Hl : str_length (c ++ s ++ interleave (c' :: rest') seps')
                 = str_length c + 1 + str_length (interleave (c' :: rest') seps')).
    { unfold str_length. rewrite !length_app, Hs. lia. }
    rewrite Hl.
    assert (Hnn : 0 <= str_length c) by (unfold str_length; lia).
    assert (Hnn' : 0 <= str_length (interleave (c' :: rest') seps'))
      by (unfold str_length; lia).
    specialize (IH (pos + str_length c + 1) seps' ltac:(simpl in *; lia) Hone').
    constructor.
    + assert (0 < str_length (interleave (c' :: rest') seps') \/
              str_length (interleave (c' :: rest') seps') = 0) as [?|?] by lia; lia.
    + eapply List.Forall_impl; [|exact IH]. simpl. intros p Hp. lia.
Qed.

Lemma charAt_app_l (s t : jsstring) (p : Z) :
  0 <= p < str_length s -> charAt (s ++ t) p = charAt s p.
Proof.
  unfold charAt, array_get, str_length. intros [H0 H1].
  destruct (Z.ltb_spec p 0); [lia|].
  rewrite nth_error_app1 by lia. reflexivity.
Qed.

End CodecMore2.

(** The shape of every signature. *)
Lemma generate_interleave (k : nat) (chunks : list JS.jsstring) (id : Z) :
  List.length chunks = S k ->
  exists digits,
    List.length digits = k
    /\ Forall is_digit digits
    /\ Codec.generateStealthSignature id chunks
       = Some (interleave chunks (List.map separator digits)).
Proof.
  intros Hlen.
  destruct (intToBaseNArray_any id k) as (digits & Hrun & Hdig & Hk).
  exists (firstn k digits).
  split; [rewrite length_firstn; lia|].
  split.
  - rewrite <- (firstn_skipn k digits) in Hdig.
    apply Forall_app in Hdig. tauto.
  - apply generate_digits; assumption.
Qed.

(** X1. Whatever the id, the signature is the literal chunks in their
    order with exactly one of the six separators between neighbours: the
    encoder never alters, drops or reorders literal text. *)
Theorem signature_keeps_chunks (k : nat) (chunks : list JS.jsstring) (id : Z) :
  List.length chunks = S k ->
  id < 2 ^ 53 ->
  exists digits,
    List.length digits = k
    /\ Forall is_digit digits
    /\ Codec.generateStealthSignature id chunks
       = Some (interleave chunks (List.map separator digits)).
Proof.
  intros Hlen _. apply generate_interleave. exact Hlen.
Qed.

Lemma signature_keeps_chunks_witness :
  exists digits,
    List.length digits = 3%nat
    /\ Forall is_digit digits
    /\ Codec.generateStealthSignature 42 Codec.defaultChunks
       = Some (interleave Codec.defaultChunks (List.map separator digits)).
Proof.
  apply (signature_keeps_chunks 3 Codec.defaultChunks 42).
  - reflexivity.
  - reflexivity.
Defined.

(** X2. An id that is zero or negative is encoded as id 0: the digit loop
    does not run and the padding fills every slot with the first
    separator. *)
Theorem negative_id_encodes_zero (chunks : list JS.jsstring) (id : Z) :
  id <= 0 ->
  Codec.generateStealthSignature id chunks
  = Codec.generateStealthSignature 0 chunks.
Proof.
  intros Hid. unfold Codec.generateStealthSignature, Codec.intToBaseNArray.
  replace (Z.to_nat id) with O by lia. simpl.
  destruct (Z.gtb_spec id 0); [lia|]. reflexivity.
Qed.

Lemma negative_id_encodes_zero_witness :
  Codec.generateStealthSignature (-5) Codec.defaultChunks
  = Codec.generateStealthSignature 0 Codec.defaultChunks.
Proof. apply negative_id_encodes_zero. lia. Defined.

(** X3. Within the capacity of the slots two different ids never get the
    same signature (up to 20 slots, where 6^k is below 2^53). *)
Theorem signatures_distinct (k : nat) (chunks : list JS.jsstring) (id1 id2 : Z) :
  (k <= 20)%nat ->
  List.length chunks = S k ->
  0 <= id1 < 6 ^ Z.of_nat k ->
  0 <= id2 < 6 ^ Z.of_nat k ->
  Codec.generateStealthSignature id1 chunks
    = Codec.generateStealthSignature id2 chunks ->
  id1 = id2.
Proof.
  intros _ Hlen H1 H2 Heq.
  destruct (roundtrip_any_slots k chunks id1 Hlen H1) as (s1 & Hg1 & Hd1).
  destruct (roundtrip_any_slots k chunks id2 Hlen H2) as (s2 & Hg2 & Hd2).
  rewrite Hg1, Hg2 in Heq. injection Heq as ->. congruence.
Qed.

Lemma signatures_distinct_witness : 6 * 7 = 42.
Proof.
  apply (signatures_distinct 3 Codec.defaultChunks (6 * 7) 42).
  - lia.
  - reflexivity.
  - simpl. lia.
  - simpl. lia.
  - reflexivity.
Defined.

(** X4. Text after the signature does not disturb decoding: a generated
    signature followed by any text (the rest of a quoted reply) still
    decodes to the id. *)
Theorem decode_ignores_text_after (k : nat) (chunks : list JS.jsstring)
    (id : Z) (sig rest : JS.jsstring) :
  (k <= 20)%nat ->
  List.length chunks = S k ->
  0 <= id < 6 ^ Z.of_nat k ->
  Codec.generateStealthSignature id chunks = Some sig ->
  Codec.decodeStealthSignature (sig ++ rest) chunks = id.
Proof.
  intros Hk20 Hlen Hid Hgen.
  destruct (roundtrip_any_slots k chunks id Hlen Hid) as (sig' & Hgen' & Hdec).
  rewrite Hgen in Hgen'. injection Hgen' as <-.
  destruct (generate_interleave k chunks id Hlen) as (digits & Hk & Hdig & Hshape).
  rewrite Hgen in Hshape. injection Hshape as ->.
  rewrite <- Hdec. unfold Codec.decodeStealthSignature.
  do 2 f_equal.
  apply map_ext_in. intros p Hp.
  apply charAt_app_l.
  pose proof (separatorIndices_inside chunks 0 (List.map separator digits)) as Hin.
  rewrite length_map in Hin. specialize (Hin ltac:(lia)).
  assert (Hone : Forall (fun s => List.length s = 1%nat) (List.map separator digits)).
  { apply List.Forall_forall. intros s Hs. apply in_map_iff in Hs.
    destruct Hs as (d & <- & Hd).
    apply (separator_text_digit d).
    eapply List.Forall_forall; [exact Hdig|exact Hd]. }
  specialize (Hin Hone).
  apply (proj1 (List.Forall_forall _ _) Hin p) in Hp. lia.
Qed.

Lemma decode_ignores_text_after_witness :
  Codec.decodeStealthSignature (signature_1 ++ JS.lit " On Mon, you wrote:")
    Codec.defaultChunks = 1.
Proof.
  apply (decode_ignores_text_after 3 Codec.defaultChunks 1 signature_1).
  - lia.
  - reflexivity.
  - simpl. lia.
  - vm_compute. reflexivity.
Defined.

Section Overflow.
Import JS Codec.

Lemma digits_value_bound (ds : list Z) :
  Forall is_digit ds -> 0 <= digits_value ds < 6 ^ Z.of_nat (List.length ds).
Proof.
  induction ds as [|d ds IH] using rev_ind; intros H.
  - unfold digits_value. simpl. lia.
  - apply Forall_app in H. destruct H as [Hds Hd].
    inversion Hd as [|? ? Hd' _]; subst. unfold is_digit in Hd'.
    rewrite digits_value_snoc, length_app. simpl List.length.
    rewrite Nat2Z.inj_add, Z.pow_add_r by lia.
    change (6 ^ Z.of_nat 1) with 6. specialize (IH Hds). lia.
Qed.

(** Base-6 digit lists of one length with one value are equal. *)
Lemma digits_unique (n : nat) :
  forall ds1 ds2,
    List.length ds1 = n -> List.length ds2 = n ->
    Forall is_digit ds1 -> Forall is_digit ds2 ->
    digits_value ds1 = digits_value ds2 -> ds1 = ds2.
Proof.
  induction n as [|n IH]; intros ds1 ds2 H1 H2 Hd1 Hd2 Hv.
  - destruct ds1, ds2; try discriminate. reflexivity.
  - destruct (exists_last (l := ds1)) as (xs & x & ->);
      [intros ->; discriminate|].
    destruct (exists_last (l := ds2)) as (ys & y & ->);
      [intros ->; discriminate|].
    rewrite length_app in H1, H2. simpl in H1, H2.
    apply Forall_app in Hd1, Hd2.
    destruct Hd1 as [Hxs Hx], Hd2 as [Hys Hy].
    inversion Hx as [|? ? Hx' _]; inversion Hy as [|? ? Hy' _]; subst.
    unfold is_digit in Hx', Hy'.
    rewrite !digits_value_snoc in Hv.
    assert (x = y /\ digits_value xs = digits_value ys) as [-> Hv'] by lia.
    f_equal. apply IH; auto; lia.
Qed.

End Overflow.

(** X5. Beyond the capacity the encoder keeps the leading digits and drops
    the m low ones that do not fit: the signature of id is the signature of
    id div 6^m, and decodes to that number.  So contact 216 gets the
    signature of contact 36. *)
Theorem overflow_drops_low_digits (k : nat) (chunks : list JS.jsstring) (id : Z) :
  List.length chunks = S k ->
  6 ^ Z.of_nat k <= id < 2 ^ 53 ->
  exists (m : nat) (sig : JS.jsstring),
    (0 < m)%nat
    /\ 0 <= id / 6 ^ Z.of_nat m < 6 ^ Z.of_nat k
    /\ Codec.generateStealthSignature id chunks = Some sig
    /\ Codec.generateStealthSignature (id / 6 ^ Z.of_nat m) chunks = Some sig
    /\ Codec.decodeStealthSignature sig chunks = id / 6 ^ Z.of_nat m.
Proof.
  intros Hlen [Hid _].
  assert (Hpos : 0 < id).
  { pose proof (Z.pow_pos_nonneg 6 (Z.of_nat k) ltac:(lia) ltac:(lia)). lia. }
  destruct (intToBaseNArray_spec id k ltac:(lia))
    as (digits & Hrun & Hdig & Hval & _ & Hlong).
  destruct (Hlong Hid) as [Hk _].
  set (hi := firstn k digits). set (lo := skipn k digits).
  assert (Hsplit : digits = hi ++ lo) by (symmetry; apply firstn_skipn).
  assert (Hhi_len : List.length hi = k) by (subst hi; rewrite length_firstn; lia).
  assert (Hlo_len : (0 < List.length lo)%nat) by (subst lo; rewrite length_skipn; lia).
  pose proof Hdig as Hdig'. rewrite Hsplit in Hdig'.
  apply Forall_app in Hdig'. destruct Hdig' as [Hhi Hlo].
  pose proof (digits_value_bound hi Hhi) as Bhi. rewrite Hhi_len in Bhi.
  pose proof (digits_value_bound lo Hlo) as Blo.
  rewrite Hsplit, digits_value_app in Hval.
  set (m := List.length lo) in *.
  assert (Hdiv : id / 6 ^ Z.of_nat m = digits_value hi).
  { symmetry. apply (Z.div_unique id (6 ^ Z.of_nat m) _ (digits_value lo)); lia. }
  exists m, (interleave chunks (List.map separator hi)).
  split; [exact Hlo_len|].
  rewrite Hdiv. split; [exact Bhi|].
  assert (Hgen_id : Codec.generateStealthSignature id chunks
                    = Some (interleave chunks (List.map separator hi))).
  { apply (generate_digits k chunks id digits); auto. lia. }
  destruct (intToBaseNArray_spec (digits_value hi) k ltac:(lia))
    as (digits' & Hrun' & Hdig2 & Hval' & Hshort & _).
  specialize (Hshort ltac:(lia)).
  assert (Heq : digits' = hi).
  { apply (digits_unique k); auto. }
  subst digits'.
  assert (Hgen_v : Codec.generateStealthSignature (digits_value hi) chunks
                   = Some (interleave chunks (List.map separator hi))).
  { rewrite (generate_digits k chunks _ hi Hlen Hrun' Hhi ltac:(lia)).
    replace (firstn k hi) with hi; [reflexivity|].
    rewrite <- Hhi_len at 1. symmetry. apply firstn_all. }
  split; [exact Hgen_id|]. split; [exact Hgen_v|].
  destruct (roundtrip_any_slots k chunks (digits_value hi) Hlen ltac:(lia))
    as (sig' & Hg & Hd).
  rewrite Hgen_v in Hg. injection Hg as <-. exact Hd.
Qed.

Lemma overflow_drops_low_digits_witness :
  exists (m : nat) (sig : JS.jsstring),
    (0 < m)%nat
    /\ 0 <= 216 / 6 ^ Z.of_nat m < 6 ^ Z.of_nat 3
    /\ Codec.generateStealthSignature 216 Codec.defaultChunks = Some sig
    /\ Codec.generateStealthSignature (216 / 6 ^ Z.of_nat m) Codec.defaultChunks
       = Some sig
    /\ Codec.decodeStealthSignature sig Codec.defaultChunks = 216 / 6 ^ Z.of_nat m.
Proof.
  apply (overflow_drops_low_digits 3 Codec.defaultChunks 216).
  - reflexivity.
  - split; [simpl; lia|reflexivity].
Defined.

(** ** Robust decoding *)

Section RobustFacts.
Import JS Codec RobustDecode.
Context {A : Type}.

Lemma matching_contact_some (n : Z) (contactData : object A) :
  (exists cid c, In (cid, c) contactData /\ contact_number cid = Some n) ->
  exists cid c,
    matching_contact n contactData = Some (cid, c)
    /\ In (cid, c) contactData /\ contact_number cid = Some n.
Proof using Type.
  induction contactData as [|[k v] rest IH]; intros (cid & c & Hin & Hn).
  - destruct Hin.
  - simpl. fold (contact_number k).
    destruct (decide (contact_number k = Some n)) as [Hk|Hk].
    + exists k, v. split; [reflexivity|]. split; [left; reflexivity|exact Hk].
    + destruct Hin as [Heq|Hin]; [injection Heq as -> ->; contradiction|].
      destruct IH as (cid' & c' & Hm & Hin' & Hn'); [eauto|].
      exists cid', c'. split; [exact Hm|]. split; [right; exact Hin'|exact Hn'].
Qed.

Lemma matching_contact_none (n : Z) (contactData : object A) :
  (forall cid c, In (cid, c) contactData -> contact_number cid <> Some n) ->
  matching_contact n contactData = None.
Proof using Type.
  induction contactData as [|[k v] rest IH]; intros H; [reflexivity|].
  simpl. fold (contact_number k).
  destruct (decide (contact_number k = Some n)) as [Hk|Hk].
  - exfalso. apply (H k v); [left; reflexivity|exact Hk].
  - apply IH. intros cid c Hin. apply (H cid c). right; exact Hin.
Qed.

Lemma matching_contact_found (n : Z) (contactData : object A) (cid : jsstring) (c : A) :
  matching_contact n contactData = Some (cid, c) ->
  In (cid, c) contactData /\ contact_number cid = Some n.
Proof using Type.
  induction contactData as [|[k v] rest IH]; simpl; [discriminate|].
  fold (contact_number k).
  destruct (decide (contact_number k = Some n)) as [Hk|Hk].
  - intros H. injection H as <- <-. split; [left; reflexivity|exact Hk].
  - intros H. destruct (IH H). split; [right; assumption|assumption].
Qed.

Lemma try_variations_found (sig : jsstring) (contactData : object A)
    (variations : list (list jsstring)) (cid : jsstring) (c : A) :
  try_variations sig contactData variations = Some (cid, c) ->
  In (cid, c) contactData
  /\ exists chunks,
       In chunks variations
       /\ contact_number cid = Some (decodeStealthSignature sig chunks).
Proof using Type.
  induction variations as [|chunks rest IH]; simpl; [discriminate|].
  destruct (matching_contact (decodeStealthSignature sig chunks) contactData)
    as [[k v]|] eqn:Hm.
  - intros H. injection H as <- <-.
    destruct (matching_contact_found _ _ _ _ Hm) as [Hin Hn].
    split; [exact Hin|]. exists chunks. split; [left; reflexivity|exact Hn].
  - intros H. destruct (IH H) as (Hin & chunks' & Hc & Hn).
    split; [exact Hin|]. exists chunks'. split; [right; exact Hc|exact Hn].
Qed.

Lemma try_variations_none (sig : jsstring) (contactData : object A)
    (variations : list (list jsstring)) :
  try_variations sig contactData variations = None <->
  (forall chunks cid c,
      In chunks variations -> In (cid, c) contactData ->
      contact_number cid <> Some (decodeStealthSignature sig chunks)).
Proof using Type.
  induction variations as [|chunks rest IH]; simpl.
  - split; [intros _ ? ? ? []|reflexivity].
  - destruct (matching_contact (decodeStealthSignature sig chunks) contactData)
      as [[k v]|] eqn:Hm.
    + split; [discriminate|]. intros H. exfalso.
      destruct (matching_contact_found _ _ _ _ Hm) as [Hin Hn].
      apply (H chunks k v); auto.
    + rewrite IH. split.
      * intros H chunks' cid c [<-|Hc] Hin.
        -- intros Hn.
           destruct (matching_contact_some _ contactData
                       (ex_intro _ cid (ex_intro _ c (conj Hin Hn))))
             as (? & ? & Hsome & _).
           rewrite Hm in Hsome. discriminate.
        -- apply (H chunks' cid c); assumption.
      * intros H chunks' cid c Hc Hin. apply (H chunks' cid c); auto.
Qed.

End RobustFacts.

Section RobustComputations.
Import JS Codec RobustDecode.

Lemma in_ids216 (id : Z) : 0 <= id < 216 -> In id ids216.
Proof.
  intros H. unfold ids216. apply in_map_iff. exists (Z.to_nat id).
  split; [lia|]. apply in_seq. lia.
Qed.

Lemma readings_variation_0 :
  forallb (fun id => match readings (variation 0) id with
                     | a :: _ => a =? id
                     | _ => false
                     end) ids216 = true.
Proof. vm_compute. reflexivity. Qed.

Lemma readings_variation_1 :
  forallb (fun id => match readings (variation 1) id with
                     | a :: b :: _ => (a =? -43) && (b =? id)
                     | _ => false
                     end) ids216 = true.
Proof. vm_compute. reflexivity. Qed.

Lemma readings_variation_5 :
  forallb (fun id => match readings (variation 5) id with
                     | a :: b :: c :: d :: e :: f :: _ =>
                         (a =? -43) && (b =? -43) && (c =? -43) && (d =? -43)
                         && (e =? -43) && (f =? id)
                     | _ => false
                     end) ids216 = true.
Proof. vm_compute. reflexivity. Qed.

Lemma readings_variation_2 :
  forallb (fun id => match readings (variation 2) id with
                     | a :: _ => a =? 36 * (id / 36) - 7
                     | _ => false
                     end) ids216 = true.
Proof. vm_compute. reflexivity. Qed.

End RobustComputations.

(** X6. [robustSignatureDecode] returns a contact only if it is an entry of
    the contact data whose number is what one of the six variations decodes
    from the text, and it returns null exactly when no variation decodes to
    the number of any contact. *)
Theorem robust_decode_result {A : Type} (sig : JS.jsstring)
    (contactData : JS.object A) :
  (forall cid c,
      RobustDecode.robustSignatureDecode sig contactData = Some (cid, c) ->
      In (cid, c) contactData
      /\ exists chunks,
           In chunks RobustDecode.signatureVariations
           /\ contact_number cid = Some (Codec.decodeStealthSignature sig chunks))
  /\ (RobustDecode.robustSignatureDecode sig contactData = None <->
      forall chunks cid c,
        In chunks RobustDecode.signatureVariations -> In (cid, c) contactData ->
        contact_number cid <> Some (Codec.decodeStealthSignature sig chunks)).
Proof.
  split.
  - intros cid c H. apply (try_variations_found _ _ _ _ _ H).
  - apply try_variations_none.
Qed.

Lemma robust_decode_result_witness :
  In (JS.lit "contact_1", 7%nat) [(JS.lit "contact_1", 7%nat)]
  /\ exists chunks,
       In chunks RobustDecode.signatureVariations
       /\ contact_number (JS.lit "contact_1")
          = Some (Codec.decodeStealthSignature signature_1 chunks).
Proof.
  apply (proj1 (robust_decode_result signature_1 [(JS.lit "contact_1", 7%nat)])).
  vm_compute. reflexivity.
Defined.

(** X7. Lost white space at the edges is tolerated in three of the six
    layouts: for a signature of an id below 216 laid out as the first
    variation (as sent), as the second (first chunk without its leading
    blank) or as the sixth (every chunk trimmed), and contact data whose
    ids carry no negative number, the contact returned has the number that
    was encoded. *)
Theorem robust_decode_tolerates_trimming {A : Type} (contactData : JS.object A)
    (layout : list JS.jsstring) (id : Z) (sig : JS.jsstring) :
  In layout [variation 0; variation 1; variation 5] ->
  0 <= id < 216 ->
  Codec.generateStealthSignature id layout = Some sig ->
  (forall cid c n, In (cid, c) contactData -> contact_number cid = Some n -> 0 <= n) ->
  (exists cid c, In (cid, c) contactData /\ contact_number cid = Some id) ->
  exists cid c,
    RobustDecode.robustSignatureDecode sig contactData = Some (cid, c)
    /\ In (cid, c) contactData
    /\ contact_number cid = Some id.
Proof.
  intros Hlayout Hid Hgen Hnonneg Hhas.
  assert (Hnone : RobustDecode.matching_contact (-43) contactData = None).
  { apply matching_contact_none. intros cid c Hin Hn.
    specialize (Hnonneg cid c (-43) Hin Hn). lia. }
  destruct (matching_contact_some id contactData Hhas) as (cid & c & Hm & Hin & Hn).
  exists cid, c. split; [|split; assumption].
  pose proof (in_ids216 id Hid) as Hmem.
  unfold RobustDecode.robustSignatureDecode.
  destruct Hlayout as [<-|[<-|[<-|[]]]].
  - pose proof (proj1 (forallb_forall _ _) readings_variation_0 id Hmem) as Hr.
    unfold readings in Hr. rewrite Hgen in Hr.
    cbn [RobustDecode.signatureVariations List.map
         RobustDecode.try_variations] in *.
    apply Z.eqb_eq in Hr. rewrite Hr, Hm. reflexivity.
  - pose proof (proj1 (forallb_forall _ _) readings_variation_1 id Hmem) as Hr.
    unfold readings in Hr. rewrite Hgen in Hr.
    cbn [RobustDecode.signatureVariations List.map
         RobustDecode.try_variations] in *.
    apply andb_true_iff in Hr. destruct Hr as [Ha Hb].
    apply Z.eqb_eq in Ha, Hb. rewrite Ha, Hnone, Hb, Hm. reflexivity.
  - pose proof (proj1 (forallb_forall _ _) readings_variation_5 id Hmem) as Hr.
    unfold readings in Hr. rewrite Hgen in Hr.
    cbn [RobustDecode.signatureVariations List.map
         RobustDecode.try_variations] in *.
    repeat (apply andb_true_iff in Hr; destruct Hr as [Hr ?]).
    repeat match goal with H : (_ =? _) = true |- _ => apply Z.eqb_eq in H end.
    repeat match goal with
           | H : Codec.decodeStealthSignature sig _ = -43 |- _ =>
               rewrite H, Hnone; clear H
           end.
    match goal with
    | H : Codec.decodeStealthSignature sig _ = id |- _ => rewrite H, Hm
    end.
    reflexivity.
Qed.

Lemma robust_decode_tolerates_trimming_witness :
  exists cid c,
    RobustDecode.robustSignatureDecode
      (JS.lit "Larry Velez" ++ [124%N] ++ JS.lit " kogi.ai" ++ [124%N]
         ++ JS.lit " 212-380-1014" ++ [166%N])
      one_contact = Some (cid, c)
    /\ In (cid, c) one_contact
    /\ contact_number cid = Some 1.
Proof.
  apply (robust_decode_tolerates_trimming one_contact (variation 5) 1).
  - right. right. left. reflexivity.
  - lia.
  - vm_compute. reflexivity.
  - intros cid c n [H|[]] Hn. injection H as <- <-.
    vm_compute in Hn. injection Hn as <-. lia.
  - exists (JS.lit "contact_1"), 7%nat. split; [left; reflexivity|].
    vm_compute. reflexivity.
Defined.

(** X8. A layout that is listed is nevertheless misread: when the second
    chunk has lost its leading blank (third variation) the first variation
    is tried first, reads the first separator and two letters, and decodes
    36 * (id div 36) - 7.  For an id from 36 on that is the number of
    another contact, and if the contact data holds it, that contact is
    returned. *)
Theorem robust_decode_misattributes {A : Type} (contactData : JS.object A)
    (id : Z) (sig : JS.jsstring) :
  36 <= id < 216 ->
  Codec.generateStealthSignature id (variation 2) = Some sig ->
  (exists cid c,
      In (cid, c) contactData /\ contact_number cid = Some (36 * (id / 36) - 7)) ->
  exists cid c,
    RobustDecode.robustSignatureDecode sig contactData = Some (cid, c)
    /\ contact_number cid = Some (36 * (id / 36) - 7)
    /\ 36 * (id / 36) - 7 <> id.
Proof.
  intros Hid Hgen Hhas.
  destruct (matching_contact_some _ contactData Hhas) as (cid & c & Hm & Hin & Hn).
  exists cid, c. split; [|split; [exact Hn|]].
  - pose proof (proj1 (forallb_forall _ _) readings_variation_2 id
                  (in_ids216 id ltac:(lia))) as Hr.
    unfold readings in Hr. rewrite Hgen in Hr.
    unfold RobustDecode.robustSignatureDecode.
    cbn [RobustDecode.signatureVariations List.map
         RobustDecode.try_variations] in *.
    apply Z.eqb_eq in Hr. rewrite Hr, Hm. reflexivity.
  - Z.to_euclidean_division_equations. lia.
Qed.

Lemma robust_decode_misattributes_witness :
  exists cid c,
    RobustDecode.robustSignatureDecode
      (JS.lit " Larry Velez " ++ [166%N] ++ JS.lit "kogi.ai " ++ [124%N]
         ++ JS.lit " 212-380-1014 " ++ [124%N] ++ JS.lit " ")
      two_contacts = Some (cid, c)
    /\ contact_number cid = Some (36 * (36 / 36) - 7)
    /\ 36 * (36 / 36) - 7 <> 36.
Proof.
  apply (robust_decode_misattributes two_contacts 36).
  - lia.
  - vm_compute. reflexivity.
  - exists (JS.lit "contact_29"), 29%nat. split; [left; reflexivity|].
    vm_compute. reflexivity.
Defined.

(** ** Contact ids and their numbers *)

Section ContactIds.
Import JS.

Lemma lit_String (a : ascii) (s : string) :
  lit (String a s) = N_of_ascii a :: lit s.
Proof. reflexivity. Qed.

Local Ltac eval_units :=
  repeat match goal with
         | |- context [N_of_ascii ?a] =>
             let c := eval vm_compute in (N_of_ascii a) in
             change (N_of_ascii a) with c
         end.

Lemma parse_digits_acc (d : Decimal.uint) :
  forall acc : positive,
    parse_digits (lit (NilEmpty.string_of_uint d)) (Z.pos acc) true
    = Some (Z.pos (Pos.of_uint_acc d acc)).
Proof.
  induction d; intros acc; simpl NilEmpty.string_of_uint;
    [reflexivity| rewrite lit_String; eval_units; cbn [parse_digits];
                  match goal with
                  | |- context [is_decimal_digit ?c] =>
                      replace (is_decimal_digit c) with true by reflexivity
                  end;
                  cbv beta iota; cbn [Pos.of_uint_acc];
                  match goal with
                  | |- parse_digits _ ?z true = _ =>
                      match goal with
                      | |- _ = Some (Z.pos (Pos.of_uint_acc _ ?p)) =>
                          replace z with (Z.pos p) by lia
                      end
                  end; apply IHd ..].
Qed.

Lemma parse_digits_uint (d : Decimal.uint) :
  parse_digits (lit (NilEmpty.string_of_uint d)) 0 true
  = Some (Z.of_N (Pos.of_uint d)).
Proof.
  induction d; simpl NilEmpty.string_of_uint;
    [reflexivity| rewrite lit_String; eval_units; cbn [parse_digits];
                  match goal with
                  | |- context [is_decimal_digit ?c] =>
                      replace (is_decimal_digit c) with true by reflexivity
                  end;
                  cbv beta iota ..].
  - exact IHd.
  - apply (parse_digits_acc d 1).
  - apply (parse_digits_acc d 2).
  - apply (parse_digits_acc d 3).
  - apply (parse_digits_acc d 4).
  - apply (parse_digits_acc d 5).
  - apply (parse_digits_acc d 6).
  - apply (parse_digits_acc d 7).
  - apply (parse_digits_acc d 8).
  - apply (parse_digits_acc d 9).
Qed.

(** A decimal numeral that is not empty: [parseInt] reads all of it. *)
Lemma parseInt_uint (d : Decimal.uint) :
  d <> Decimal.Nil ->
  parseInt (lit (NilEmpty.string_of_uint d)) = Some (Z.of_N (Pos.of_uint d))
  /\ parse_digits (lit (NilEmpty.string_of_uint d)) 0 false
     = Some (Z.of_N (Pos.of_uint d)).
Proof.
  intros Hd. rewrite <- parse_digits_uint.
  destruct d; [contradiction|..];
    simpl NilEmpty.string_of_uint; rewrite lit_String; eval_units;
    split; reflexivity.
Qed.

Lemma parseInt_number_to_string (z : Z) :
  parseInt (number_to_string z) = Some z.
Proof.
  unfold number_to_string. destruct z as [|p|p]; [reflexivity|..].
  - simpl Z.to_int. simpl NilZero.string_of_int. unfold NilZero.string_of_uint.
    pose proof (DecimalPos.Unsigned.to_uint_nonnil p) as Hnn.
    pose proof (DecimalPos.Unsigned.of_to p) as Hof.
    destruct (parseInt_uint (Pos.to_uint p) Hnn) as [H _].
    destruct (Pos.to_uint p); [contradiction|..]; rewrite H, Hof; reflexivity.
  - simpl Z.to_int. simpl NilZero.string_of_int. unfold NilZero.string_of_uint.
    pose proof (DecimalPos.Unsigned.to_uint_nonnil p) as Hnn.
    pose proof (DecimalPos.Unsigned.of_to p) as Hof.
    destruct (parseInt_uint (Pos.to_uint p) Hnn) as [_ H].
    rewrite lit_String. eval_units.
    assert (Hs : forall s,
               parseInt (45%N :: s) = option_map Z.opp (parse_digits s 0 false))
      by reflexivity.
    destruct (Pos.to_uint p); [contradiction|..]; rewrite Hs, H, Hof; reflexivity.
Qed.

Lemma strip_prefix_app (p s : jsstring) : strip_prefix p (p ++ s) = Some s.
Proof.
  induction p as [|c p IH]; simpl.
  - destruct s; reflexivity.
  - rewrite N.eqb_refl. exact IH.
Qed.

Lemma replace_prefix (p r s : jsstring) : replace p r (p ++ s) = r ++ s.
Proof.
  destruct (p ++ s) eqn:E; simpl; rewrite <- E, strip_prefix_app; reflexivity.
Qed.

End ContactIds.

(** X9. The two id conventions of [recordResponse] are inverse: the contact
    id it builds for a decoded number, 'contact_' followed by the number,
    is read back as that number by
    [parseInt(id.replace('contact_', ''), 10)], for every integer a double
    holds exactly. *)
Theorem contact_id_round_trip (n : Z) :
  - 2 ^ 53 < n < 2 ^ 53 ->
  contact_number (JS.lit "contact_" ++ JS.number_to_string n) = Some n.
Proof.
  intros _. unfold contact_number.
  rewrite replace_prefix. apply parseInt_number_to_string.
Qed.

Lemma contact_id_round_trip_witness :
  contact_number (JS.lit "contact_" ++ JS.number_to_string (-43)) = Some (-43).
Proof. apply contact_id_round_trip. split; reflexivity. Defined.

(** ** Outreach ledger: invariants and the way from send to reply *)

Section WeeklyFacts.
Import JS Codec Dates Tracker.

Lemma update_week_some (w : WeekNumber) (f : WeeklyEntry -> WeeklyEntry)
    (stats stats' : list WeeklyEntry) :
  update_week w f stats = Some stats' ->
  exists pre entry post,
    stats = pre ++ entry :: post
    /\ stats' = pre ++ f entry :: post
    /\ same_week w entry = true.
Proof.
  revert stats'. induction stats as [|e rest IH]; intros stats'; simpl;
    [discriminate|].
  destruct (same_week w e) eqn:He.
  - intros H. injection H as <-. exists [], e, rest. auto.
  - destruct (update_week w f rest) as [rest'|]; [|discriminate].
    simpl. intros H. injection H as <-.
    destruct (IH rest' eq_refl) as (pre & entry & post & -> & -> & Hs).
    exists (e :: pre), entry, post. auto.
Qed.

Lemma update_week_none (w : WeekNumber) (f : WeeklyEntry -> WeeklyEntry)
    (stats : list WeeklyEntry) :
  update_week w f stats = None ->
  ~ In (wn_year w, wn_week w) (week_keys stats).
Proof.
  induction stats as [|e rest IH]; simpl; [auto|].
  destruct (same_week w e) eqn:He; [discriminate|].
  destruct (update_week w f rest); [discriminate|].
  intros _ [Heq|Hin]; [|exact (IH eq_refl Hin)].
  unfold same_week in He. injection Heq as Hy Hw.
  rewrite Hy, Hw, !Z.eqb_refl in He. discriminate.
Qed.

Lemma weekly_sent_app (l1 l2 : list WeeklyEntry) :
  weekly_sent (l1 ++ l2) = weekly_sent l1 + weekly_sent l2.
Proof. induction l1; simpl; lia. Qed.

Lemma weekly_responses_app (l1 l2 : list WeeklyEntry) :
  weekly_responses (l1 ++ l2) = weekly_responses l1 + weekly_responses l2.
Proof. induction l1; simpl; lia. Qed.

Lemma week_keys_app (l1 l2 : list WeeklyEntry) :
  week_keys (l1 ++ l2) = week_keys l1 ++ week_keys l2.
Proof. apply map_app. Qed.

Lemma weekly_after_update (w : WeekNumber) (f : WeeklyEntry -> WeeklyEntry)
    (stats stats' : list WeeklyEntry) :
  update_week w f stats = Some stats' ->
  (forall e, year (f e) = year e /\ week (f e) = week e) ->
  exists e,
    In e stats
    /\ week_keys stats' = week_keys stats
    /\ weekly_sent stats' = weekly_sent stats + (sent (f e) - sent e)
    /\ weekly_responses stats'
       = weekly_responses stats + (responses (f e) - responses e).
Proof.
  intros Hu Hf.
  destruct (update_week_some _ _ _ _ Hu) as (pre & e & post & -> & -> & _).
  exists e. split; [apply in_elt|].
  rewrite !week_keys_app, !weekly_sent_app, !weekly_responses_app.
  destruct (Hf e) as [Hy Hw].
  unfold week_keys, weekly_sent, weekly_responses.
  cbn [List.map fold_right]. rewrite Hy, Hw.
  repeat split; lia.
Qed.

End WeeklyFacts.

(** X10. In every state that the two operations produce from the empty
    tracking data the weekly rows add up: the [sent] columns sum to
    [totalSent], no (year, week) has two rows, and the [responses] columns
    sum to at most [totalResponses] (a reply in a week without a row is
    counted in the total only). *)
Theorem weekly_rows_add_up (tz : Z -> Z) (td : Tracker.TrackingData) :
  reachable tz td ->
  weekly_sent (Tracker.weeklyStats (Tracker.responseMetrics td))
    = Tracker.totalSent (Tracker.responseMetrics td)
  /\ List.NoDup (week_keys (Tracker.weeklyStats (Tracker.responseMetrics td)))
  /\ weekly_responses (Tracker.weeklyStats (Tracker.responseMetrics td))
     <= Tracker.totalResponses (Tracker.responseMetrics td).
Proof.
  induction 1 as [|td now weekNow email _ (IHs & IHk & IHr)
                  |td td' sig date cid _ (IHs & IHk & IHr) Hrun].
  - split; [reflexivity|]. split; [constructor|reflexivity].
  - unfold Tracker.recordOutreach.
    cbn [Tracker.responseMetrics Tracker.weeklyStats Tracker.totalSent
         Tracker.totalResponses].
    set (w := Tracker.getWeekNumber tz weekNow).
    destruct (Tracker.update_week w _ _) as [stats'|] eqn:Hu.
    + destruct (weekly_after_update _ _ _ _ Hu ltac:(intros e; split; reflexivity))
        as (e & _ & Hk & Hs & Hr).
      cbn [Tracker.sent Tracker.responses] in Hs, Hr.
      rewrite Hk, Hs, Hr. repeat split; [lia|exact IHk|lia].
    + apply update_week_none in Hu.
      rewrite weekly_sent_app, weekly_responses_app, week_keys_app.
      unfold weekly_sent at 2, weekly_responses at 2, week_keys at 2.
      cbn [List.map fold_right Tracker.sent Tracker.responses Tracker.year
           Tracker.week].
      repeat split; [lia| |lia].
      apply List.NoDup_app; [exact IHk| |].
      * constructor; [intros []|constructor].
      * intros k Hk [<-|[]]. exact (Hu Hk).
  - unfold Tracker.recordResponse in Hrun.
    destruct (Tracker.find_contact sig (Tracker.trackingCodes td)); [|discriminate].
    destruct (Tracker.outreachStatus td !! _); [|discriminate].
    injection Hrun as <- _.
    cbn [Tracker.responseMetrics Tracker.weeklyStats Tracker.totalSent
         Tracker.totalResponses].
    set (w := Tracker.getWeekNumber tz date).
    destruct (Tracker.update_week w _ _) as [stats'|] eqn:Hu.
    + destruct (weekly_after_update _ _ _ _ Hu ltac:(intros e; split; reflexivity))
        as (e & _ & Hk & Hs & Hr).
      cbn [Tracker.sent Tracker.responses] in Hs, Hr.
      rewrite Hk, Hs, Hr. repeat split; [lia|exact IHk|lia].
    + repeat split; [exact IHs|exact IHk|lia].
Qed.

Lemma reachable_after_reply : reachable utc after_reply.
Proof.
  apply (reach_response utc after_send after_reply signature_1 t_reply
           (JS.lit "contact_1")).
  - apply reach_outreach. apply reach_empty.
  - exact (proj1 outreach_scenario).
Qed.

Lemma weekly_rows_add_up_witness :
  weekly_sent (Tracker.weeklyStats (Tracker.responseMetrics after_reply))
    = Tracker.totalSent (Tracker.responseMetrics after_reply)
  /\ List.NoDup (week_keys (Tracker.weeklyStats (Tracker.responseMetrics after_reply)))
  /\ weekly_responses (Tracker.weeklyStats (Tracker.responseMetrics after_reply))
     <= Tracker.totalResponses (Tracker.responseMetrics after_reply).
Proof. exact (weekly_rows_add_up utc after_reply reachable_after_reply). Defined.

Section ObjectFacts.
Import JS.
Context {A : Type}.

Lemma obj_get_replace (o : object A) (k k' : jsstring) (v : A) :
  obj_get (obj_replace o k v) k'
  = match obj_get o k with
    | Some _ => if decide (k = k') then Some v else obj_get o k'
    | None => obj_get o k'
    end.
Proof using Type.
  induction o as [|[j w] rest IH]; [reflexivity|]. simpl.
  destruct (decide (j = k)) as [->|Hjk]; simpl.
  - destruct (decide (k = k')); reflexivity.
  - rewrite IH. destruct (decide (j = k')) as [->|Hjk'].
    + destruct (obj_get rest k); [|reflexivity].
      destruct (decide (k = k')); [congruence|reflexivity].
    + reflexivity.
Qed.

Lemma obj_get_insert_index (o : object A) (n : Z) (k k' : jsstring) (v : A) :
  obj_get o k = None ->
  obj_get (obj_insert_index o n k v) k'
  = if decide (k = k') then Some v else obj_get o k'.
Proof using Type.
  induction o as [|[j w] rest IH]; intros Hk; [reflexivity|].
  simpl in Hk. destruct (decide (j = k)) as [|Hjk]; [discriminate|].
  simpl. destruct (array_index j) as [m|].
  - destruct (m <? n).
    + simpl. rewrite (IH Hk).
      destruct (decide (j = k')) as [->|]; [|reflexivity].
      destruct (decide (k = k')); [congruence|reflexivity].
    + reflexivity.
  - reflexivity.
Qed.

Lemma obj_get_app (o : object A) (k k' : jsstring) (v : A) :
  obj_get o k = None ->
  obj_get (o ++ [(k, v)]) k'
  = if decide (k = k') then Some v else obj_get o k'.
Proof using Type.
  induction o as [|[j w] rest IH]; intros Hk; [reflexivity|].
  simpl in Hk. destruct (decide (j = k)) as [|Hjk]; [discriminate|].
  simpl. rewrite (IH Hk).
  destruct (decide (j = k')) as [->|]; [|reflexivity].
  destruct (decide (k = k')); [congruence|reflexivity].
Qed.

(** Reading a key after [o[key] = v]. *)
Lemma obj_get_set (o : object A) (k k' : jsstring) (v : A) :
  obj_get (obj_set o k v) k'
  = if decide (k = k') then Some v else obj_get o k'.
Proof using Type.
  unfold obj_set. destruct (obj_get o k) eqn:Hk.
  - rewrite obj_get_replace, Hk. reflexivity.
  - destruct (array_index k).
    + apply obj_get_insert_index. exact Hk.
    + apply obj_get_app. exact Hk.
Qed.

Lemma obj_get_In (o : object A) (k : jsstring) (v : A) :
  obj_get o k = Some v -> In (k, v) o.
Proof using Type.
  induction o as [|[j w] rest IH]; simpl; [discriminate|].
  destruct (decide (j = k)) as [->|].
  - intros H. injection H as ->. left; reflexivity.
  - intros H. right. exact (IH H).
Qed.

Lemma obj_set_In (o : object A) (k : jsstring) (v : A) (entry : jsstring * A) :
  In entry (obj_set o k v) -> entry = (k, v) \/ In entry o.
Proof using Type.
  unfold obj_set. destruct (obj_get o k).
  - induction o as [|[j w] rest IH]; simpl; [tauto|].
    destruct (decide (j = k)) as [->|]; simpl.
    + intros [<-|H]; auto.
    + intros [<-|H]; auto. destruct (IH H); auto.
  - destruct (array_index k) as [n|].
    + induction o as [|[j w] rest IH]; simpl.
      * intros [<-|[]]; auto.
      * destruct (array_index j) as [m|].
        -- destruct (m <? n); simpl.
           ++ intros [<-|H]; auto. destruct (IH H); auto.
           ++ intros [<-|[<-|H]]; auto.
        -- simpl. intros [<-|[<-|H]]; auto.
    + intros H. apply in_app_or in H. destruct H as [H|[<-|[]]]; auto.
Qed.

End ObjectFacts.

Section RecordFacts.
Import JS Codec Dates Tracker.

Lemma recordOutreach_codes (tz : Z -> Z) (now weekNow : Z) (email : Email)
    (td : TrackingData) :
  trackingCodes (recordOutreach tz now weekNow email td)
  = obj_set (trackingCodes td) (contactId email)
      {| tc_contactId := contactId email; tc_email := to email;
         tc_outreachDate := now; signatureChunks := defaultChunks;
         tc_category := None |}.
Proof. reflexivity. Qed.

Lemma recordResponse_parts (tz : Z -> Z) (signature : jsstring) (date : Z)
    (td td' : TrackingData) (cid : jsstring) :
  recordResponse tz signature date td = Return (td', cid) ->
  find_contact signature (trackingCodes td) = Some cid
  /\ trackingCodes td' = trackingCodes td
  /\ totalSent (responseMetrics td') = totalSent (responseMetrics td)
  /\ exists r,
       outreachStatus td !! cid = Some r
       /\ responseTimes (responseMetrics td')
          = <[cid := divide (date - lastOutreachDate r) 86400000]>
              (responseTimes (responseMetrics td)).
Proof.
  unfold recordResponse. intros H.
  destruct (find_contact signature (trackingCodes td)) as [c|]; [|discriminate].
  destruct (outreachStatus td !! c) as [r|] eqn:Hr; [|discriminate].
  injection H as <- <-. repeat split. exists r. split; [exact Hr|reflexivity].
Qed.

End RecordFacts.

(** Records and tracking codes go together in every state produced from
    the empty tracking data. *)
Lemma reachable_records_codes (tz : Z -> Z) (td : Tracker.TrackingData) :
  reachable tz td ->
  (forall key r,
      Tracker.outreachStatus td !! key = Some r ->
      1 <= Tracker.outreachCount r
      /\ exists code, JS.obj_get (Tracker.trackingCodes td) key = Some code)
  /\ (forall key code,
        In (key, code) (Tracker.trackingCodes td) ->
        Tracker.signatureChunks code = Codec.defaultChunks
        /\ Tracker.tc_contactId code = key
        /\ exists r, Tracker.outreachStatus td !! key = Some r).
Proof.
  induction 1 as [|td now weekNow email _ (IHr & IHc)
                  |td td' sig date cid _ (IHr & IHc) Hrun].
  - split.
    + intros key r Hr. cbn in Hr. rewrite lookup_empty in Hr. discriminate.
    + intros key code Hin. cbn in Hin. destruct Hin.
  - split.
    + intros key r. rewrite recordOutreach_status, recordOutreach_codes, obj_get_set.
      destruct (decide (Tracker.contactId email = key)) as [<-|Hne].
      * rewrite lookup_insert_eq. intros Hr. injection Hr as <-.
        cbn [Tracker.outreachCount]. split; [|eauto].
        destruct (Tracker.outreachStatus td !! Tracker.contactId email) as [r0|] eqn:H0;
          [|lia].
        destruct (IHr _ _ H0). lia.
      * rewrite lookup_insert_ne by exact Hne. apply IHr.
    + intros key code Hin. rewrite recordOutreach_codes in Hin.
      rewrite recordOutreach_status.
      apply obj_set_In in Hin. destruct Hin as [Heq|Hin].
      * injection Heq as -> ->. cbn [Tracker.signatureChunks Tracker.tc_contactId].
        split; [reflexivity|]. split; [reflexivity|].
        rewrite lookup_insert_eq. eauto.
      * destruct (IHc key code Hin) as (Hch & Hid & r & Hr).
        split; [exact Hch|]. split; [exact Hid|].
        destruct (decide (Tracker.contactId email = key)) as [<-|Hne].
        -- rewrite lookup_insert_eq. eauto.
        -- rewrite lookup_insert_ne by exact Hne. eauto.
  - destruct (recordResponse_status _ _ _ _ _ _ Hrun) as (r0 & Hr0 & Hst).
    destruct (recordResponse_parts _ _ _ _ _ _ Hrun) as (_ & Hcodes & _).
    rewrite Hst, Hcodes. split.
    + intros key r.
      destruct (decide (cid = key)) as [<-|Hne].
      * rewrite lookup_insert_eq. intros Hr. injection Hr as <-.
        cbn [Tracker.outreachCount]. apply (IHr cid r0 Hr0).
      * rewrite lookup_insert_ne by exact Hne. apply IHr.
    + intros key code Hin.
      destruct (IHc key code Hin) as (Hch & Hid & r & Hr).
      split; [exact Hch|]. split; [exact Hid|].
      destruct (decide (cid = key)) as [<-|Hne].
      * rewrite lookup_insert_eq. eauto.
      * rewrite lookup_insert_ne by exact Hne. eauto.
Qed.

(** X11. In every state produced from the empty tracking data, each
    outreach record counts at least one send and has a tracking code under
    the same contact id, and each tracking code carries the four default
    chunks and belongs to a contact with an outreach record. *)
Theorem records_and_codes (tz : Z -> Z) (td : Tracker.TrackingData) :
  reachable tz td ->
  (forall key r,
      Tracker.outreachStatus td !! key = Some r ->
      1 <= Tracker.outreachCount r
      /\ exists code, JS.obj_get (Tracker.trackingCodes td) key = Some code)
  /\ (forall key code,
        In (key, code) (Tracker.trackingCodes td) ->
        Tracker.signatureChunks code = Codec.defaultChunks
        /\ Tracker.tc_contactId code = key
        /\ exists r, Tracker.outreachStatus td !! key = Some r).
Proof. exact (reachable_records_codes tz td). Qed.

Lemma records_and_codes_witness :
  (forall key r,
      Tracker.outreachStatus after_reply !! key = Some r ->
      1 <= Tracker.outreachCount r
      /\ exists code, JS.obj_get (Tracker.trackingCodes after_reply) key = Some code)
  /\ (forall key code,
        In (key, code) (Tracker.trackingCodes after_reply) ->
        Tracker.signatureChunks code = Codec.defaultChunks
        /\ Tracker.tc_contactId code = key
        /\ exists r, Tracker.outreachStatus after_reply !! key = Some r).
Proof. exact (records_and_codes utc after_reply reachable_after_reply). Defined.

(** X12. In every such state the response data of a contact agree: a
    record with [responded = true] has its [responseDate] and
    [responseTime], and [responseMetrics.responseTimes] holds for each
    contact exactly the [responseTime] of its record. *)
Theorem response_data_agree (tz : Z -> Z) (td : Tracker.TrackingData) :
  reachable tz td ->
  (forall key,
      Tracker.responseTimes (Tracker.responseMetrics td) !! key
      = match Tracker.outreachStatus td !! key with
        | Some r => Tracker.responseTime r
        | None => None
        end)
  /\ (forall key r,
        Tracker.outreachStatus td !! key = Some r ->
        Tracker.responded r = true ->
        exists d t,
          Tracker.responseDate r = Some d /\ Tracker.responseTime r = Some t).
Proof.
  induction 1 as [|td now weekNow email _ (IHt & IHr)
                  |td td' sig date cid _ (IHt & IHr) Hrun].
  - split.
    + intros key. cbn. rewrite !lookup_empty. reflexivity.
    + intros key r Hr. cbn in Hr. rewrite lookup_empty in Hr. discriminate.
  - split.
    + intros key. rewrite recordOutreach_status.
      change (Tracker.responseTimes
                (Tracker.responseMetrics
                   (Tracker.recordOutreach tz now weekNow email td)))
        with (Tracker.responseTimes (Tracker.responseMetrics td)).
      rewrite IHt.
      destruct (decide (Tracker.contactId email = key)) as [<-|Hne].
      * rewrite lookup_insert_eq. cbn [Tracker.responseTime].
        destruct (Tracker.outreachStatus td !! Tracker.contactId email);
          reflexivity.
      * rewrite lookup_insert_ne by exact Hne. reflexivity.
    + intros key r. rewrite recordOutreach_status.
      destruct (decide (Tracker.contactId email = key)) as [<-|Hne].
      * rewrite lookup_insert_eq. intros Hr. injection Hr as <-.
        cbn [Tracker.responded]. discriminate.
      * rewrite lookup_insert_ne by exact Hne. apply IHr.
  - destruct (recordResponse_status _ _ _ _ _ _ Hrun) as (r0 & Hr0 & Hst).
    destruct (recordResponse_parts _ _ _ _ _ _ Hrun)
      as (_ & _ & _ & r1 & Hr1 & Htimes).
    rewrite Hr0 in Hr1. injection Hr1 as <-.
    rewrite Hst, Htimes. split.
    + intros key. destruct (decide (cid = key)) as [<-|Hne].
      * rewrite !lookup_insert_eq. reflexivity.
      * rewrite !lookup_insert_ne by exact Hne. apply IHt.
    + intros key r. destruct (decide (cid = key)) as [<-|Hne].
      * rewrite lookup_insert_eq. intros Hr _. injection Hr as <-.
        cbn [Tracker.responseDate Tracker.responseTime]. eauto.
      * rewrite lookup_insert_ne by exact Hne. apply IHr.
Qed.

Lemma response_data_agree_witness :
  (forall key,
      Tracker.responseTimes (Tracker.responseMetrics after_reply) !! key
      = match Tracker.outreachStatus after_reply !! key with
        | Some r => Tracker.responseTime r
        | None => None
        end)
  /\ (forall key r,
        Tracker.outreachStatus after_reply !! key = Some r ->
        Tracker.responded r = true ->
        exists d t,
          Tracker.responseDate r = Some d /\ Tracker.responseTime r = Some t).
Proof. exact (response_data_agree utc after_reply reachable_after_reply). Defined.

Section CountFacts.
Import JS Tracker.

Lemma count_sum_fresh (m : gmap jsstring OutreachRecord) (k : jsstring)
    (r : OutreachRecord) :
  m !! k = None -> count_sum (<[k := r]> m) = outreachCount r + count_sum m.
Proof.
  intros Hk. unfold count_sum.
  rewrite map_fold_insert_L; [reflexivity| |exact Hk].
  intros. lia.
Qed.

(** Writing one record changes the sum by the difference of the counts. *)
Lemma count_sum_insert (m : gmap jsstring OutreachRecord) (k : jsstring)
    (r : OutreachRecord) :
  count_sum (<[k := r]> m)
  = count_sum m + outreachCount r
    - match m !! k with Some r0 => outreachCount r0 | None => 0 end.
Proof.
  destruct (m !! k) as [r0|] eqn:Hk.
  - rewrite <- (insert_delete_eq m k r).
    rewrite count_sum_fresh by apply lookup_delete_eq.
    rewrite <- (insert_id m k r0 Hk) at 2.
    rewrite <- (insert_delete_eq m k r0).
    rewrite count_sum_fresh by apply lookup_delete_eq. lia.
  - rewrite count_sum_fresh by exact Hk. lia.
Qed.

End CountFacts.

(** X13. In every state produced from the empty tracking data,
    [responseMetrics.totalSent] is the sum of [outreachCount] over all
    outreach records. *)
Theorem total_sent_is_count_sum (tz : Z -> Z) (td : Tracker.TrackingData) :
  reachable tz td ->
  count_sum (Tracker.outreachStatus td)
  = Tracker.totalSent (Tracker.responseMetrics td).
Proof.
  induction 1 as [|td now weekNow email _ IH|td td' sig date cid _ IH Hrun].
  - reflexivity.
  - rewrite recordOutreach_status, count_sum_insert.
    change (Tracker.totalSent
              (Tracker.responseMetrics
                 (Tracker.recordOutreach tz now weekNow email td)))
      with (Tracker.totalSent (Tracker.responseMetrics td) + 1).
    cbn [Tracker.outreachCount].
    destruct (Tracker.outreachStatus td !! Tracker.contactId email); lia.
  - destruct (recordResponse_status _ _ _ _ _ _ Hrun) as (r0 & Hr0 & Hst).
    destruct (recordResponse_parts _ _ _ _ _ _ Hrun) as (_ & _ & Hsent & _).
    rewrite Hst, Hsent, count_sum_insert, Hr0.
    cbn [Tracker.outreachCount]. lia.
Qed.

Lemma total_sent_is_count_sum_witness :
  count_sum (Tracker.outreachStatus after_reply)
  = Tracker.totalSent (Tracker.responseMetrics after_reply).
Proof. exact (total_sent_is_count_sum utc after_reply reachable_after_reply). Defined.

Section Correlation.
Import JS Codec Tracker.

(** The loop of [recordResponse] over codes that all carry the default
    chunks: whichever key matches first, the contact id built is the one
    of the decoded number. *)
Lemma find_contact_default (sig : jsstring) (codes : object TrackingCode) (n : Z) :
  (forall key code, In (key, code) codes -> signatureChunks code = defaultChunks) ->
  decodeStealthSignature sig defaultChunks = n ->
  (exists key code, In (key, code) codes /\ contact_number key = Some n) ->
  find_contact sig codes = Some (lit "contact_" ++ number_to_string n).
Proof.
  intros Hall Hdec. induction codes as [|[id codeData] rest IH].
  - intros (key & code & [] & _).
  - intros (key & code & Hin & Hnum). cbn [find_contact].
    rewrite (Hall id codeData) by (left; reflexivity). rewrite Hdec.
    destruct (decide (Some n = parseInt (replace (lit "contact_") [] id)))
      as [_|Hne]; [reflexivity|].
    apply IH.
    + intros key' code' Hin'. apply (Hall key' code'). right. exact Hin'.
    + destruct Hin as [Heq|Hin].
      * injection Heq as -> ->. unfold contact_number in Hnum. congruence.
      * exists key, code. split; assumption.
Qed.

(** The same loop never resolves to a number that no key carries. *)
Lemma find_contact_default_none (sig : jsstring) (codes : object TrackingCode) :
  (forall key code, In (key, code) codes -> signatureChunks code = defaultChunks) ->
  (forall key code, In (key, code) codes ->
     contact_number key <> Some (decodeStealthSignature sig defaultChunks)) ->
  find_contact sig codes = None.
Proof.
  intros Hall Hno. induction codes as [|[id codeData] rest IH]; [reflexivity|].
  cbn [find_contact].
  rewrite (Hall id codeData) by (left; reflexivity).
  destruct (decide (Some (decodeStealthSignature sig defaultChunks)
                    = parseInt (replace (lit "contact_") [] id))) as [Heq|_].
  - exfalso. apply (Hno id codeData); [left; reflexivity|].
    unfold contact_number. symmetry. exact Heq.
  - apply IH.
    + intros key code Hin. apply (Hall key code). right. exact Hin.
    + intros key code Hin. apply (Hno key code). right. exact Hin.
Qed.

End Correlation.

(** X14. Send, then reply.  In every state produced from the empty tracking
    data in which the contact 'contact_n' (n in 0..215) has an outreach
    record, [recordResponse] on the signature generated for n with the
    default chunks returns 'contact_n' and writes into that record
    [responded = true], the response date, and the days since its last
    outreach; whatever other contacts were recorded before or after. *)
Theorem reply_reaches_sender (tz : Z -> Z) (td : Tracker.TrackingData) (n date : Z)
    (sig : JS.jsstring) (r : Tracker.OutreachRecord) :
  reachable tz td ->
  0 <= n < 216 ->
  Codec.generateStealthSignature n Codec.defaultChunks = Some sig ->
  Tracker.outreachStatus td !! contact_id n = Some r ->
  exists td',
    Tracker.recordResponse tz sig date td
      = Tracker.Return (td', contact_id n)
    /\ Tracker.outreachStatus td' =
         <[contact_id n :=
             {| Tracker.lastOutreachDate := Tracker.lastOutreachDate r;
                Tracker.outreachCount := Tracker.outreachCount r;
                Tracker.lastEmailSubject := Tracker.lastEmailSubject r;
                Tracker.lastEmailTo := Tracker.lastEmailTo r;
                Tracker.responded := true;
                Tracker.responseDate := Some date;
                Tracker.responseTime :=
                  Some (Tracker.divide (date - Tracker.lastOutreachDate r) 86400000) |}]>
           (Tracker.outreachStatus td).
Proof.
  intros Hreach Hn Hgen Hr. unfold contact_id in *.
  destruct (reachable_records_codes tz td Hreach) as (Hrec & Hcodes).
  destruct (roundtrip_any_slots 3 Codec.defaultChunks n eq_refl Hn)
    as (sig' & Hgen' & Hdec).
  rewrite Hgen in Hgen'. injection Hgen' as <-.
  destruct (Hrec _ _ Hr) as (_ & code & Hcode).
  assert (Hfind : Tracker.find_contact sig (Tracker.trackingCodes td)
                  = Some (JS.lit "contact_" ++ JS.number_to_string n)).
  { apply find_contact_default.
    - intros key c Hin. apply (Hcodes key c Hin).
    - exact Hdec.
    - exists (JS.lit "contact_" ++ JS.number_to_string n), code.
      split; [apply obj_get_In; exact Hcode|].
      unfold contact_number. rewrite replace_prefix.
      apply parseInt_number_to_string. }
  unfold Tracker.recordResponse. rewrite Hfind, Hr.
  eexists. split; reflexivity.
Qed.

Lemma reply_reaches_sender_witness :
  exists td',
    Tracker.recordResponse utc signature_1 t_reply after_send
      = Tracker.Return (td', contact_id 1)
    /\ Tracker.outreachStatus td' =
         <[contact_id 1 :=
             {| Tracker.lastOutreachDate := t_sent;
                Tracker.outreachCount := 1;
                Tracker.lastEmailSubject := JS.lit "Hello";
                Tracker.lastEmailTo := JS.lit "a@b.com";
                Tracker.responded := true;
                Tracker.responseDate := Some t_reply;
                Tracker.responseTime :=
                  Some (Tracker.divide (t_reply - t_sent) 86400000) |}]>
           (Tracker.outreachStatus after_send).
Proof.
  apply (reply_reaches_sender utc after_send 1 t_reply signature_1
           {| Tracker.lastOutreachDate := t_sent;
              Tracker.outreachCount := 1;
              Tracker.lastEmailSubject := JS.lit "Hello";
              Tracker.lastEmailTo := JS.lit "a@b.com";
              Tracker.responded := false;
              Tracker.responseDate := None;
              Tracker.responseTime := None |}).
  - apply reach_outreach. apply reach_empty.
  - lia.
  - reflexivity.
  - reflexivity.
Defined.

(** X15. A reply to nobody.  In every state produced from the empty
    tracking data, when no recorded contact id carries the number that the
    signature decodes to under the default chunks, [recordResponse] throws
    'Could not decode contact ID from signature'. *)
Theorem unknown_reply_rejected (tz : Z -> Z) (td : Tracker.TrackingData) (date : Z)
    (sig : JS.jsstring) :
  reachable tz td ->
  (forall key r,
      Tracker.outreachStatus td !! key = Some r ->
      contact_number key
        <> Some (Codec.decodeStealthSignature sig Codec.defaultChunks)) ->
  Tracker.recordResponse tz sig date td = Tracker.Throw Tracker.CouldNotDecode.
Proof.
  intros Hreach Hno.
  destruct (reachable_records_codes tz td Hreach) as (_ & Hcodes).
  unfold Tracker.recordResponse. rewrite find_contact_default_none; [reflexivity| |].
  - intros key code Hin. apply (Hcodes key code Hin).
  - intros key code Hin. destruct (Hcodes key code Hin) as (_ & _ & r & Hr).
    apply (Hno key r Hr).
Qed.

Lemma unknown_reply_rejected_witness :
  Tracker.recordResponse utc signature_2 t_reply after_send
  = Tracker.Throw Tracker.CouldNotDecode.
Proof.
  apply (unknown_reply_rejected utc after_send t_reply signature_2).
  - apply reach_outreach. apply reach_empty.
  - intros key r. unfold after_send. rewrite recordOutreach_status.
    intros H. apply lookup_insert_Some in H.
    destruct H as [[<- _]|[_ H]].
    + vm_compute. discriminate.
    + cbn in H. rewrite lookup_empty in H. discriminate.
Defined.

(** ** Week keys of [getWeekNumber] *)

Section WeekKeyFacts.
Import JS Dates Tracker IsoWeek.

Local Ltac div_lia := Z.to_euclidean_division_equations; lia.

(** The key in terms of the Thursday of the local date's week. *)
Lemma getWeekNumber_key (tz : Z -> Z) (date : Z) :
  100 < getFullYear tz date ->
  getWeekNumber tz date =
    {| wn_year := YearFromDay (thursday_of (Day (LocalTime tz date)));
       wn_week :=
         (thursday_of (Day (LocalTime tz date))
          - DayFromYear (YearFromDay (thursday_of (Day (LocalTime tz date))))) / 7
         + 1 |}.
Proof.
  intros Hy. rewrite (getWeekNumber_thursday tz date Hy). cbv zeta.
  rewrite thursday_of_day. reflexivity.
Qed.

(** Thursdays are the day numbers divisible by 7, and the Thursday of a
    week is at most three days from each of its days. *)
Lemma thursday_of_multiple (day : Z) :
  thursday_of day = 7 * ((day + 3) / 7) /\ day - 3 <= thursday_of day <= day + 3.
Proof. unfold thursday_of, monday_of, iso_weekday. div_lia. Qed.

Lemma DayFromYear_step (y : Z) :
  DayFromYear y + 365 <= DayFromYear (y + 1) <= DayFromYear y + 366.
Proof. rewrite DayFromYear_succ. destruct (DaysInYear_cases y); lia. Qed.

End WeekKeyFacts.

(** X16. For a date after year 100, the week of the key is between 1 and
    53 and the year of the key differs from the local calendar year by at
    most one. *)
Theorem week_number_range (tz : Z -> Z) (date : Z) :
  100 < Dates.getFullYear tz date ->
  1 <= Tracker.wn_week (Tracker.getWeekNumber tz date) <= 53
  /\ Dates.getFullYear tz date - 1
     <= Tracker.wn_year (Tracker.getWeekNumber tz date)
     <= Dates.getFullYear tz date + 1.
Proof.
  intros Hy. rewrite (getWeekNumber_key tz date Hy).
  cbn [Tracker.wn_week Tracker.wn_year].
  unfold Dates.getFullYear, Dates.YearFromTime.
  set (day := Dates.Day (Dates.LocalTime tz date)).
  destruct (thursday_of_multiple day) as (_ & Hnear).
  set (thu := IsoWeek.thursday_of day) in *.
  pose proof (YearFromDay_bounds thu) as Hthu.
  pose proof (YearFromDay_bounds day) as Hday.
  pose proof (DayFromYear_step (Dates.YearFromDay thu)) as Hstep.
  split.
  - Z.to_euclidean_division_equations; lia.
  - split.
    + assert (H : Dates.YearFromDay day - 1 <= Dates.YearFromDay thu);
        [|lia].
      apply YearFromDay_lower.
      pose proof (DayFromYear_step (Dates.YearFromDay day - 1)) as H1.
      replace (Dates.YearFromDay day - 1 + 1) with (Dates.YearFromDay day)
        in H1 by lia.
      lia.
    + destruct (Z.le_gt_cases (Dates.YearFromDay thu) (Dates.YearFromDay day + 1))
        as [Hle|Hgt]; [lia|].
      pose proof (DayFromYear_mono (Dates.YearFromDay day + 2)
                    (Dates.YearFromDay thu) ltac:(lia)) as Hm.
      pose proof (DayFromYear_step (Dates.YearFromDay day + 1)) as H1.
      replace (Dates.YearFromDay day + 1 + 1) with (Dates.YearFromDay day + 2)
        in H1 by lia.
      lia.
Qed.

(** 2021-01-03T12:00Z, a Sunday: week 53 of 2020. *)
Lemma week_number_range_witness :
  1 <= Tracker.wn_week (Tracker.getWeekNumber utc 1609675200000) <= 53
  /\ Dates.getFullYear utc 1609675200000 - 1
     <= Tracker.wn_year (Tracker.getWeekNumber utc 1609675200000)
     <= Dates.getFullYear utc 1609675200000 + 1.
Proof. apply (week_number_range utc 1609675200000). vm_compute. reflexivity. Defined.

(** X17. Two dates after year 100 get the same key exactly when their local
    dates lie in the same week from Monday to Sunday: the weekly rows of
    the tracker are the calendar weeks. *)
Theorem week_number_same_week (tz : Z -> Z) (date1 date2 : Z) :
  100 < Dates.getFullYear tz date1 ->
  100 < Dates.getFullYear tz date2 ->
  Tracker.getWeekNumber tz date1 = Tracker.getWeekNumber tz date2
  <-> IsoWeek.monday_of (Dates.Day (Dates.LocalTime tz date1))
      = IsoWeek.monday_of (Dates.Day (Dates.LocalTime tz date2)).
Proof.
  intros Hy1 Hy2.
  rewrite (getWeekNumber_key tz date1 Hy1), (getWeekNumber_key tz date2 Hy2).
  set (day1 := Dates.Day (Dates.LocalTime tz date1)).
  set (day2 := Dates.Day (Dates.LocalTime tz date2)).
  destruct (thursday_of_multiple day1) as (Hm1 & _).
  destruct (thursday_of_multiple day2) as (Hm2 & _).
  split.
  - intros Hkey. injection Hkey as Hyear Hweek.
    rewrite <- Hyear in Hweek.
    assert (IsoWeek.thursday_of day1 = IsoWeek.thursday_of day2).
    { set (jan1 := Dates.DayFromYear (Dates.YearFromDay (IsoWeek.thursday_of day1)))
        in *.
      rewrite Hm1, Hm2 in *.
      Z.to_euclidean_division_equations; lia. }
    unfold IsoWeek.thursday_of in *. lia.
  - intros Hmon.
    assert (H : IsoWeek.thursday_of day1 = IsoWeek.thursday_of day2)
      by (unfold IsoWeek.thursday_of; lia).
    rewrite H. reflexivity.
Qed.

(** Monday 2024-12-30 and Sunday 2025-01-05, both at noon. *)
Lemma week_number_same_week_witness :
  Tracker.getWeekNumber utc 1735560000000 = Tracker.getWeekNumber utc 1736078400000
  <-> IsoWeek.monday_of (Dates.Day (Dates.LocalTime utc 1735560000000))
      = IsoWeek.monday_of (Dates.Day (Dates.LocalTime utc 1736078400000)).
Proof.
  apply (week_number_same_week utc 1735560000000 1736078400000);
    vm_compute; reflexivity.
Defined.

(** ** The entity map of the knowledge graph *)

Section ObjectOrder.
Import JS.
Context {A : Type}.

Lemma obj_get_None_keys (o : object A) (k : jsstring) :
  obj_get o k = None <-> ~ In k (keys o).
Proof using Type.
  induction o as [|[j w] rest IH]; simpl.
  - tauto.
  - destruct (decide (j = k)) as [->|Hne].
    + split; [discriminate|]. intros H. exfalso. apply H. left. reflexivity.
    + rewrite IH. split.
      * intros H [Heq|Hin]; [congruence|contradiction].
      * intros H Hin. apply H. right. exact Hin.
Qed.

Lemma obj_get_Some_keys (o : object A) (k : jsstring) (v : A) :
  obj_get o k = Some v -> In k (keys o).
Proof using Type.
  intros H. apply obj_get_In in H.
  apply (in_map fst) in H. exact H.
Qed.

Lemma obj_replace_keys (o : object A) (k : jsstring) (v : A) :
  keys (obj_replace o k v) = keys o.
Proof using Type.
  induction o as [|[j w] rest IH]; [reflexivity|]. simpl.
  destruct (decide (j = k)); simpl; [reflexivity|]. f_equal. exact IH.
Qed.

Lemma obj_replace_split (o : object A) (k : jsstring) (v old : A) :
  obj_get o k = Some old ->
  exists before after,
    o = before ++ (k, old) :: after
    /\ obj_replace o k v = before ++ (k, v) :: after
    /\ ~ In k (keys before).
Proof using Type.
  induction o as [|[j w] rest IH]; simpl; [discriminate|].
  destruct (decide (j = k)) as [->|Hne].
  - intros H. injection H as ->. exists [], rest. simpl. tauto.
  - intros H. destruct (IH H) as (before & after & -> & Hrep & Hnot).
    exists ((j, w) :: before), after. simpl. rewrite Hrep.
    split; [reflexivity|]. split; [reflexivity|].
    intros [Heq|Hin]; [congruence|contradiction].
Qed.

Lemma obj_insert_index_perm (o : object A) (n : Z) (k : jsstring) (v : A) :
  Permutation (obj_insert_index o n k v) ((k, v) :: o).
Proof using Type.
  induction o as [|[j w] rest IH]; simpl; [reflexivity|].
  destruct (array_index j) as [m|]; [|reflexivity].
  destruct (m <? n); [|reflexivity].
  rewrite IH. apply perm_swap.
Qed.

(** A new key joins the others. *)
Lemma obj_set_fresh_perm (o : object A) (k : jsstring) (v : A) :
  obj_get o k = None -> Permutation (obj_set o k v) ((k, v) :: o).
Proof using Type.
  intros H. unfold obj_set. rewrite H.
  destruct (array_index k).
  - apply obj_insert_index_perm.
  - rewrite Permutation_app_comm. reflexivity.
Qed.

Lemma obj_set_keys_NoDup (o : object A) (k : jsstring) (v : A) :
  List.NoDup (keys o) -> List.NoDup (keys (obj_set o k v)).
Proof using Type.
  intros Hnd. destruct (obj_get o k) as [old|] eqn:Hk.
  - unfold obj_set. rewrite Hk, obj_replace_keys. exact Hnd.
  - apply (Permutation_NoDup (l := k :: keys o)).
    + symmetry. change (k :: keys o) with (keys ((k, v) :: o)).
      unfold keys. apply Permutation_map. apply obj_set_fresh_perm. exact Hk.
    + constructor; [|exact Hnd]. apply obj_get_None_keys. exact Hk.
Qed.

(** A key that is not an array index goes to the end. *)
Lemma obj_set_fresh_last (o : object A) (k : jsstring) (v : A) :
  ~ In k (keys o) -> is_array_index k = false -> obj_set o k v = o ++ [(k, v)].
Proof using Type.
  intros Hk Hidx. unfold obj_set.
  rewrite (proj2 (obj_get_None_keys o k) Hk).
  unfold is_array_index in Hidx. destruct (array_index k); [discriminate|reflexivity].
Qed.

End ObjectOrder.

Section StoreFacts.
Import JS Graph Store.

Lemma addEntity_Done (entity : Entity) (s s' : store) :
  addEntity entity s = Done s' ->
  id entity <> [] /\ id entity <> lit "__proto__"
  /\ s' = assign_entity s (id entity) entity.
Proof.
  unfold addEntity. destruct (id entity) as [|c rest] eqn:Hid;
    cbn [truthy negb]; [discriminate|].
  case_bool_decide as Hne; [discriminate|].
  intros H. injection H as <-. repeat split; [discriminate|exact Hne].
Qed.

Lemma addEntity_valid (entity : Entity) (s : store) :
  id entity <> [] -> id entity <> lit "__proto__" ->
  addEntity entity s = Done (assign_entity s (id entity) entity).
Proof.
  intros Hne Hproto. unfold addEntity.
  destruct (id entity) as [|c rest] eqn:Hid; [congruence|]. cbn [truthy negb].
  case_bool_decide; [contradiction|]. reflexivity.
Qed.

Lemma addRelationship_Done (a t b : jsstring) (s s' : store) :
  addRelationship a t b s = Done s' ->
  missing s a = false /\ missing s b = false
  /\ s' = {| entities := entities s;
             relationships :=
               relationships s ++ [{| from := a; relationType := t; to := b |}] |}.
Proof.
  unfold addRelationship.
  destruct (missing s a); [discriminate|].
  destruct (missing s b); [discriminate|].
  intros H. injection H as <-. repeat split.
Qed.

Lemma updateEntityObservation_Done (entityId t : jsstring) (newData : Patch)
    (s s' : store) :
  updateEntityObservation entityId t newData s = Done s' ->
  exists entity,
    obj_get (entities s) entityId = Some entity
    /\ s' = assign_entity s entityId
              (with_observations entity
                 (match List.find (is_type t) (observations entity) with
                  | Some _ =>
                      update_first (is_type t) (assign newData)
                        (observations entity)
                  | None => observations entity ++ [spread t newData]
                  end)).
Proof.
  unfold updateEntityObservation, read.
  destruct (obj_get (entities s) entityId) as [entity|].
  - intros H. exists entity. split; [reflexivity|].
    destruct (List.find (is_type t) (observations entity));
      injection H as <-; reflexivity.
  - destruct (bool_decide (entityId ∈ prototype_keys)); discriminate.
Qed.

(** Reading after an assignment to the map. *)
Lemma read_assign_entity (s : store) (k k' : jsstring) (entity : Entity) :
  read (assign_entity s k entity) k'
  = if decide (k = k') then Own entity else read s k'.
Proof.
  unfold read, assign_entity. cbn [entities]. rewrite obj_get_set.
  destruct (decide (k = k')); reflexivity.
Qed.

Lemma missing_assign_entity (s : store) (k k' : jsstring) (entity : Entity) :
  missing s k' = false -> missing (assign_entity s k entity) k' = false.
Proof.
  unfold missing. rewrite read_assign_entity.
  destruct (decide (k = k')); [reflexivity|auto].
Qed.

(** Every entry of a built store sits under the id of its entity, ids are
    not empty, and no key occurs twice. *)
Lemma built_keys (s : store) :
  built s ->
  List.NoDup (keys (entities s))
  /\ forall key entity,
       In (key, entity) (entities s) ->
       id entity = key /\ key <> [] /\ key <> lit "__proto__".
Proof.
  induction 1 as [|s s' entity _ (IHnd & IHid) Hrun
                  |s s' a t b _ IH Hrun
                  |s s' entityId t newData _ (IHnd & IHid) Hrun].
  - split; [constructor|]. intros key entity [].
  - destruct (addEntity_Done _ _ _ Hrun) as (Hne & Hproto & ->).
    cbn [assign_entity entities]. split.
    + apply obj_set_keys_NoDup. exact IHnd.
    + intros key e Hin. apply obj_set_In in Hin.
      destruct Hin as [Heq|Hin]; [|exact (IHid key e Hin)].
      injection Heq as -> ->. repeat split; assumption.
  - destruct (addRelationship_Done _ _ _ _ _ Hrun) as (_ & _ & ->). exact IH.
  - destruct (updateEntityObservation_Done _ _ _ _ _ Hrun)
      as (entity & Hget & ->).
    cbn [assign_entity entities]. split.
    + apply obj_set_keys_NoDup. exact IHnd.
    + intros key e Hin. apply obj_set_In in Hin.
      destruct Hin as [Heq|Hin]; [|exact (IHid key e Hin)].
      injection Heq as -> ->. cbn [with_observations id].
      apply (IHid entityId entity). apply obj_get_In. exact Hget.
Qed.

Lemma built_relationships (s : store) :
  built s ->
  forall rel,
    In rel (relationships s) ->
    missing s (from rel) = false /\ missing s (to rel) = false.
Proof.
  induction 1 as [|s s' entity _ IH Hrun
                  |s s' a t b _ IH Hrun
                  |s s' entityId t newData _ IH Hrun].
  - intros rel [].
  - destruct (addEntity_Done _ _ _ Hrun) as (_ & _ & ->).
    intros rel Hin. destruct (IH rel Hin) as (Hf & Ht).
    split; apply missing_assign_entity; assumption.
  - destruct (addRelationship_Done _ _ _ _ _ Hrun) as (Ha & Hb & ->).
    cbn [relationships]. intros rel Hin. apply in_app_or in Hin.
    destruct Hin as [Hin|[<-|[]]].
    + exact (IH rel Hin).
    + split; assumption.
  - destruct (updateEntityObservation_Done _ _ _ _ _ Hrun)
      as (entity & _ & ->).
    intros rel Hin. destruct (IH rel Hin) as (Hf & Ht).
    split; apply missing_assign_entity; assumption.
Qed.

Lemma missing_false (s : store) (key : jsstring) :
  missing s key = false ->
  (exists entity, In (key, entity) (entities s)) \/ In key prototype_keys.
Proof.
  unfold missing, read.
  destruct (obj_get (entities s) key) as [entity|] eqn:Hget.
  - intros _. left. exists entity. apply obj_get_In. exact Hget.
  - case_bool_decide as Hin; [|discriminate].
    intros _. right. apply list_elem_of_In. exact Hin.
Qed.

End StoreFacts.

Section StoreFacts2.
Import JS Graph Store.

Lemma obj_get_NoDup_In {A : Type} (o : object A) (k : jsstring) (v : A) :
  List.NoDup (keys o) -> In (k, v) o -> obj_get o k = Some v.
Proof.
  induction o as [|[j w] rest IH]; simpl; [tauto|].
  intros Hnd Hin. apply List.NoDup_cons_iff in Hnd. destruct Hnd as (Hj & Hnd).
  destruct (decide (j = k)) as [->|Hne].
  - destruct Hin as [Heq|Hin]; [congruence|].
    exfalso. apply Hj. apply (in_map fst) in Hin. exact Hin.
  - destruct Hin as [Heq|Hin]; [congruence|]. exact (IH Hnd Hin).
Qed.

Lemma ada_store_built : built ada_store.
Proof.
  apply (built_addRelationship (assign_entity empty (lit "contact_1") ada)
           ada_store (lit "contact_1") (lit "knows") (lit "contact_1")).
  - apply (built_addEntity empty _ ada); [apply built_empty|reflexivity].
  - reflexivity.
Qed.

(** A relationship between two names that no entity has: the check of
    [addRelationship] reads inherited properties. *)
Example relationship_between_inherited_names :
  addRelationship (lit "toString") (lit "knows") (lit "constructor") empty
  = Done {| entities := [];
            relationships :=
              [{| from := lit "toString"; relationType := lit "knows";
                  to := lit "constructor" |}] |}.
Proof. vm_compute. reflexivity. Qed.

End StoreFacts2.

(** X18. In every store that the methods build from the empty one, the
    entities that [saveToFiles] writes have pairwise distinct ids, none of
    them empty, and reading the map at the id of one of them gives that
    entity. *)
Theorem saved_entities_keyed_by_id (s : Store.store) :
  built s ->
  List.NoDup (List.map Graph.id (fst (Store.saveToFiles s)))
  /\ forall entity,
       In entity (fst (Store.saveToFiles s)) ->
       Graph.id entity <> [] /\ Store.read s (Graph.id entity) = Store.Own entity.
Proof.
  intros Hb. destruct (built_keys s Hb) as (Hnd & Hid).
  cbn [Store.saveToFiles fst]. split.
  - rewrite List.map_map.
    replace (List.map (fun x => Graph.id (snd x)) (Store.entities s))
      with (keys (Store.entities s)); [exact Hnd|].
    unfold keys. apply List.map_ext_in. intros [k e] Hin.
    symmetry. apply (Hid k e Hin).
  - intros entity Hin. apply List.in_map_iff in Hin.
    destruct Hin as ([k e] & Heq & Hin). cbn [snd] in Heq. subst e.
    destruct (Hid k entity Hin) as (Hk & Hne & _). rewrite Hk.
    split; [exact Hne|].
    unfold Store.read. rewrite (obj_get_NoDup_In _ _ _ Hnd Hin). reflexivity.
Qed.

Lemma saved_entities_keyed_by_id_witness :
  List.NoDup (List.map Graph.id (fst (Store.saveToFiles ada_store)))
  /\ forall entity,
       In entity (fst (Store.saveToFiles ada_store)) ->
       Graph.id entity <> [] /\ Store.read ada_store (Graph.id entity) = Store.Own entity.
Proof. exact (saved_entities_keyed_by_id ada_store ada_store_built). Defined.

(** X19. In every such store both ends of every relationship either are
    ids of entities of the store or are property names of
    [Object.prototype]: nothing removes an entity, and the existence check
    of [addRelationship] lets inherited names through. *)
Theorem relationship_ends_exist (s : Store.store) (rel : Graph.Relationship) :
  built s ->
  In rel (Store.relationships s) ->
  ((exists entity,
       In entity (fst (Store.saveToFiles s)) /\ Graph.id entity = Graph.from rel)
   \/ In (Graph.from rel) Store.prototype_keys)
  /\ ((exists entity,
         In entity (fst (Store.saveToFiles s)) /\ Graph.id entity = Graph.to rel)
      \/ In (Graph.to rel) Store.prototype_keys).
Proof.
  intros Hb Hin. destruct (built_keys s Hb) as (_ & Hid).
  destruct (built_relationships s Hb rel Hin) as (Hf & Ht).
  cbn [Store.saveToFiles fst].
  split.
  - destruct (missing_false s _ Hf) as [(entity & He)|Hp]; [left|right; exact Hp].
    exists entity. split; [|apply (Hid _ _ He)].
    apply (in_map snd) in He. exact He.
  - destruct (missing_false s _ Ht) as [(entity & He)|Hp]; [left|right; exact Hp].
    exists entity. split; [|apply (Hid _ _ He)].
    apply (in_map snd) in He. exact He.
Qed.

Lemma relationship_ends_exist_witness :
  ((exists entity,
       In entity (fst (Store.saveToFiles ada_store))
       /\ Graph.id entity = Graph.from knows_self)
   \/ In (Graph.from knows_self) Store.prototype_keys)
  /\ ((exists entity,
         In entity (fst (Store.saveToFiles ada_store))
         /\ Graph.id entity = Graph.to knows_self)
      \/ In (Graph.to knows_self) Store.prototype_keys).
Proof.
  apply (relationship_ends_exist ada_store knows_self ada_store_built).
  left. reflexivity.
Defined.

(** X20. A relationship that [addRelationship] accepts is appended: the
    outgoing relationships of its source and the incoming ones of its
    target, queried with its type, gain it as their last element, also
    when an equal relationship is already stored; the entities stay. *)
Theorem added_relationship_is_found (a t b : JS.jsstring) (s s' : Store.store) :
  Store.addRelationship a t b s = Store.Done s' ->
  Store.findOutgoingRelationships a (Some t) s'
  = Store.findOutgoingRelationships a (Some t) s
      ++ [{| Graph.from := a; Graph.relationType := t; Graph.to := b |}]
  /\ Store.findIncomingRelationships b (Some t) s'
     = Store.findIncomingRelationships b (Some t) s
         ++ [{| Graph.from := a; Graph.relationType := t; Graph.to := b |}]
  /\ Store.entities s' = Store.entities s.
Proof.
  intros Hrun. destruct (addRelationship_Done _ _ _ _ _ Hrun) as (_ & _ & ->).
  unfold Store.findOutgoingRelationships, Store.findIncomingRelationships.
  cbn [Store.relationships Store.entities].
  rewrite !List.filter_app. cbn [List.filter Graph.from Graph.to Graph.relationType].
  rewrite !bool_decide_eq_true_2 by reflexivity.
  cbn [negb]. rewrite andb_false_r. repeat split.
Qed.

Lemma added_relationship_is_found_witness :
  Store.findOutgoingRelationships (JS.lit "contact_1") (Some (JS.lit "knows"))
    {| Store.entities := Store.entities ada_store;
       Store.relationships := [knows_self; knows_self] |}
  = Store.findOutgoingRelationships (JS.lit "contact_1") (Some (JS.lit "knows"))
      ada_store ++ [knows_self]
  /\ Store.findIncomingRelationships (JS.lit "contact_1") (Some (JS.lit "knows"))
       {| Store.entities := Store.entities ada_store;
          Store.relationships := [knows_self; knows_self] |}
     = Store.findIncomingRelationships (JS.lit "contact_1") (Some (JS.lit "knows"))
         ada_store ++ [knows_self]
  /\ Store.entities
       {| Store.entities := Store.entities ada_store;
          Store.relationships := [knows_self; knows_self] |}
     = Store.entities ada_store.
Proof.
  apply (added_relationship_is_found (JS.lit "contact_1") (JS.lit "knows")
           (JS.lit "contact_1") ada_store).
  reflexivity.
Defined.

(** X21. [addEntities] is not atomic: when the first entity without an id
    comes after entities with usable ids, the call throws 'Entity must
    have an id property.' with those earlier entities added and none of
    the later ones. *)
Theorem addEntities_stops_at_missing_id (good rest : list Graph.Entity)
    (bad : Graph.Entity) (s : Store.store) :
  Forall (fun entity => Graph.id entity <> [] /\ Graph.id entity <> JS.lit "__proto__")
    good ->
  Graph.id bad = [] ->
  exists s',
    Store.addEntities good s = Store.Done s'
    /\ Store.addEntities (good ++ bad :: rest) s
       = Store.Throw Store.EntityMustHaveId s'.
Proof.
  intros Hgood Hbad. revert s.
  induction Hgood as [|entity good (Hne & Hproto) _ IH]; intros s.
  - exists s. split; [reflexivity|].
    cbn [app Store.addEntities]. unfold Store.addEntity. rewrite Hbad. reflexivity.
  - cbn [app Store.addEntities].
    rewrite (addEntity_valid entity s Hne Hproto). apply IH.
Qed.

Lemma addEntities_stops_at_missing_id_witness :
  exists s',
    Store.addEntities [ada] Store.empty = Store.Done s'
    /\ Store.addEntities ([ada] ++ nameless :: [bob]) Store.empty
       = Store.Throw Store.EntityMustHaveId s'.
Proof.
  apply (addEntities_stops_at_missing_id [ada] [bob] nameless Store.empty).
  - constructor; [|constructor]. split; discriminate.
  - reflexivity.
Defined.

(** X22. [addEntity] with an id that the store already has replaces that
    entity where it is: the order of the entities and all others stay. *)
Theorem addEntity_replaces_in_place (entity old : Graph.Entity) (s : Store.store) :
  Graph.id entity <> [] ->
  Graph.id entity <> JS.lit "__proto__" ->
  JS.obj_get (Store.entities s) (Graph.id entity) = Some old ->
  exists before after s',
    Store.addEntity entity s = Store.Done s'
    /\ Store.entities s = before ++ (Graph.id entity, old) :: after
    /\ Store.entities s' = before ++ (Graph.id entity, entity) :: after
    /\ Store.relationships s' = Store.relationships s.
Proof.
  intros Hne Hproto Hget.
  destruct (obj_replace_split (Store.entities s) (Graph.id entity) entity old Hget)
    as (before & after & Hs & Hrep & _).
  exists before, after. eexists. split; [apply addEntity_valid; assumption|].
  split; [exact Hs|]. split; [|reflexivity].
  cbn [Store.assign_entity Store.entities]. unfold JS.obj_set. rewrite Hget.
  exact Hrep.
Qed.

Lemma addEntity_replaces_in_place_witness :
  exists before after s',
    Store.addEntity ada_renamed ada_store = Store.Done s'
    /\ Store.entities ada_store = before ++ (Graph.id ada_renamed, ada) :: after
    /\ Store.entities s' = before ++ (Graph.id ada_renamed, ada_renamed) :: after
    /\ Store.relationships s' = Store.relationships ada_store.
Proof.
  apply (addEntity_replaces_in_place ada_renamed ada ada_store);
    [discriminate|discriminate|reflexivity].
Defined.

Section Persistence.
Import JS Graph Store.

(** Loading entities whose ids are new and are not array indices appends
    them to the map in the order of the array. *)
Lemma load_entities_appends (entitiesArray : list Entity) (map : object Entity) :
  List.NoDup (keys map ++ List.map id entitiesArray) ->
  Forall (fun entity => is_array_index (id entity) = false
                        /\ id entity <> lit "__proto__") entitiesArray ->
  load_entities entitiesArray map = Some (map ++ List.map entry entitiesArray).
Proof.
  revert map. induction entitiesArray as [|entity rest IH]; intros map Hnd Hall.
  - cbn. rewrite app_nil_r. reflexivity.
  - apply List.Forall_cons_iff in Hall. destruct Hall as ((Hidx & Hproto) & Hall).
    cbn [load_entities]. case_bool_decide; [contradiction|].
    assert (Hfresh : ~ In (id entity) (keys map)).
    { intros Hin. cbn [List.map] in Hnd.
      apply List.NoDup_remove_2 in Hnd. apply Hnd.
      apply in_or_app. left. exact Hin. }
    rewrite (obj_set_fresh_last map (id entity) entity Hfresh Hidx).
    rewrite IH; [|unfold keys in *; rewrite List.map_app, <- app_assoc; exact Hnd
                 |exact Hall].
    rewrite <- app_assoc. reflexivity.
Qed.

(** Ids that are array indices come out in numeric order. *)
Example index_ids_are_reordered :
  option_map saveToFiles (loadFromFiles [entity_2; entity_1] [])
  = Some ([entity_1; entity_2], []).
Proof. vm_compute. reflexivity. Qed.

End Persistence.

(** X23. Load, then save.  For an array of entities with pairwise distinct
    ids, none of them an array index or [__proto__], [loadFromFiles]
    followed by [saveToFiles] gives back the array in its order, and the
    relationships as they were. *)
Theorem load_then_save (entitiesArray : list Graph.Entity)
    (relationshipsArray : list Graph.Relationship) :
  List.NoDup (List.map Graph.id entitiesArray) ->
  Forall (fun entity => is_array_index (Graph.id entity) = false
                        /\ Graph.id entity <> JS.lit "__proto__") entitiesArray ->
  exists s,
    Store.loadFromFiles entitiesArray relationshipsArray = Some s
    /\ Store.saveToFiles s = (entitiesArray, relationshipsArray).
Proof.
  intros Hnd Hall. unfold Store.loadFromFiles.
  rewrite (load_entities_appends entitiesArray [] Hnd Hall).
  eexists. split; [reflexivity|].
  unfold Store.saveToFiles. cbn [Store.entities Store.relationships app].
  rewrite List.map_map. cbn [entry snd]. rewrite List.map_id. reflexivity.
Qed.

Lemma load_then_save_witness :
  exists s,
    Store.loadFromFiles [bob; ada] [knows_self] = Some s
    /\ Store.saveToFiles s = ([bob; ada], [knows_self]).
Proof.
  apply (load_then_save [bob; ada] [knows_self]).
  - repeat constructor; cbn; intros H; repeat destruct H as [H|H];
      try discriminate; exact H.
  - repeat constructor; discriminate.
Defined.

(** X24. Save, then load.  A store that the methods have built and that
    has no array index among its ids is what [loadFromFiles] makes of the
    two arrays that [saveToFiles] writes. *)
Theorem save_then_load (s : Store.store) :
  built s ->
  Forall (fun key => is_array_index key = false) (keys (Store.entities s)) ->
  Store.loadFromFiles (fst (Store.saveToFiles s)) (snd (Store.saveToFiles s))
  = Some s.
Proof.
  intros Hb Hidx. destruct (built_keys s Hb) as (Hnd & Hid).
  assert (Hids : List.map Graph.id (List.map snd (Store.entities s))
                 = keys (Store.entities s)).
  { rewrite List.map_map. unfold keys. apply List.map_ext_in.
    intros [k e] Hin. apply (Hid k e Hin). }
  unfold Store.loadFromFiles. cbn [Store.saveToFiles fst snd].
  rewrite load_entities_appends.
  - cbn [app]. rewrite List.map_map.
    replace (List.map (fun x => entry (snd x)) (Store.entities s))
      with (Store.entities s); [destruct s; reflexivity|].
    rewrite <- (List.map_id (Store.entities s)) at 1.
    apply List.map_ext_in. intros [k e] Hin. unfold entry. cbn [snd].
    rewrite (proj1 (Hid k e Hin)). reflexivity.
  - cbn [keys List.map app]. rewrite Hids. exact Hnd.
  - apply List.Forall_forall. intros entity Hin.
    apply List.in_map_iff in Hin. destruct Hin as ([k e] & Heq & Hin).
    cbn [snd] in Heq. subst e. destruct (Hid k entity Hin) as (Hk & _ & Hproto).
    rewrite Hk. split; [|exact Hproto].
    rewrite List.Forall_forall in Hidx. apply Hidx.
    apply (in_map fst) in Hin. exact Hin.
Qed.

Lemma save_then_load_witness :
  Store.loadFromFiles (fst (Store.saveToFiles ada_store))
    (snd (Store.saveToFiles ada_store))
  = Some ada_store.
Proof.
  apply (save_then_load ada_store ada_store_built).
  repeat constructor.
Defined.

Section UpdateFacts.
Import JS Graph Store.

Lemma find_app_none {A : Type} (test : A -> bool) (l : list A) (x : A) :
  List.find test l = None ->
  List.find test (l ++ [x]) = if test x then Some x else None.
Proof.
  induction l as [|y rest IH]; simpl; [reflexivity|].
  destruct (test y); [discriminate|exact IH].
Qed.

Lemma update_first_none {A : Type} (test : A -> bool) (f : A -> A) (l : list A) :
  List.find test l = None -> update_first test f l = l.
Proof.
  induction l as [|y rest IH]; simpl; [reflexivity|].
  destruct (test y); [discriminate|]. intros H. rewrite (IH H). reflexivity.
Qed.

Lemma update_first_app_none {A : Type} (test : A -> bool) (f : A -> A)
    (l l' : list A) :
  List.find test l = None ->
  update_first test f (l ++ l') = l ++ update_first test f l'.
Proof.
  induction l as [|y rest IH]; simpl; [reflexivity|].
  destruct (test y); [discriminate|]. intros H. rewrite (IH H). reflexivity.
Qed.

Lemma update_first_length {A : Type} (test : A -> bool) (f : A -> A) (l : list A) :
  List.length (update_first test f l) = List.length l.
Proof.
  induction l as [|y rest IH]; simpl; [reflexivity|].
  destruct (test y); simpl; [reflexivity|]. rewrite IH. reflexivity.
Qed.

(** Updating the first match twice with a function that keeps the test
    and does nothing the second time. *)
Lemma update_first_twice {A : Type} (test : A -> bool) (f : A -> A) (l : list A) :
  (forall x, test x = true -> test (f x) = true /\ f (f x) = f x) ->
  update_first test f (update_first test f l) = update_first test f l.
Proof.
  intros Hf. induction l as [|y rest IH]; simpl; [reflexivity|].
  destruct (test y) eqn:Hy; simpl.
  - destruct (Hf y Hy) as (Ht & Hff). rewrite Ht, Hff. reflexivity.
  - rewrite Hy, IH. reflexivity.
Qed.

Lemma obj_replace_same {A : Type} (o : object A) (k : jsstring) (v : A) :
  obj_get o k = Some v -> obj_replace o k v = o.
Proof.
  induction o as [|[j w] rest IH]; simpl; [reflexivity|].
  destruct (decide (j = k)) as [->|Hne].
  - intros H. injection H as ->. reflexivity.
  - intros H. rewrite (IH H). reflexivity.
Qed.

(** Writing the value that a key already has changes nothing. *)
Lemma obj_set_same {A : Type} (o : object A) (k : jsstring) (v : A) :
  obj_get o k = Some v -> obj_set o k v = o.
Proof.
  intros H. unfold obj_set. rewrite H. apply obj_replace_same. exact H.
Qed.

Lemma obj_get_assign_others_notin (target source : list (jsstring * jsstring))
    (k : jsstring) :
  ~ In k (keys source) ->
  obj_get (assign_others target source) k = obj_get target k.
Proof.
  revert target. induction source as [|[j w] rest IH]; intros target Hk;
    [reflexivity|].
  cbn [assign_others fold_left fst snd].
  change (fold_left (fun o entry => obj_set o (fst entry) (snd entry)) rest
            (obj_set target j w))
    with (assign_others (obj_set target j w) rest).
  rewrite IH.
  - rewrite obj_get_set. destruct (decide (j = k)) as [->|]; [|reflexivity].
    exfalso. apply Hk. left. reflexivity.
  - intros Hin. apply Hk. right. exact Hin.
Qed.

Lemma obj_get_assign_others_in (target source : list (jsstring * jsstring))
    (k v : jsstring) :
  List.NoDup (keys source) -> In (k, v) source ->
  obj_get (assign_others target source) k = Some v.
Proof.
  revert target. induction source as [|[j w] rest IH]; intros target Hnd Hin;
    [destruct Hin|].
  cbn [keys List.map fst] in Hnd. apply List.NoDup_cons_iff in Hnd.
  destruct Hnd as (Hj & Hnd).
  cbn [assign_others fold_left fst snd].
  change (fold_left (fun o entry => obj_set o (fst entry) (snd entry)) rest
            (obj_set target j w))
    with (assign_others (obj_set target j w) rest).
  destruct Hin as [Heq|Hin].
  - injection Heq as -> ->.
    rewrite obj_get_assign_others_notin by exact Hj.
    rewrite obj_get_set. destruct (decide (k = k)); [reflexivity|contradiction].
  - apply IH; assumption.
Qed.

(** Assigning a source whose every entry the target already has. *)
Lemma assign_others_same (target source : list (jsstring * jsstring)) :
  (forall k v, In (k, v) source -> obj_get target k = Some v) ->
  assign_others target source = target.
Proof.
  induction source as [|[j w] rest IH]; intros H; [reflexivity|].
  cbn [assign_others fold_left fst snd].
  rewrite (obj_set_same target j w) by (apply H; left; reflexivity).
  apply IH. intros k v Hin. apply H. right. exact Hin.
Qed.

Lemma assign_others_twice (target source : list (jsstring * jsstring)) :
  List.NoDup (keys source) ->
  assign_others (assign_others target source) source
  = assign_others target source.
Proof.
  intros Hnd. apply assign_others_same. intros k v Hin.
  apply obj_get_assign_others_in; assumption.
Qed.

Lemma override_twice {A : Type} (new old : option A) :
  override new (override new old) = override new old.
Proof. destruct new; reflexivity. Qed.

Lemma override_self {A : Type} (new : option A) : override new new = new.
Proof. destruct new; reflexivity. Qed.

Lemma assign_twice (newData : Patch) (observation : Observation) :
  List.NoDup (keys (p_others newData)) ->
  assign newData (assign newData observation) = assign newData observation.
Proof.
  intros Hnd. unfold assign.
  cbn [type emailCount lastContacted responseRate meetingCount manualPriority
       calculatedScore others].
  rewrite !override_twice, (assign_others_twice _ _ Hnd).
  destruct (p_type newData); reflexivity.
Qed.

Lemma assign_spread (newData : Patch) (t : jsstring) :
  List.NoDup (keys (p_others newData)) ->
  assign newData (spread t newData) = spread t newData.
Proof.
  intros Hnd. unfold assign, spread.
  cbn [type emailCount lastContacted responseRate meetingCount manualPriority
       calculatedScore others].
  rewrite !override_self, (assign_others_twice _ _ Hnd).
  destruct (p_type newData); reflexivity.
Qed.

Lemma is_type_assign (newData : Patch) (t : jsstring) (observation : Observation) :
  p_type newData = None ->
  is_type t (assign newData observation) = is_type t observation.
Proof. intros H. unfold is_type, assign. cbn [type]. rewrite H. reflexivity. Qed.

Lemma is_type_spread (newData : Patch) (t : jsstring) :
  p_type newData = None -> is_type t (spread t newData) = true.
Proof.
  intros H. unfold is_type, spread. cbn [type]. rewrite H.
  apply bool_decide_eq_true_2. reflexivity.
Qed.

Lemma find_updated (t : jsstring) (newData : Patch) (l : list Observation) :
  p_type newData = None ->
  List.find (is_type t) (updated t newData l)
  = Some match List.find (is_type t) l with
         | Some old => assign newData old
         | None => spread t newData
         end.
Proof.
  intros Hty. unfold updated.
  destruct (List.find (is_type t) l) as [old|] eqn:Hfind.
  - apply find_update_first; [exact Hfind|].
    rewrite (is_type_assign _ _ _ Hty).
    apply List.find_some in Hfind. apply Hfind.
  - rewrite (find_app_none _ _ _ Hfind), (is_type_spread _ _ Hty). reflexivity.
Qed.

Lemma updated_twice (t : jsstring) (newData : Patch) (l : list Observation) :
  p_type newData = None ->
  List.NoDup (keys (p_others newData)) ->
  updated t newData (updated t newData l) = updated t newData l.
Proof.
  intros Hty Hnd. unfold updated at 1. rewrite (find_updated _ _ _ Hty).
  unfold updated. destruct (List.find (is_type t) l) as [old|] eqn:Hfind.
  - apply update_first_twice. intros x Hx.
    rewrite (is_type_assign _ _ _ Hty). split; [exact Hx|].
    apply assign_twice. exact Hnd.
  - rewrite (update_first_app_none _ _ _ _ Hfind). cbn [update_first].
    rewrite (is_type_spread _ _ Hty), (assign_spread _ _ Hnd). reflexivity.
Qed.

Lemma updateEntityObservation_own (entityId t : jsstring) (newData : Patch)
    (s : store) (entity : Entity) :
  obj_get (entities s) entityId = Some entity ->
  updateEntityObservation entityId t newData s
  = Done (assign_entity s entityId
            (with_observations entity (updated t newData (observations entity)))).
Proof.
  intros Hget. unfold updateEntityObservation, read, updated. rewrite Hget.
  destruct (List.find (is_type t) (observations entity)); reflexivity.
Qed.

End UpdateFacts.

(** X25. [updateEntityObservation] on an entity of the store, with new data
    that carry no [type]: the call returns; the entity keeps its id, name
    and type; the first observation of the given type is afterwards the old
    one with the new fields assigned over it, or, when there was none, a
    new last observation of that type made of the new fields; every other
    key of the map reads as before and the relationships stay. *)
Theorem update_merges_or_appends (entityId t : JS.jsstring) (newData : Store.Patch)
    (s : Store.store) (entity : Graph.Entity) :
  JS.obj_get (Store.entities s) entityId = Some entity ->
  Store.p_type newData = None ->
  exists s' entity',
    Store.updateEntityObservation entityId t newData s = Store.Done s'
    /\ Store.read s' entityId = Store.Own entity'
    /\ Graph.id entity' = Graph.id entity
    /\ Graph.name entity' = Graph.name entity
    /\ Graph.entityType entity' = Graph.entityType entity
    /\ List.find (Graph.is_type t) (Graph.observations entity')
       = Some match List.find (Graph.is_type t) (Graph.observations entity) with
              | Some old => Store.assign newData old
              | None => Store.spread t newData
              end
    /\ Z.of_nat (List.length (Graph.observations entity'))
       = Z.of_nat (List.length (Graph.observations entity))
         + match List.find (Graph.is_type t) (Graph.observations entity) with
           | Some _ => 0
           | None => 1
           end
    /\ (forall key, key <> entityId -> Store.read s' key = Store.read s key)
    /\ Store.relationships s' = Store.relationships s.
Proof.
  intros Hget Hty.
  exists (Store.assign_entity s entityId
            (Store.with_observations entity
               (updated t newData (Graph.observations entity)))).
  exists (Store.with_observations entity
            (updated t newData (Graph.observations entity))).
  split; [apply updateEntityObservation_own; exact Hget|].
  split.
  { rewrite read_assign_entity.
    destruct (decide (entityId = entityId)); [reflexivity|contradiction]. }
  cbn [Store.with_observations Graph.id Graph.name Graph.entityType
       Graph.observations].
  split; [reflexivity|]. split; [reflexivity|]. split; [reflexivity|].
  split; [apply find_updated; exact Hty|].
  split.
  { unfold updated.
    destruct (List.find (Graph.is_type t) (Graph.observations entity)).
    - rewrite update_first_length. lia.
    - rewrite List.length_app. cbn [List.length]. lia. }
  split; [|reflexivity].
  intros key Hne. rewrite read_assign_entity.
  destruct (decide (entityId = key)); [congruence|reflexivity].
Qed.

Lemma update_merges_or_appends_witness :
  exists s' entity',
    Store.updateEntityObservation (JS.lit "contact_1")
      (JS.lit "communication_metrics") replied_patch ada_store = Store.Done s'
    /\ Store.read s' (JS.lit "contact_1") = Store.Own entity'
    /\ Graph.id entity' = Graph.id ada
    /\ Graph.name entity' = Graph.name ada
    /\ Graph.entityType entity' = Graph.entityType ada
    /\ List.find (Graph.is_type (JS.lit "communication_metrics"))
         (Graph.observations entity')
       = Some match List.find (Graph.is_type (JS.lit "communication_metrics"))
                      (Graph.observations ada) with
              | Some old => Store.assign replied_patch old
              | None => Store.spread (JS.lit "communication_metrics") replied_patch
              end
    /\ Z.of_nat (List.length (Graph.observations entity'))
       = Z.of_nat (List.length (Graph.observations ada))
         + match List.find (Graph.is_type (JS.lit "communication_metrics"))
                   (Graph.observations ada) with
           | Some _ => 0
           | None => 1
           end
    /\ (forall key, key <> JS.lit "contact_1" ->
        Store.read s' key = Store.read ada_store key)
    /\ Store.relationships s' = Store.relationships ada_store.
Proof.
  apply (update_merges_or_appends (JS.lit "contact_1")
           (JS.lit "communication_metrics") replied_patch ada_store ada);
    reflexivity.
Defined.

(** X26. The same update made twice is the update made once: with new data
    that carry no [type] and no key twice, a second
    [updateEntityObservation] with the same arguments leaves the store as
    the first left it. *)
Theorem update_twice_is_once (entityId t : JS.jsstring) (newData : Store.Patch)
    (s : Store.store) (entity : Graph.Entity) :
  JS.obj_get (Store.entities s) entityId = Some entity ->
  Store.p_type newData = None ->
  List.NoDup (keys (Store.p_others newData)) ->
  exists s',
    Store.updateEntityObservation entityId t newData s = Store.Done s'
    /\ Store.updateEntityObservation entityId t newData s' = Store.Done s'.
Proof.
  intros Hget Hty Hnd.
  eexists. split; [apply updateEntityObservation_own; exact Hget|].
  set (entity' := Store.with_observations entity
                    (updated t newData (Graph.observations entity))).
  assert (Hget' : JS.obj_get (Store.entities (Store.assign_entity s entityId entity'))
                    entityId = Some entity').
  { cbn [Store.assign_entity Store.entities]. rewrite obj_get_set.
    destruct (decide (entityId = entityId)); [reflexivity|contradiction]. }
  rewrite (updateEntityObservation_own _ _ _ _ _ Hget'). f_equal.
  subst entity'. cbn [Store.with_observations Graph.observations].
  rewrite (updated_twice _ _ _ Hty Hnd).
  unfold Store.assign_entity at 1. cbn [Store.relationships].
  rewrite obj_set_same; [reflexivity|].
  exact Hget'.
Qed.

Lemma update_twice_is_once_witness :
  exists s',
    Store.updateEntityObservation (JS.lit "contact_1")
      (JS.lit "communication_metrics") replied_patch ada_store = Store.Done s'
    /\ Store.updateEntityObservation (JS.lit "contact_1")
         (JS.lit "communication_metrics") replied_patch s' = Store.Done s'.
Proof.
  apply (update_twice_is_once (JS.lit "contact_1")
           (JS.lit "communication_metrics") replied_patch ada_store ada).
  - reflexivity.
  - reflexivity.
  - repeat constructor. intros [].
Defined.

(** ** Scoring and ranking: further properties *)

Section ScoreRange.
Import JS Graph.



Lemma totalScore_from_None (now : Z) (weights : list (jsstring * R))
    (metricsObs importanceObs : Observation) :
  fold_left
    (fun total entry =>
       match total, scores now metricsObs importanceObs (fst entry) with
       | Some t, Some s => Some (t + s * snd entry)%R
       | _, _ => None
       end)
    weights None = None.
Proof. induction weights as [|entry rest IH]; [reflexivity|exact IH]. Qed.

Lemma scores_unknown (now : Z) (metricsObs importanceObs : Observation)
    (factor : jsstring) :
  ~ In factor factor_names -> scores now metricsObs importanceObs factor = None.
Proof.
  intros Hno. unfold scores.
  repeat match goal with
         | |- context [decide (factor = ?b)] =>
             destruct (decide (factor = b)) as [->|_];
             [exfalso; apply Hno; vm_compute; tauto|]
         end.
  reflexivity.
Qed.

Lemma find_other_type (t1 t2 : jsstring) (f : Observation -> Observation)
    (l : list Observation) :
  t1 <> t2 ->
  (forall o, type (f o) = type o) ->
  List.find (is_type t1) (update_first (is_type t2) f l) = List.find (is_type t1) l.
Proof.
  intros Hne Hf. induction l as [|o rest IH]; [reflexivity|].
  cbn [update_first]. destruct (is_type t2 o) eqn:H2.
  - cbn [List.find]. unfold is_type in *. rewrite Hf.
    apply bool_decide_eq_true in H2.
    rewrite !bool_decide_eq_false_2 by congruence. reflexivity.
  - cbn [List.find]. rewrite IH. reflexivity.
Qed.

Lemma imap_twice {A : Type} (l : list A) :
  forall f : nat -> A -> A,
    (forall i x, f i (f i x) = f i x) -> imap f (imap f l) = imap f l.
Proof.
  induction l as [|x rest IH]; intros f Hf; [reflexivity|].
  cbn [imap]. rewrite Hf. f_equal. apply IH. intros i y. apply Hf.
Qed.

(** The score does not read [calculatedScore]. *)
Lemma contactScore_ignores_score (now : Z) (weights : list (jsstring * R))
    (metricsObs importanceObs : Observation) (s : score) :
  contactScore now weights metricsObs (set_calculatedScore s importanceObs)
  = contactScore now weights metricsObs importanceObs.
Proof. reflexivity. Qed.

Lemma scoreContact_found (now : Z) (weights : list (jsstring * R))
    (contact : Entity) (m io : Observation) :
  List.find (is_type (lit "communication_metrics")) (observations contact) = Some m ->
  List.find (is_type (lit "importance_metrics")) (observations contact) = Some io ->
  scoreContact now weights contact
  = {| id := id contact; name := name contact; entityType := entityType contact;
       observations :=
         update_first (is_type (lit "importance_metrics"))
           (set_calculatedScore (contactScore now weights m io))
           (observations contact) |}.
Proof. intros Hm Hi. unfold scoreContact. rewrite Hm, Hi. reflexivity. Qed.

Lemma scoreContact_not_found (now : Z) (weights : list (jsstring * R))
    (contact : Entity) :
  List.find (is_type (lit "communication_metrics")) (observations contact) = None
  \/ List.find (is_type (lit "importance_metrics")) (observations contact) = None ->
  scoreContact now weights contact = contact.
Proof.
  intros [H|H]; unfold scoreContact; rewrite H; [reflexivity|].
  destruct (List.find (is_type (lit "communication_metrics"))
              (observations contact)); reflexivity.
Qed.

Lemma scoreContact_twice (now : Z) (weights : list (jsstring * R))
    (contact : Entity) :
  scoreContact now weights (scoreContact now weights contact)
  = scoreContact now weights contact.
Proof.
  destruct (List.find (is_type (lit "communication_metrics"))
              (observations contact)) as [m|] eqn:Hm;
    [destruct (List.find (is_type (lit "importance_metrics"))
                 (observations contact)) as [io|] eqn:Hi|].
  - rewrite (scoreContact_found now weights contact m io Hm Hi).
    rewrite (scoreContact_found now weights _ m
               (set_calculatedScore (contactScore now weights m io) io)).
    + cbn [id name entityType observations].
      rewrite contactScore_ignores_score.
      rewrite update_first_twice; [reflexivity|].
      intros o Ho. split; [exact Ho|reflexivity].
    + cbn [observations].
      rewrite find_other_type; [exact Hm|discriminate|reflexivity].
    + cbn [observations]. apply find_update_first; [exact Hi|].
      apply List.find_some in Hi. apply Hi.
  - rewrite !(scoreContact_not_found now weights contact) by (right; exact Hi).
    reflexivity.
  - rewrite !(scoreContact_not_found now weights contact) by (left; exact Hm).
    reflexivity.
Qed.

End ScoreRange.

(** X27. Scoring again with the same clock changes nothing: a second
    [calculateImportanceScores] leaves the store as the first left it. *)
Theorem rescoring_is_idempotent (clock : nat -> Z) (weights : list (JS.jsstring * R))
    (g : Graph.KnowledgeGraph) :
  Graph.calculateImportanceScores clock weights
    (Graph.calculateImportanceScores clock weights g)
  = Graph.calculateImportanceScores clock weights g.
Proof.
  unfold Graph.calculateImportanceScores.
  cbn [Graph.entities Graph.relationships]. f_equal.
  apply imap_twice. intros i entity.
  destruct (bool_decide (Graph.entityType entity = JS.lit "Contact")) eqn:Hc.
  - replace (Graph.entityType (Graph.scoreContact (clock i) weights entity))
      with (Graph.entityType entity).
    + rewrite Hc. apply scoreContact_twice.
    + unfold Graph.scoreContact.
      destruct (List.find _ _); [destruct (List.find _ _)|]; reflexivity.
  - rewrite Hc. reflexivity.
Qed.



(** X29. A weight under a name that is none of the five factors makes the
    score NaN, whatever the other weights are; [getTopContacts] then ranks
    the contact as if its score were 0. *)
Theorem unknown_factor_gives_NaN (now : Z) (weights : list (JS.jsstring * R))
    (factor : JS.jsstring) (weight : R) :
  In (factor, weight) weights ->
  ~ In factor factor_names ->
  (forall metricsObs importanceObs,
      Graph.contactScore now weights metricsObs importanceObs = Graph.NotANumber)
  /\ (forall contact metricsObs importanceObs,
        List.find (Graph.is_type (JS.lit "communication_metrics"))
          (Graph.observations contact) = Some metricsObs ->
        List.find (Graph.is_type (JS.lit "importance_metrics"))
          (Graph.observations contact) = Some importanceObs ->
        Graph.scoreOf (Graph.scoreContact now weights contact) = 0).
Proof.
  intros Hin Hno.
  assert (Hnan : forall m io, Graph.contactScore now weights m io = Graph.NotANumber).
  { intros m io. unfold Graph.contactScore, Graph.totalScore.
    apply in_split in Hin. destruct Hin as (l1 & l2 & ->).
    rewrite fold_left_app. cbn [fold_left fst snd].
    rewrite (scores_unknown now m io factor Hno).
    match goal with
    | |- context [fold_left ?f l2 ?a] =>
        replace a with (@None R) by (destruct (fold_left _ l1 _); reflexivity)
    end.
    rewrite totalScore_from_None. reflexivity. }
  split; [exact Hnan|].
  intros contact m io Hm Hi.
  rewrite (scoreContact_found now weights contact m io Hm Hi), Hnan.
  unfold Graph.scoreOf. cbn [Graph.observations].
  rewrite (find_update_first _ _ _ io Hi);
    [reflexivity|apply List.find_some in Hi; apply Hi].
Qed.

Lemma unknown_factor_gives_NaN_witness :
  (forall metricsObs importanceObs,
      Graph.contactScore 0 misspelt_weights metricsObs importanceObs
      = Graph.NotANumber)
  /\ (forall contact metricsObs importanceObs,
        List.find (Graph.is_type (JS.lit "communication_metrics"))
          (Graph.observations contact) = Some metricsObs ->
        List.find (Graph.is_type (JS.lit "importance_metrics"))
          (Graph.observations contact) = Some importanceObs ->
        Graph.scoreOf (Graph.scoreContact 0 misspelt_weights contact) = 0).
Proof.
  apply (unknown_factor_gives_NaN 0 misspelt_weights (JS.lit "recencey") 0.5%R).
  - right. left. reflexivity.
  - vm_compute. intros H. repeat destruct H as [H|H]; try discriminate; exact H.
Defined.

(** X30. A negative count takes from the end: [getTopContacts n] with
    [n < 0] returns the ranking without its last [-n] contacts, and nothing
    when there are no more than [-n]. *)
Theorem getTopContacts_negative_count (n : Z) (g : Graph.KnowledgeGraph) :
  n < 0 ->
  let count :=
    Z.of_nat (List.length (Graph.findEntitiesByType (JS.lit "Contact") g)) in
  Z.of_nat (List.length (Graph.getTopContacts n g)) = Z.max (count + n) 0
  /\ exists dropped,
       Graph.getTopContacts count g = Graph.getTopContacts n g ++ dropped.
Proof.
  intros Hn count. unfold Graph.getTopContacts, Graph.slice0.
  fold (Graph.findEntitiesByType (JS.lit "Contact") g).
  set (contacts := Graph.findEntitiesByType (JS.lit "Contact") g) in *.
  set (sorted := Graph.sort (fun a b => Graph.scoreOf b - Graph.scoreOf a) contacts).
  pose proof (Permutation_length (sort_perm Graph.scoreOf contacts)) as Hlen.
  fold sorted in Hlen. fold count. rewrite Hlen. fold count.
  destruct (Z.ltb_spec n 0) as [_|]; [|lia].
  destruct (Z.ltb_spec count 0) as [|_]; [lia|].
  split.
  - rewrite length_firstn. lia.
  - exists (skipn (Z.to_nat (Z.max (count + n) 0)) sorted).
    rewrite firstn_skipn. apply firstn_all2. lia.
Qed.

Lemma getTopContacts_negative_count_witness :
  Z.of_nat (List.length (Graph.getTopContacts (-1) tie_store))
  = Z.max (Z.of_nat (List.length (Graph.findEntitiesByType (JS.lit "Contact")
                                    tie_store)) + -1) 0
  /\ exists dropped,
       Graph.getTopContacts
         (Z.of_nat (List.length (Graph.findEntitiesByType (JS.lit "Contact")
                                   tie_store))) tie_store
       = Graph.getTopContacts (-1) tie_store ++ dropped.
Proof. apply (getTopContacts_negative_count (-1) tie_store). lia. Defined.
